(** * AZH_lid: a Reactor-pattern TCP server framework

    Shallow embedding of the buffer pool, the pooled I/O buffers, the channel
    and event-loop registry, the connection state machine, the acceptor loop,
    the loop pool and the idle-timeout wheel, followed by the properties
    established about them.

    Conventions.
    - [size_t] values are integers reduced modulo 2^64, [int] values are
      reduced to the signed 32-bit range; every arithmetic result stored in
      such a variable goes through [size_t] or [int].
    - Raw memory ([char*]) is a function from offsets to byte values, so a
      4 MiB slab costs nothing to represent.
    - A [Chunk*] is owned by exactly one holder at a time (a free list of the
      pool or one buffer), so chunks are passed by value; [nullptr] is [None].
    - System calls are answered by the environment: every call that returns
      a value consumes the next answer of a tape of [sysret] records. A call
      whose answer is missing has not returned yet, which is [None].
    - C++ exceptions are explicit results. *)

From Stdlib Require Import ZArith Lia Bool List.
From stdpp Require Import base gmap list.

Local Open Scope Z_scope.

(** ** Machine integers and raw memory *)

Definition size_t (z : Z) : Z := z mod 2 ^ 64.

Definition int (z : Z) : Z := (z + 2 ^ 31) mod 2 ^ 32 - 2 ^ 31.

Definition unsigned (z : Z) : Z := z mod 2 ^ 32.

Definition INT_MAX : Z := 2 ^ 31 - 1.

Definition bytes : Type := Z -> Z.

(** [memcpy (dst + doff, src + soff, n)]; [memmove] has the same result. *)
Definition memcpy (dst : bytes) (doff : Z) (src : bytes) (soff n : Z) : bytes :=
  fun i => if (doff <=? i) && (i <? doff + n) then src (soff + (i - doff)) else dst i.

Definition zeroed : bytes := fun _ => 0.

(** Linux errno values used by the sources. *)
Definition EINTR : Z := 4.
Definition EAGAIN : Z := 11.
Definition EWOULDBLOCK : Z := 11.
Definition ENFILE : Z := 23.
Definition EMFILE : Z := 24.

(** Linux epoll event bits. *)
Definition EPOLLIN : Z := 1.
Definition EPOLLOUT : Z := 4.
Definition EPOLLERR : Z := 8.
Definition EPOLLHUP : Z := 16.
Definition EPOLLRDHUP : Z := 8192.

(** The answer of one system call: return value, errno, and for [read] the
    bytes the kernel stores into the caller's buffer. *)
Record sysret : Type := Sysret { ret : Z; errno : Z; payload : bytes }.

Inductive exn : Type :=
| invalid_argument
| length_error
| MemoryAllocationError
| MemoryPoolExhaustedError
| runtime_error.

(** What a call comes to: it returns; it waits for an answer the kernel
    has not given; the process is aborted by a failed [assert]. *)
Inductive outcome (A : Type) : Type :=
| Returns (a : A)
| Pending
| Aborts.

Arguments Returns {A} a.
Arguments Pending {A}.
Arguments Aborts {A}.

(** ** chunk.cpp *)

Module Chunk.

Record t : Type := mk { capacity : Z; length : Z; head : Z; data : bytes }.

(** [Chunk::Chunk(size_t cap)]: zero-initialised storage. *)
Definition new (cap : Z) : t := mk cap 0 0 zeroed.

Definition clear (c : t) : t := mk (capacity c) 0 0 (data c).

Definition adjust (c : t) : t :=
  if negb (head c =? 0) then
    mk (capacity c) (length c) 0
       (if negb (length c =? 0)
        then memcpy (data c) 0 (data c) (head c) (length c)
        else data c)
  else c.

(** [oom] tells whether [new char[]] throws [std::bad_alloc]. *)
Definition expand_capacity (oom : bool) (new_capacity : Z) (c : t) : bool * t :=
  if new_capacity <=? capacity c then (false, c)
  else if oom then (false, c)
  else (true,
        mk new_capacity (length c) 0
           (if 0 <? length c
            then memcpy zeroed 0 (data c) (head c) (length c)
            else zeroed)).

Definition ensure_capacity (oom : bool) (required_capacity : Z) (c : t) : bool * t :=
  if required_capacity <=? capacity c then (true, c)
  else expand_capacity oom (Z.max (size_t (capacity c * 2)) required_capacity) c.

Definition copy (oom : bool) (other : option t) (c : t) : t :=
  match other with
  | None => mk (capacity c) 0 (head c) (data c)
  | Some o =>
      if length o =? 0 then mk (capacity c) 0 (head c) (data c)
      else
        let '(ok, c1) :=
          if capacity c <? length o then ensure_capacity oom (length o) c
          else (true, c) in
        if ok
        then mk (capacity c1) (length o) 0
                (memcpy (data c1) 0 (data o) (head o) (length o))
        else c1
  end.

Definition pop (len : Z) (c : t) : t :=
  if length c <=? len then mk (capacity c) 0 0 (data c)
  else mk (capacity c) (size_t (length c - len)) (size_t (head c + len)) (data c).

End Chunk.

(** ** memory_pool.hpp, memory_pool.cpp *)

Module MemoryPool.

Definition MEM_SIZES : list Z :=
  [4096; 4096 * 4; 4096 * 16; 4096 * 64; 4096 * 256; 4096 * 1024].

Record PoolStats : Type := mkStats {
  total_allocations : Z;
  total_deallocations : Z;
  peak_usage_bytes : Z;
  current_usage_bytes : Z;
  allocation_failures : Z }.

(** [pool_] maps a size class to its free list; the [next] links of the
    source are the list structure, a [nullptr] head is the empty list. *)
Record t : Type := mk {
  pool_ : gmap Z (list Chunk.t);
  max_capacity_bytes_ : Z;
  current_usage_bytes_ : Z;
  preallocated_bytes_ : Z;
  stats_ : PoolStats }.

Inductive alloc_result : Type :=
| Allocated (c : Chunk.t)
| Nullptr
| Throws (e : exn).

Fixpoint first_fit (sizes : list Z) (requested_size : Z) : Z :=
  match sizes with
  | [] => 0
  | size :: rest => if requested_size <=? size then size else first_fit rest requested_size
  end.

Definition find_suitable_size (requested_size : Z) : Z :=
  first_fit MEM_SIZES requested_size.

Definition is_supported_size (s : Z) : bool :=
  existsb (fun size => s =? size) MEM_SIZES.

Definition count_failure (s : PoolStats) : PoolStats :=
  mkStats (total_allocations s) (total_deallocations s) (peak_usage_bytes s)
          (current_usage_bytes s) (size_t (allocation_failures s + 1)).

Definition fail (p : t) : t :=
  mk (pool_ p) (max_capacity_bytes_ p) (current_usage_bytes_ p)
     (preallocated_bytes_ p) (count_failure (stats_ p)).

(** The bookkeeping shared by the fast and the slow path of [alloc_chunk]. *)
Definition count_allocation (usage : Z) (s : PoolStats) : PoolStats :=
  mkStats (size_t (total_allocations s + 1)) (total_deallocations s)
          (if peak_usage_bytes s <? usage then usage else peak_usage_bytes s)
          usage (allocation_failures s).

Definition charge (free : gmap Z (list Chunk.t)) (chunk_size : Z) (p : t) : t :=
  let usage := size_t (current_usage_bytes_ p + chunk_size) in
  mk free (max_capacity_bytes_ p) usage (preallocated_bytes_ p)
     (count_allocation usage (stats_ p)).

Definition over_capacity (chunk_size : Z) (p : t) : bool :=
  max_capacity_bytes_ p <? size_t (current_usage_bytes_ p + chunk_size).

(** [oom] tells whether [new Chunk] throws [std::bad_alloc]. *)
Definition alloc_chunk (oom : bool) (n : Z) (p : t) : alloc_result * t :=
  if n =? 0 then (Nullptr, p)
  else
    let chunk_size := find_suitable_size n in
    if chunk_size =? 0 then (Nullptr, fail p)
    else
      match pool_ p !! chunk_size with
      | Some (chunk :: next) =>
          (Allocated chunk, charge (<[chunk_size := next]> (pool_ p)) chunk_size p)
      | _ =>
          if over_capacity chunk_size p
          then (Throws MemoryPoolExhaustedError, fail p)
          else if oom then (Throws MemoryAllocationError, fail p)
          else if over_capacity chunk_size p
          then (Throws MemoryPoolExhaustedError, fail p)
          else (Allocated (Chunk.new chunk_size), charge (pool_ p) chunk_size p)
      end.

Definition count_deallocation (usage : Z) (s : PoolStats) : PoolStats :=
  mkStats (total_allocations s) (size_t (total_deallocations s + 1))
          (peak_usage_bytes s) usage (allocation_failures s).

Definition retrieve (chunk : option Chunk.t) (p : t) : t :=
  match chunk with
  | None => p
  | Some c =>
      let chunk_size := Chunk.capacity c in
      if chunk_size =? 0 then p
      else if negb (is_supported_size chunk_size) then p
      else
        let c' := Chunk.clear c in
        let free :=
          match pool_ p !! chunk_size with
          | Some next => <[chunk_size := c' :: next]> (pool_ p)
          | None => <[chunk_size := [c']]> (pool_ p)
          end in
        let usage :=
          if chunk_size <=? current_usage_bytes_ p
          then size_t (current_usage_bytes_ p - chunk_size)
          else 0 in
        mk free (max_capacity_bytes_ p) usage (preallocated_bytes_ p)
           (count_deallocation usage (stats_ p))
  end.

Definition set_max_capacity (max_bytes : Z) (p : t) : t :=
  mk (pool_ p) max_bytes (current_usage_bytes_ p) (preallocated_bytes_ p) (stats_ p).

Definition get_current_usage (p : t) : Z := current_usage_bytes_ p.

Definition get_max_capacity (p : t) : Z := max_capacity_bytes_ p.

Definition clear (p : t) : t :=
  mk ∅ (max_capacity_bytes_ p) 0 0 (mkStats 0 0 0 0 0).

Definition preallocate_chunks (oom : bool) (chunk_size count : Z) (p : t) : exn + t :=
  if (chunk_size =? 0) || (count =? 0) then inr p
  else
    let total_size := size_t (chunk_size * count) in
    if oom then inl MemoryAllocationError
    else if max_capacity_bytes_ p <? size_t (preallocated_bytes_ p + total_size)
    then inl MemoryPoolExhaustedError
    else
      let new_nodes := replicate (Z.to_nat count) (Chunk.new chunk_size) in
      let free :=
        match pool_ p !! chunk_size with
        | Some (c :: next) => <[chunk_size := new_nodes ++ c :: next]> (pool_ p)
        | _ => <[chunk_size := new_nodes]> (pool_ p)
        end in
      inr (mk free (max_capacity_bytes_ p) (current_usage_bytes_ p)
              (size_t (preallocated_bytes_ p + total_size)) (stats_ p)).

Definition and_then (r : exn + t) (f : t -> exn + t) : exn + t :=
  match r with inl e => inl e | inr p => f p end.

Definition initialize_pool (oom : bool) (p : t) : exn + t :=
  and_then (preallocate_chunks oom 4096 200 p) (fun p =>
  and_then (preallocate_chunks oom (4096 * 4) 50 p) (fun p =>
  and_then (preallocate_chunks oom (4096 * 16) 20 p) (fun p =>
  and_then (preallocate_chunks oom (4096 * 64) 10 p) (fun p =>
  and_then (preallocate_chunks oom (4096 * 256) 5 p) (fun p =>
  preallocate_chunks oom (4096 * 1024) 2 p))))).

(** [MemoryPool::MemoryPool()]: 128 MiB cap, every class keyed by an empty
    list, then the preallocation. *)
Definition ctor (oom : bool) : exn + t :=
  initialize_pool oom
    (mk (foldr (fun s m => <[s := []]> m) ∅ MEM_SIZES)
        (128 * 1024 * 1024) 0 0 (mkStats 0 0 0 0 0)).

(** The singleton as it is after a construction that found memory. *)
Definition get_instance : t :=
  match ctor false with
  | inr p => p
  | inl _ => mk ∅ (128 * 1024 * 1024) 0 0 (mkStats 0 0 0 0 0)
  end.

End MemoryPool.

(** ** Observable effects *)

(** An [EventLoop*]: the base loop, or the loop of the worker thread
    created with the given index. *)
Inductive LoopRef : Type := BaseLoop | WorkerLoop (index : nat).

(** System calls issued, log lines of severity error, user callbacks run. *)
Inductive Event : Type :=
| SysRead (fd count : Z)
| SysWrite (fd count : Z)
| SysClose (fd : Z)
| SysShutdownWr (fd : Z)
| SysAccept4 (fd : Z)
| SysAccept (fd : Z)
| SysOpenDevNull
| EpollCtlAdd (fd events : Z)
| EpollCtlMod (fd events : Z)
| EpollCtlDel (fd : Z)
| LogError
| ConnectedCb (fd : Z)
| MessageCb (fd : Z)
| CloseCb (fd : Z)
| ConnectEstablishedOn (io_loop : LoopRef) (fd : Z)
| TimeoutCb (fd : Z)
| NullDereference.

(** [do { r = call(...); } while (r == -1 && errno == EINTR);] against the
    tape of answers: every attempt is an issued call. *)
Fixpoint retry_on_EINTR (call : Event) (env : list sysret)
  : option (sysret * list Event * list sysret) :=
  match env with
  | [] => None
  | r :: env' =>
      if (ret r =? -1) && (errno r =? EINTR)
      then match retry_on_EINTR call env' with
           | Some (r', evs, env'') => Some (r', call :: evs, env'')
           | None => None
           end
      else Some (r, [call], env')
  end.

(** ** data_buf.hpp, data_buf.cpp *)

Module BufferBase.

Record t : Type := mk { data_buf : option Chunk.t }.

Definition DEFAULT_BUFFER_SIZE : Z := 4096.

Definition empty : t := mk None.

Definition length (b : t) : Z :=
  match data_buf b with
  | Some c => int (Chunk.length c)
  | None => 0
  end.

(** The first component is the exception leaving [pop], if any. *)
Definition pop (len : Z) (b : t) (p : MemoryPool.t) : option exn * t * MemoryPool.t :=
  match data_buf b with
  | None => (None, b, p)
  | Some c =>
      if len <=? 0 then (None, b, p)
      else if Chunk.length c <? size_t len then (Some runtime_error, b, p)
      else
        let c' := Chunk.pop (size_t len) c in
        if Chunk.length c' =? 0
        then (None, mk None, MemoryPool.retrieve (Some c') p)
        else (None, mk (Some c'), p)
  end.

Definition clear (b : t) (p : MemoryPool.t) : t * MemoryPool.t :=
  match data_buf b with
  | Some c => (mk None, MemoryPool.retrieve (Some c) p)
  | None => (b, p)
  end.

(** Bytes not yet used behind the stored data. *)
Definition free_space (b : t) : Z :=
  match data_buf b with
  | Some c => Chunk.capacity c - Chunk.length c
  | None => 0
  end.

End BufferBase.

Definition safe_int_to_size (value : Z) : option Z :=
  if value <? 0 then None else Some (size_t value).

Definition safe_add (a b : Z) : option Z :=
  if (2 ^ 64 - 1) - b <? a then None else Some (size_t (a + b)).

Module InputBuffer.

Import BufferBase.

Definition MAX_ALLOWED_SIZE : Z := 1024 * 1024.

Definition adjust (b : t) : t :=
  match data_buf b with
  | Some c => if 0 <? Chunk.head c then mk (Some (Chunk.adjust c)) else b
  | None => b
  end.

Definition expand_buffer (oom : bool) (needed_size : Z) (b : t) (p : MemoryPool.t)
  : bool * t * MemoryPool.t :=
  match data_buf b with
  | None => (false, b, p)                        (* excluded by the assert *)
  | Some c =>
      let new_size := size_t (Chunk.length c + size_t needed_size) in
      match MemoryPool.alloc_chunk oom new_size p with
      | (MemoryPool.Throws _, p') => (false, b, p')
      | (MemoryPool.Nullptr, p') => (false, b, p')
      | (MemoryPool.Allocated new_buf, p') =>
          let new_buf' := Chunk.copy oom (Some c) new_buf in
          (true, mk (Some new_buf'), MemoryPool.retrieve (Some c) p')
      end
  end.

Definition ensure_space_available (oom : bool) (additional_size : Z) (b : t)
    (p : MemoryPool.t) : bool * t * MemoryPool.t :=
  if additional_size <=? 0 then (false, b, p)
  else if MAX_ALLOWED_SIZE <? additional_size then (false, b, p)
  else
    match safe_int_to_size additional_size with
    | None => (false, b, p)
    | Some additional =>
        match data_buf b with
        | None =>
            let alloc_size := Z.max additional_size DEFAULT_BUFFER_SIZE in
            match safe_int_to_size alloc_size with
            | None => (false, b, p)
            | Some safe_size =>
                match MemoryPool.alloc_chunk oom safe_size p with
                | (MemoryPool.Allocated c, p') => (true, mk (Some c), p')
                | (_, p') => (false, b, p')
                end
            end
        | Some c =>
            let b1 := if negb (Chunk.head c =? 0) then adjust b else b in
            match data_buf b1 with
            | None => (false, b1, p)
            | Some c1 =>
                let available := size_t (Chunk.capacity c1 - Chunk.length c1) in
                if additional <=? available then (true, b1, p)
                else
                  let needed := size_t (additional - available) in
                  if INT_MAX <? needed then (false, b1, p)
                  else expand_buffer oom (int needed) b1 p
            end
        end
    end.

(** Result: return value, buffer, pool, calls issued, rest of the tape. *)
Definition read_from_fd (oom : bool) (env : list sysret) (fd : Z) (b : t)
    (p : MemoryPool.t) : option (Z * t * MemoryPool.t * list Event * list sysret) :=
  if fd <? 0 then Some (-1, b, p, [], env)
  else
    let '(ok, b1, p1) := ensure_space_available oom DEFAULT_BUFFER_SIZE b p in
    if negb ok then Some (-1, b1, p1, [], env)
    else
      match data_buf b1 with
      | None => Some (-1, b1, p1, [], env)
      | Some c =>
          let available := size_t (Chunk.capacity c - Chunk.length c) in
          if available =? 0 then Some (-1, b1, p1, [], env)
          else
            let to_read := Z.min available 65536 in
            match retry_on_EINTR (SysRead fd to_read) env with
            | None => None
            | Some (r, evs, env') =>
                let bytes_read := ret r in
                if 0 <? bytes_read then
                  let c' := Chunk.mk (Chunk.capacity c)
                                     (size_t (Chunk.length c + size_t bytes_read))
                                     (Chunk.head c)
                                     (memcpy (Chunk.data c) (Chunk.length c)
                                             (payload r) 0 bytes_read) in
                  Some (int bytes_read, mk (Some c'), p1, evs, env')
                else if bytes_read =? 0 then Some (0, b1, p1, evs, env')
                else if (errno r =? EAGAIN) || (errno r =? EWOULDBLOCK)
                then Some (0, b1, p1, evs, env')
                else Some (-1, b1, p1, evs, env')
            end
      end.

(** [get_from_buf]: the stored bytes, as a pointer to the first of them. *)
Definition get_from_buf (b : t) : option bytes :=
  match data_buf b with
  | None => None
  | Some c => Some (fun i => Chunk.data c (Chunk.head c + i))
  end.

End InputBuffer.

Module OutputBuffer.

Import BufferBase.

Definition MAX_ALLOWED_SIZE : Z := 1024 * 1024.
Definition MAX_BUFFER_SIZE : Z := 1024 * 1024.

Definition ensure_capacity (oom : bool) (additional_size : Z) (b : t)
    (p : MemoryPool.t) : bool * t * MemoryPool.t :=
  if additional_size <=? 0 then (false, b, p)
  else if MAX_ALLOWED_SIZE <? additional_size then (false, b, p)
  else
    match safe_int_to_size additional_size with
    | None => (false, b, p)
    | Some additional =>
        match data_buf b with
        | None =>
            let alloc_size := Z.max additional_size DEFAULT_BUFFER_SIZE in
            match safe_int_to_size alloc_size with
            | None => (false, b, p)
            | Some safe_size =>
                match MemoryPool.alloc_chunk oom safe_size p with
                | (MemoryPool.Allocated c, p') => (true, mk (Some c), p')
                | (_, p') => (false, b, p')
                end
            end
        | Some c =>
            let c1 := if negb (Chunk.head c =? 0) then Chunk.adjust c else c in
            let b1 := mk (Some c1) in
            let available := size_t (Chunk.capacity c1 - Chunk.length c1) in
            if additional <=? available then (true, b1, p)
            else
              let current_len := Chunk.length c1 in
              match safe_add current_len additional with
              | None => (false, b1, p)
              | Some new_size =>
                  if MAX_BUFFER_SIZE <? new_size then (false, b1, p)
                  else
                    match MemoryPool.alloc_chunk oom new_size p with
                    | (MemoryPool.Allocated new_buf, p') =>
                        let new_buf' := Chunk.copy oom (Some c1) new_buf in
                        (true, mk (Some new_buf'), MemoryPool.retrieve (Some c1) p')
                    | (_, p') => (false, b1, p')
                    end
              end
        end
    end.

(** [data] is the source pointer, [None] when null. Returns 0 or -1. *)
Definition write_to_buf (oom : bool) (data : option bytes) (len : Z) (b : t)
    (p : MemoryPool.t) : Z * t * MemoryPool.t :=
  match data with
  | None => (-1, b, p)
  | Some src =>
      if len <=? 0 then (0, b, p)
      else if 1024 * 1024 <? len then (-1, b, p)
      else
        let '(ok, b1, p1) := ensure_capacity oom len b p in
        if negb ok then (-1, b1, p1)
        else
          match data_buf b1 with
          | None => (-1, b1, p1)
          | Some c =>
              let c' := Chunk.mk (Chunk.capacity c)
                                 (size_t (Chunk.length c + size_t len))
                                 (Chunk.head c)
                                 (memcpy (Chunk.data c) (Chunk.length c) src 0 (size_t len)) in
              (0, mk (Some c'), p1)
          end
  end.

(** The build does not define NDEBUG: with stored bytes whose head is not
    0 the [assert] before the write aborts the process. *)
Definition write_to_fd (env : list sysret) (fd : Z) (b : t) (p : MemoryPool.t)
  : outcome (Z * t * MemoryPool.t * list Event * list sysret) :=
  if fd <? 0 then Returns (-1, b, p, [], env)
  else
    match data_buf b with
    | None => Returns (0, b, p, [], env)
    | Some c =>
        if Chunk.length c =? 0 then Returns (0, b, p, [], env)
        else if negb (Chunk.head c =? 0) then Aborts
        else
          match retry_on_EINTR (SysWrite fd (Chunk.length c)) env with
          | None => Pending
          | Some (r, evs, env') =>
              let bytes_written := ret r in
              if 0 <? bytes_written then
                match pop (int bytes_written) b p with
                | (Some _, b', p') => Returns (-1, b', p', evs, env')
                | (None, b', p') => Returns (int bytes_written, b', p', evs, env')
                end
              else if bytes_written =? 0 then Returns (0, b, p, evs, env')
              else if bytes_written =? -1 then
                if (errno r =? EAGAIN) || (errno r =? EWOULDBLOCK)
                then Returns (0, b, p, evs, env')
                else Returns (-1, b, p, evs, env')
              else Returns (int bytes_written, b, p, evs, env')
          end
    end.

Definition available_space (b : t) : Z :=
  match data_buf b with
  | None => DEFAULT_BUFFER_SIZE
  | Some c => int (Chunk.capacity c - Chunk.length c)
  end.

End OutputBuffer.

(** ** Epoll.cpp

    The kernel interest list is a map from descriptor to event mask.
    Whether an [epoll_ctl] call succeeds is the environment's choice
    ([ctl_ok]); a failed call changes nothing and is logged. *)

Module Epoll.

Definition t : Type := gmap Z Z.

Definition add (ctl_ok : bool) (fd events : Z) (k : t) : bool * t * list Event :=
  if ctl_ok then (true, <[fd := events]> k, [EpollCtlAdd fd events])
  else (false, k, [EpollCtlAdd fd events; LogError]).

Definition mod_ (ctl_ok : bool) (fd events : Z) (k : t) : bool * t * list Event :=
  if ctl_ok then (true, <[fd := events]> k, [EpollCtlMod fd events])
  else (false, k, [EpollCtlMod fd events; LogError]).

Definition del (ctl_ok : bool) (fd : Z) (k : t) : bool * t * list Event :=
  if ctl_ok then (true, delete fd k, [EpollCtlDel fd])
  else (false, k, [EpollCtlDel fd; LogError]).

End Epoll.

(** ** Channel.hpp: the data of a channel

    [addr] is the identity of the object, which is what a
    [weak_ptr<Channel>] of the loop registry designates. *)

Module Channel.

Record t : Type := mk {
  addr : nat;
  fd_ : Z;
  events_ : Z;
  cb_ : bool;
  tied_ : bool }.

Definition new (addr : nat) (fd : Z) : t := mk addr fd 0 false false.

Definition fd (ch : t) : Z := fd_ ch.

Definition events (ch : t) : Z := events_ ch.

Definition set_events (ev : Z) (ch : t) : t :=
  mk (addr ch) (fd_ ch) ev (cb_ ch) (tied_ ch).

Definition set_callback (ch : t) : t :=
  mk (addr ch) (fd_ ch) (events_ ch) true (tied_ ch).

Definition tie (ch : t) : t :=
  mk (addr ch) (fd_ ch) (events_ ch) (cb_ ch) true.

End Channel.

(** ** EventLoop.cpp: the channel registry *)

Module EventLoop.

Record t : Type := mk {
  epoller_ : Epoll.t;
  channels_ : gmap Z nat }.

Definition update_channel (ctl_ok : bool) (ch : Channel.t) (l : t) : t * list Event :=
  let fd := Channel.fd ch in
  let evs := int (Channel.events ch) in
  if evs =? 0 then
    let '(_, k, out) := Epoll.del ctl_ok fd (epoller_ l) in
    (mk k (delete fd (channels_ l)), out)
  else
    match channels_ l !! fd with
    | None =>
        let '(ok, k, out) := Epoll.add ctl_ok fd (Channel.events ch) (epoller_ l) in
        if ok then (mk k (<[fd := Channel.addr ch]> (channels_ l)), out)
        else (mk k (channels_ l), out ++ [LogError])
    | Some _ =>
        let '(ok, k, out) := Epoll.mod_ ctl_ok fd (Channel.events ch) (epoller_ l) in
        if ok then (mk k (channels_ l), out)
        else (mk k (channels_ l), out ++ [LogError])
    end.

Definition remove_channel (ctl_ok : bool) (ch : Channel.t) (l : t) : t * list Event :=
  let fd := Channel.fd ch in
  let '(_, k, out) := Epoll.del ctl_ok fd (epoller_ l) in
  (mk k (delete fd (channels_ l)), out).

End EventLoop.

(** ** Channel.cpp: the mutators, run on the thread that owns the loop, where
    [Channel::update] calls [EventLoop::update_channel] directly *)

Module ChannelOps.

Definition update (ctl_ok : bool) (ch : Channel.t) (l : EventLoop.t)
  : Channel.t * EventLoop.t * list Event :=
  let '(l', out) := EventLoop.update_channel ctl_ok ch l in (ch, l', out).

Definition enable_read (ctl_ok : bool) (ch : Channel.t) (l : EventLoop.t) :=
  update ctl_ok
    (Channel.set_events (Z.lor (Channel.events ch) (Z.lor EPOLLIN EPOLLRDHUP)) ch) l.

Definition enable_write (ctl_ok : bool) (ch : Channel.t) (l : EventLoop.t) :=
  update ctl_ok (Channel.set_events (Z.lor (Channel.events ch) EPOLLOUT) ch) l.

Definition disable_write (ctl_ok : bool) (ch : Channel.t) (l : EventLoop.t) :=
  update ctl_ok
    (Channel.set_events (unsigned (Z.land (Channel.events ch) (Z.lnot EPOLLOUT))) ch) l.

Definition disable_all (ctl_ok : bool) (ch : Channel.t) (l : EventLoop.t) :=
  update ctl_ok (Channel.set_events 0 ch) l.

End ChannelOps.

(** ** TcpConnection.hpp, TcpConnection.cpp *)

(** What the environment contributes to one operation: the answers of the
    system calls it makes, whether allocations and [epoll_ctl] succeed, and
    the address [make_shared] returns. *)
Record Env : Type := mkEnv {
  sys : list sysret;
  oom : bool;
  ctl_ok : bool;
  fresh : nat }.

Module TcpConnection.

Inductive State : Type := kConnecting | kConnected | kDisconnecting | kDisconnected.

Definition State_eqb (a b : State) : bool :=
  match a, b with
  | kConnecting, kConnecting | kConnected, kConnected
  | kDisconnecting, kDisconnecting | kDisconnected, kDisconnected => true
  | _, _ => false
  end.

(** The three callbacks are recorded as set or empty; running one is an
    event of the log. *)
Record t : Type := mk {
  connfd_ : Z;
  channel_ : option Channel.t;
  input_buf_ : BufferBase.t;
  output_buf_ : BufferBase.t;
  connected_cb_ : bool;
  message_cb_ : bool;
  close_cb_ : bool;
  state_ : State }.

Definition new (connfd : Z) (connected_cb message_cb close_cb : bool) : t :=
  mk connfd None BufferBase.empty BufferBase.empty
     connected_cb message_cb close_cb kConnecting.

(** A connection together with what it acts on: its worker loop, the pool
    singleton, and the effects so far in order. *)
Record World : Type := mkWorld {
  conn : t;
  loop : EventLoop.t;
  pool : MemoryPool.t;
  log : list Event }.

Definition set_conn (c : t) (w : World) : World := mkWorld c (loop w) (pool w) (log w).

Definition emit (evs : list Event) (w : World) : World :=
  mkWorld (conn w) (loop w) (pool w) (log w ++ evs).

Definition set_state (s : State) (c : t) : t :=
  mk (connfd_ c) (channel_ c) (input_buf_ c) (output_buf_ c)
     (connected_cb_ c) (message_cb_ c) (close_cb_ c) s.

Definition set_channel (ch : option Channel.t) (c : t) : t :=
  mk (connfd_ c) ch (input_buf_ c) (output_buf_ c)
     (connected_cb_ c) (message_cb_ c) (close_cb_ c) (state_ c).

Definition set_connfd (fd : Z) (c : t) : t :=
  mk fd (channel_ c) (input_buf_ c) (output_buf_ c)
     (connected_cb_ c) (message_cb_ c) (close_cb_ c) (state_ c).

Definition set_input_buf (b : BufferBase.t) (c : t) : t :=
  mk (connfd_ c) (channel_ c) b (output_buf_ c)
     (connected_cb_ c) (message_cb_ c) (close_cb_ c) (state_ c).

Definition set_output_buf (b : BufferBase.t) (c : t) : t :=
  mk (connfd_ c) (channel_ c) (input_buf_ c) b
     (connected_cb_ c) (message_cb_ c) (close_cb_ c) (state_ c).

(** [channel_->f()]: a null [channel_] is recorded as the fault it is. *)
Definition on_channel
    (f : Channel.t -> EventLoop.t -> Channel.t * EventLoop.t * list Event)
    (w : World) : World :=
  match channel_ (conn w) with
  | None => emit [NullDereference] w
  | Some ch =>
      let '(ch', l', out) := f ch (loop w) in
      mkWorld (set_channel (Some ch') (conn w)) l' (pool w) (log w ++ out)
  end.

Definition connect_established (e : Env) (w : World) : World :=
  let ch := Channel.set_callback (Channel.new (fresh e) (connfd_ (conn w))) in
  let '(ch1, l1, out) := ChannelOps.enable_read (ctl_ok e) ch (loop w) in
  let ch2 := Channel.tie ch1 in
  let c := set_state kConnected (set_channel (Some ch2) (conn w)) in
  let w1 := mkWorld c l1 (pool w) (log w ++ out) in
  if connected_cb_ c then emit [ConnectedCb (connfd_ c)] w1 else w1.

Definition handle_close (e : Env) (w : World) : World :=
  if negb (State_eqb (state_ (conn w)) kConnected) then w
  else
    let w0 := set_conn (set_state kDisconnected (conn w)) w in
    let w1 :=
      match channel_ (conn w0) with
      | Some ch =>
          let '(_, l', out) := ChannelOps.disable_all (ctl_ok e) ch (loop w0) in
          mkWorld (set_channel None (conn w0)) l' (pool w0) (log w0 ++ out)
      | None => w0
      end in
    let w2 := if close_cb_ (conn w1) then emit [CloseCb (connfd_ (conn w1))] w1 else w1 in
    let w3 := emit [SysClose (connfd_ (conn w2))] w2 in
    set_conn (set_connfd (-1) (conn w3)) w3.

Definition handle_error (e : Env) (w : World) : World := handle_close e w.

(** The handlers that make system calls return the rest of the tape. *)
Definition handle_read (e : Env) (w : World) : option (World * list sysret) :=
  match InputBuffer.read_from_fd (oom e) (sys e) (connfd_ (conn w))
                                 (input_buf_ (conn w)) (pool w) with
  | None => None
  | Some (n, b, p, out, env') =>
      let w1 := mkWorld (set_input_buf b (conn w)) (loop w) p (log w ++ out) in
      if 0 <? n then
        Some (if message_cb_ (conn w1) then emit [MessageCb (connfd_ (conn w1))] w1 else w1,
              env')
      else if n =? 0 then Some (handle_close e w1, env')
      else Some (handle_error e w1, env')
  end.

(** [handle_write] does not return when [write_to_fd] does not: the
    kernel has not answered, or the assertion on the head failed. *)
Definition handle_write (e : Env) (w : World) : option (World * list sysret) :=
  match OutputBuffer.write_to_fd (sys e) (connfd_ (conn w))
                                 (output_buf_ (conn w)) (pool w) with
  | Pending => None
  | Aborts => None
  | Returns (n, b, p, out, env') =>
      let w1 := mkWorld (set_output_buf b (conn w)) (loop w) p (log w ++ out) in
      if n <? 0 then Some (handle_error e w1, env')
      else if BufferBase.length (output_buf_ (conn w1)) =? 0 then
        let w2 := on_channel (ChannelOps.disable_write (ctl_ok e)) w1 in
        if State_eqb (state_ (conn w2)) kDisconnecting
        then Some (emit [SysShutdownWr (connfd_ (conn w2))] w2, env')
        else Some (w2, env')
      else Some (w1, env')
  end.

Definition handle_event (e : Env) (events : Z) (w : World) : option World :=
  if negb (Z.land events (Z.lor EPOLLERR EPOLLHUP) =? 0) then Some (handle_error e w)
  else if negb (Z.land events EPOLLRDHUP =? 0) then Some (handle_close e w)
  else
    let r1 :=
      if negb (Z.land events EPOLLIN =? 0) then handle_read e w
      else Some (w, sys e) in
    match r1 with
    | None => None
    | Some (w1, env1) =>
        if negb (Z.land events EPOLLOUT =? 0)
        then option_map fst
               (handle_write (mkEnv env1 (oom e) (ctl_ok e) (fresh e)) w1)
        else Some w1
    end.

(** The end of [sendInLoop]: with [n] bytes written directly, the rest goes
    to the output buffer and the channel is armed for writing. The result
    of [write_to_buf] is not looked at. *)
Definition buffer_unwritten (e : Env) (data : option bytes) (len n : Z) (w : World)
  : World :=
  if size_t n <? len then
    let '(_, b, p) :=
      OutputBuffer.write_to_buf (oom e)
        (option_map (fun d i => d (n + i)) data)
        (int (size_t (len - n)))
        (output_buf_ (conn w)) (pool w) in
    on_channel (ChannelOps.enable_write (ctl_ok e))
      (mkWorld (set_output_buf b (conn w)) (loop w) p (log w))
  else w.

Definition sendInLoop (e : Env) (data : option bytes) (len : Z) (w : World)
  : option World :=
  if negb (State_eqb (state_ (conn w)) kConnected) then Some w
  else if BufferBase.length (output_buf_ (conn w)) =? 0 then
    match sys e with
    | [] => None
    | r :: _ =>
        let w1 := emit [SysWrite (connfd_ (conn w)) len] w in
        if ret r <? 0 then
          if negb (errno r =? EAGAIN) then Some (handle_error e w1)
          else Some (buffer_unwritten e data len 0 w1)
        else Some (buffer_unwritten e data len (ret r) w1)
    end
  else Some (buffer_unwritten e data len 0 w).

(** [send] as it runs on the worker thread; from another thread it only
    makes the state test and queues [sendInLoop]. The result is the
    boolean returned. *)
Definition send (e : Env) (data : option bytes) (len : Z) (w : World)
  : option (bool * World) :=
  if negb (State_eqb (state_ (conn w)) kConnected) then Some (false, w)
  else option_map (fun w' => (true, w')) (sendInLoop e data len w).

Definition shutdownInLoop (w : World) : World :=
  if negb (State_eqb (state_ (conn w)) kConnected) then w
  else
    let w1 := set_conn (set_state kDisconnecting (conn w)) w in
    if BufferBase.length (output_buf_ (conn w1)) =? 0
    then emit [SysShutdownWr (connfd_ (conn w1))] w1
    else w1.

Definition shutdown (w : World) : World :=
  if State_eqb (state_ (conn w)) kConnected then shutdownInLoop w else w.

Definition is_connected (c : t) : bool := State_eqb (state_ c) kConnected.

(** The operations a connection undergoes after its construction. [OpSend]
    and [OpShutdown] are the calls made on the worker thread; a call from
    another thread shows up as the queued [OpSendInLoop], [OpShutdownInLoop]. *)
Inductive Op : Type :=
| OpConnectEstablished
| OpHandleEvent (events : Z)
| OpHandleRead
| OpHandleWrite
| OpHandleClose
| OpHandleError
| OpSend (data : option bytes) (len : Z)
| OpSendInLoop (data : option bytes) (len : Z)
| OpShutdown
| OpShutdownInLoop.

Definition step (e : Env) (op : Op) (w : World) : option World :=
  match op with
  | OpConnectEstablished => Some (connect_established e w)
  | OpHandleEvent events => handle_event e events w
  | OpHandleRead => option_map fst (handle_read e w)
  | OpHandleWrite => option_map fst (handle_write e w)
  | OpHandleClose => Some (handle_close e w)
  | OpHandleError => Some (handle_error e w)
  | OpSend data len => option_map snd (send e data len w)
  | OpSendInLoop data len => sendInLoop e data len w
  | OpShutdown => Some (shutdown w)
  | OpShutdownInLoop => Some (shutdownInLoop w)
  end.

Fixpoint run (trace : list (Env * Op)) (w : World) : option World :=
  match trace with
  | [] => Some w
  | (e, op) :: rest =>
      match step e op w with
      | Some w' => run rest w'
      | None => None
      end
  end.

Definition is_connect_established (op : Op) : bool :=
  match op with OpConnectEstablished => true | _ => false end.

(** The world of a connection the acceptor has just constructed. *)
Definition accepted (connfd : Z) (connected_cb message_cb close_cb : bool)
    (l : EventLoop.t) (p : MemoryPool.t) : World :=
  mkWorld (new connfd connected_cb message_cb close_cb) l p [].

End TcpConnection.

(** ** EventLoopThreadPool.hpp, EventLoopThreadPool.cpp *)

Module EventLoopThreadPool.

(** [threads_] holds, per worker thread, the loop it owns. *)
Record t : Type := mk {
  threads_ : list LoopRef;
  next_index_ : Z;
  started_ : bool;
  thread_count_ : Z }.

(** [hardware_concurrency] is what [std::thread::hardware_concurrency()]
    answers on the machine. Both branches of the conditional have type
    [unsigned]; the member is an [int]. *)
Definition ctor (hardware_concurrency : Z) (thread_count : Z) : t :=
  let n := int (if 0 <? thread_count then unsigned thread_count
                else unsigned hardware_concurrency) in
  mk [] 0 false (if n <? 0 then 1 else n).

Definition start (tp : t) : t :=
  if started_ tp then tp
  else if thread_count_ tp <=? 0 then mk (threads_ tp) (next_index_ tp) true (thread_count_ tp)
  else mk (threads_ tp ++ map WorkerLoop (seq 0 (Z.to_nat (thread_count_ tp))))
          (next_index_ tp) true (thread_count_ tp).

Definition stop (tp : t) : t :=
  if started_ tp then mk [] (next_index_ tp) false (thread_count_ tp) else tp.

(** [None] is [nullptr]. *)
Definition get_next_loop (tp : t) : option LoopRef * t :=
  match threads_ tp with
  | [] => (None, tp)
  | _ :: _ =>
      let idx := next_index_ tp mod Z.of_nat (length (threads_ tp)) in
      (threads_ tp !! Z.to_nat idx,
       mk (threads_ tp) (size_t (next_index_ tp + 1)) (started_ tp) (thread_count_ tp))
  end.

Definition thread_count (tp : t) : Z := Z.of_nat (length (threads_ tp)).

End EventLoopThreadPool.

(** ** ConnectionTimeoutManager.hpp, ConnectionTimeoutManager.cpp

    Entries are shared between the descriptor map and the slot lists, so
    they live in a store and are designated by address. Instants of
    [steady_clock] are counts of nanoseconds. *)

Module ConnectionTimeoutManager.

Record ConnectionEntry : Type := mkEntry {
  conn : option Z;             (* the connection, by its descriptor *)
  slot_position : Z;
  remaining_ticks : Z;
  last_activity_time : Z }.

Record t : Type := mk {
  idle_timeout_ms_ : Z;
  wheel_size_ : Z;
  tick_interval_ms_ : Z;
  time_wheel_ : list (list (option nat));
  current_slot_ : Z;
  connections_ : gmap Z nat;
  entries : gmap nat ConnectionEntry;
  timeout_callback_ : bool;
  total_connections_ : Z }.

(** [duration_cast<milliseconds>] of a difference of instants. *)
Definition milliseconds (d : Z) : Z := Z.quot d 1000000.

(** The wheel vector is sized by the argument (a negative one is a huge
    [size_t], which the vector refuses); the members are defaulted
    afterwards. *)
Definition ctor (idle_timeout_ms wheel_size tick_interval_ms : Z) : exn + t :=
  if wheel_size <? 0 then inl length_error
  else
    inr (mk (if idle_timeout_ms <=? 0 then 300000 else idle_timeout_ms)
            (if wheel_size <=? 0 then 60 else wheel_size)
            (if tick_interval_ms <=? 0 then 1000 else tick_interval_ms)
            (replicate (Z.to_nat wheel_size) [])
            0 ∅ ∅ false 0).

Definition set_timeout_callback (m : t) : t :=
  mk (idle_timeout_ms_ m) (wheel_size_ m) (tick_interval_ms_ m)
     (time_wheel_ m) (current_slot_ m) (connections_ m) (entries m) true
     (total_connections_ m).

Definition slot_entries (i : Z) (m : t) : list (option nat) :=
  default [] (time_wheel_ m !! Z.to_nat i).

Definition set_slot (i : Z) (es : list (option nat)) (m : t) : t :=
  mk (idle_timeout_ms_ m) (wheel_size_ m) (tick_interval_ms_ m)
     (<[Z.to_nat i := es]> (time_wheel_ m)) (current_slot_ m)
     (connections_ m) (entries m) (timeout_callback_ m) (total_connections_ m).

Definition set_entries (h : gmap nat ConnectionEntry) (m : t) : t :=
  mk (idle_timeout_ms_ m) (wheel_size_ m) (tick_interval_ms_ m)
     (time_wheel_ m) (current_slot_ m) (connections_ m) h (timeout_callback_ m)
     (total_connections_ m).

Definition set_current_slot (i : Z) (m : t) : t :=
  mk (idle_timeout_ms_ m) (wheel_size_ m) (tick_interval_ms_ m)
     (time_wheel_ m) i (connections_ m) (entries m) (timeout_callback_ m)
     (total_connections_ m).

Definition set_connections (cs : gmap Z nat) (total : Z) (m : t) : t :=
  mk (idle_timeout_ms_ m) (wheel_size_ m) (tick_interval_ms_ m)
     (time_wheel_ m) (current_slot_ m) cs (entries m) (timeout_callback_ m) total.

Definition calculate_slot (now last_activity_time : Z) (m : t) : Z :=
  let elapsed_ms := milliseconds (now - last_activity_time) in
  let ticks_remaining :=
    Z.max 0 (int (Z.quot (idle_timeout_ms_ m - elapsed_ms) (tick_interval_ms_ m))) in
  Z.rem (int (current_slot_ m + ticks_remaining)) (wheel_size_ m).

Definition decrement (en : ConnectionEntry) : ConnectionEntry :=
  mkEntry (conn en) (slot_position en) (int (remaining_ticks en - 1))
          (last_activity_time en).

(** The [while] loop over one slot: the store after the decrements, the
    entries left in the slot, and the expired entries in order. *)
Fixpoint scan_slot (now timeout_ms : Z) (es : list (option nat))
    (h : gmap nat ConnectionEntry)
  : gmap nat ConnectionEntry * list (option nat) * list nat :=
  match es with
  | [] => (h, [], [])
  | None :: rest => scan_slot now timeout_ms rest h
  | Some a :: rest =>
      match h !! a with
      | None =>
          let '(h', kept, expired) := scan_slot now timeout_ms rest h in
          (h', Some a :: kept, expired)
      | Some en =>
          if 0 <? remaining_ticks en then
            let '(h', kept, expired) :=
              scan_slot now timeout_ms rest (<[a := decrement en]> h) in
            (h', Some a :: kept, expired)
          else if timeout_ms <=? milliseconds (now - last_activity_time en) then
            let '(h', kept, expired) := scan_slot now timeout_ms rest h in
            (h', kept, a :: expired)
          else
            let '(h', kept, expired) := scan_slot now timeout_ms rest h in
            (h', Some a :: kept, expired)
      end
  end.

(** The second loop of [process_timeout_connections], over the expired. *)
Fixpoint deliver (expired : list nat) (m : t) : t * list Event :=
  match expired with
  | [] => (m, [])
  | a :: rest =>
      match entries m !! a with
      | Some (mkEntry (Some fd) _ _ _) =>
          let m1 := set_connections (delete fd (connections_ m))
                                    (size_t (total_connections_ m - 1)) m in
          let '(m2, out) := deliver rest m1 in
          (m2, if timeout_callback_ m then TimeoutCb fd :: out else out)
      | _ => deliver rest m
      end
  end.

Definition process_timeout_connections (now : Z) (m : t) : t * list Event :=
  let '(h, kept, expired) :=
    scan_slot now (idle_timeout_ms_ m) (slot_entries (current_slot_ m) m) (entries m) in
  deliver expired (set_entries h (set_slot (current_slot_ m) kept m)).

(** One turn of [time_wheel_loop]; [now] is the instant read while the slot
    is locked. *)
Definition tick (now : Z) (m : t) : t * list Event :=
  let '(m1, out) := process_timeout_connections now m in
  (set_current_slot (Z.rem (int (current_slot_ m1 + 1)) (wheel_size_ m1)) m1, out).

(** [add_connection]: [addr] is where [make_shared] puts the entry, [now]
    the instant read by [calculate_slot], [created] the one read by the
    entry's constructor. *)
Definition add_connection (addr : nat) (fd : Z) (t_call now created : Z) (m : t) : t :=
  if fd <=? 0 then m
  else
    let slot_pos := calculate_slot now t_call m in
    let ticks_needed := Z.quot (idle_timeout_ms_ m) (tick_interval_ms_ m) in
    match connections_ m !! fd with
    | Some _ => m
    | None =>
        let m1 := set_connections (<[fd := addr]> (connections_ m))
                                  (size_t (total_connections_ m + 1)) m in
        let m2 := set_entries
                    (<[addr := mkEntry (Some fd) slot_pos ticks_needed created]> (entries m1))
                    m1 in
        set_slot slot_pos (slot_entries slot_pos m2 ++ [Some addr]) m2
    end.

Definition remove_connection (fd : Z) (m : t) : t :=
  match connections_ m !! fd with
  | None => m
  | Some _ => set_connections (delete fd (connections_ m))
                              (size_t (total_connections_ m - 1)) m
  end.

(** [move_to_new_slot]: [now] is the instant read by [calculate_slot]. An
    entry that keeps its slot only gets its ticks back; otherwise it is
    erased from the slot it records and pushed to the new one. *)
Definition move_to_new_slot (now : Z) (a : nat) (m : t) : t :=
  match entries m !! a with
  | None => m
  | Some en =>
      let new_slot_pos := calculate_slot now (last_activity_time en) m in
      let ticks := Z.quot (idle_timeout_ms_ m) (tick_interval_ms_ m) in
      if new_slot_pos =? slot_position en then
        set_entries
          (<[a := mkEntry (conn en) (slot_position en) ticks (last_activity_time en)]>
             (entries m)) m
      else
        let m1 := set_slot (slot_position en)
                    (filter (fun e => e <> Some a) (slot_entries (slot_position en) m)) m in
        let m2 := set_entries
                    (<[a := mkEntry (conn en) new_slot_pos ticks (last_activity_time en)]>
                       (entries m1)) m1 in
        set_slot new_slot_pos (slot_entries new_slot_pos m2 ++ [Some a]) m2
  end.

(** [update_activity]: [t_act] is the instant stored as the last activity,
    [now] the later one read by [calculate_slot]. *)
Definition update_activity (fd : Z) (t_act now : Z) (m : t) : t :=
  match connections_ m !! fd with
  | None => m
  | Some a =>
      match entries m !! a with
      | None => m
      | Some en =>
          move_to_new_slot now a
            (set_entries
               (<[a := mkEntry (conn en) (slot_position en) (remaining_ticks en) t_act]>
                  (entries m)) m)
      end
  end.

End ConnectionTimeoutManager.

(** ** TcpServer.hpp, TcpServer.cpp: construction, start, dispatch, registry *)

Module TcpServer.

(** [connections_] is used for membership here; it records each connection
    as constructed. *)
Record t : Type := mk {
  base_loop_ : LoopRef;
  thread_pool_ : EventLoopThreadPool.t;
  port_ : Z;
  io_thread_count_ : Z;
  connections_ : gmap Z TcpConnection.t;
  started_ : bool }.

Definition ctor (hardware_concurrency : Z) (base_loop : option LoopRef) (port : Z)
    (io_thread_count : Z) : exn + t :=
  let io_thread_count_ := Z.max 0 io_thread_count in
  match base_loop with
  | None => inl invalid_argument
  | Some bl =>
      if port =? 0 then inl invalid_argument
      else inr (mk bl (EventLoopThreadPool.ctor hardware_concurrency io_thread_count_)
                   port io_thread_count_ ∅ false)
  end.

(** [start], as far as the loop pool is concerned. *)
Definition start (s : t) : t :=
  if started_ s then s
  else mk (base_loop_ s) (EventLoopThreadPool.start (thread_pool_ s)) (port_ s)
          (io_thread_count_ s) (connections_ s) true.

(** The result is never null: [base_loop_] is not, by the constructor. *)
Definition get_next_loop (s : t) : LoopRef * t :=
  if EventLoopThreadPool.thread_count (thread_pool_ s) =? 0 then (base_loop_ s, s)
  else
    let '(l, tp) := EventLoopThreadPool.get_next_loop (thread_pool_ s) in
    let s' := mk (base_loop_ s) tp (port_ s) (io_thread_count_ s) (connections_ s)
                 (started_ s) in
    match l with
    | None => (base_loop_ s, s')
    | Some io_loop => (io_loop, s')
    end.

Definition add_new_tcp_conn (c : TcpConnection.t) (s : t) : t :=
  let fd := TcpConnection.connfd_ c in
  if fd <=? 0 then s
  else
    match connections_ s !! fd with
    | Some _ => s
    | None => mk (base_loop_ s) (thread_pool_ s) (port_ s) (io_thread_count_ s)
                 (<[fd := c]> (connections_ s)) (started_ s)
    end.

(** [remove_tcp_conn]: [idle] is the idle manager when the idle timeout is
    enabled and the manager exists. The descriptor is first removed from
    the manager. Then, for a descriptor found in the table, the entry is
    erased and the log line is built while [conn_mutex_] is still held:
    its argument [connection_count()] locks [conn_mutex_] again, on the
    same thread, and a [std::mutex] is not recursive: the call has no
    defined result and does not return. *)
Definition remove_tcp_conn (c : TcpConnection.t)
    (idle : option ConnectionTimeoutManager.t) (s : t)
  : option (t * option ConnectionTimeoutManager.t) :=
  let fd := TcpConnection.connfd_ c in
  let idle' := option_map (ConnectionTimeoutManager.remove_connection fd) idle in
  match connections_ s !! fd with
  | Some _ => None
  | None => Some (s, idle')
  end.

Definition connection_count (s : t) : Z := Z.of_nat (size (connections_ s)).

End TcpServer.

(** ** Acceptor.cpp *)

Module Acceptor.

Record t : Type := mk { listen_fd_ : Z; idle_fd_ : Z; listening_ : bool }.

Definition set_idle_fd (fd : Z) (a : t) : t := mk (listen_fd_ a) fd (listening_ a).

Definition after (evs : list Event)
    (r : option (t * TcpServer.t * list Event * list sysret))
  : option (t * TcpServer.t * list Event * list sysret) :=
  match r with
  | Some (a, s, out, env) => Some (a, s, evs ++ out, env)
  | None => None
  end.

(** The accept loop against the tape of answers. An iteration takes the
    answer of [accept4]; the rescue takes two more, of [accept] and of
    [open]. The result is there once the loop has left through a [break]. *)
Fixpoint do_accept (env : list sysret) (a : t) (s : TcpServer.t) {struct env}
  : option (t * TcpServer.t * list Event * list sysret) :=
  match env with
  | [] => None
  | r :: env1 =>
      let connfd := ret r in
      if connfd <? 0 then
        let err := errno r in
        if err =? EINTR then after [SysAccept4 (listen_fd_ a)] (do_accept env1 a s)
        else if (err =? EAGAIN) || (err =? EWOULDBLOCK)
        then Some (a, s, [SysAccept4 (listen_fd_ a)], env1)
        else if (err =? EMFILE) || (err =? ENFILE) then
          match env1 with
          | tmp :: reopened :: env3 =>
              after ([SysAccept4 (listen_fd_ a); LogError;
                      SysClose (idle_fd_ a); SysAccept (listen_fd_ a)]
                     ++ (if 0 <=? ret tmp then [SysClose (ret tmp)] else [])
                     ++ [SysOpenDevNull])
                    (do_accept env3 (set_idle_fd (ret reopened) a) s)
          | _ => None
          end
        else Some (a, s, [SysAccept4 (listen_fd_ a); LogError], env1)
      else
        let '(io_loop, s1) := TcpServer.get_next_loop s in
        let c := TcpConnection.new connfd true true true in
        after [SysAccept4 (listen_fd_ a); ConnectEstablishedOn io_loop connfd]
              (do_accept env1 a (TcpServer.add_new_tcp_conn c s1))
  end.

End Acceptor.



(** ** Vocabulary of the properties *)

Fixpoint count_events (f : Event -> bool) (evs : list Event) : nat :=
  match evs with
  | [] => 0%nat
  | e :: rest => ((if f e then 1 else 0) + count_events f rest)%nat
  end.

Definition is_CloseCb (e : Event) : bool :=
  match e with CloseCb _ => true | _ => false end.

Definition is_SysClose (e : Event) : bool :=
  match e with SysClose _ => true | _ => false end.

(** How often the close callback has run, how often the descriptor has
    been closed. *)
Definition on_closed_count (w : TcpConnection.World) : nat :=
  count_events is_CloseCb (TcpConnection.log w).

Definition close_count (w : TcpConnection.World) : nat :=
  count_events is_SysClose (TcpConnection.log w).

Definition state_of (w : TcpConnection.World) : TcpConnection.State :=
  TcpConnection.state_ (TcpConnection.conn w).

(** The edges the data model lists for the state atom. *)
Definition listed_edge (s s' : TcpConnection.State) : bool :=
  match s, s' with
  | TcpConnection.kConnecting, TcpConnection.kConnected
  | TcpConnection.kConnected, TcpConnection.kDisconnecting
  | TcpConnection.kDisconnecting, TcpConnection.kDisconnected
  | TcpConnection.kConnecting, TcpConnection.kDisconnected => true
  | _, _ => false
  end.

(** The edges the operations take. *)
Definition taken_edge (s s' : TcpConnection.State) : bool :=
  match s, s' with
  | TcpConnection.kConnecting, TcpConnection.kConnected
  | TcpConnection.kConnected, TcpConnection.kDisconnecting
  | TcpConnection.kConnected, TcpConnection.kDisconnected => true
  | _, _ => false
  end.

(** Position of a state in the order Connecting, Connected, Disconnecting,
    Disconnected. *)
Definition rank (s : TcpConnection.State) : Z :=
  match s with
  | TcpConnection.kConnecting => 0
  | TcpConnection.kConnected => 1
  | TcpConnection.kDisconnecting => 2
  | TcpConnection.kDisconnected => 3
  end.

(** The states a run passes through, the starting one first. *)
Fixpoint states_along (trace : list (Env * TcpConnection.Op)) (w : TcpConnection.World)
  : list TcpConnection.State :=
  match trace with
  | [] => [state_of w]
  | (e, op) :: rest =>
      state_of w ::
      match TcpConnection.step e op w with
      | Some w' => states_along rest w'
      | None => []
      end
  end.

(** Every pair of consecutive states is equal or related by [edge]. *)
Fixpoint moves_by (edge : TcpConnection.State -> TcpConnection.State -> bool)
    (l : list TcpConnection.State) : Prop :=
  match l with
  | s :: ((s' :: _) as rest) =>
      (s = s' \/ edge s s' = true) /\ moves_by edge rest
  | _ => True
  end.

(** The life of a connection: [connect_established] runs once, queued by
    the acceptor; other operations may come before it (a [shutdown] or a
    [send] from another thread) and after it. *)
Definition lifetime (before : list (Env * TcpConnection.Op)) (e0 : Env)
    (after : list (Env * TcpConnection.Op)) : list (Env * TcpConnection.Op) :=
  before ++ (e0, TcpConnection.OpConnectEstablished) :: after.

Definition no_connect_established (trace : list (Env * TcpConnection.Op)) : Prop :=
  Forall (fun eo => TcpConnection.is_connect_established (snd eo) = false) trace.

(** A client of the pool: the pool and the chunks handed out and not yet
    returned. A client may write into a chunk it holds (length, head and
    bytes) and returns chunks it holds. *)
Module PoolClient.

Record t : Type := mk { pool : MemoryPool.t; held : list Chunk.t }.

Inductive Op : Type :=
| alloc_chunk (n : Z) (oom : bool)
| retrieve (i : nat)
| write (i : nat) (length head : Z) (data : bytes)
| set_max_capacity (max_bytes : Z).

Definition step (op : Op) (c : t) : t :=
  match op with
  | alloc_chunk n oom =>
      match MemoryPool.alloc_chunk oom n (pool c) with
      | (MemoryPool.Allocated ch, p) => mk p (ch :: held c)
      | (_, p) => mk p (held c)
      end
  | retrieve i =>
      match held c !! i with
      | Some ch => mk (MemoryPool.retrieve (Some ch) (pool c)) (delete i (held c))
      | None => c
      end
  | write i length head data =>
      match held c !! i with
      | Some ch => mk (pool c) (<[i := Chunk.mk (Chunk.capacity ch) length head data]> (held c))
      | None => c
      end
  | set_max_capacity max_bytes =>
      mk (MemoryPool.set_max_capacity max_bytes (pool c)) (held c)
  end.

Definition run (ops : list Op) (c : t) : t := foldl (fun c op => step op c) c ops.

(** The sum of the capacities of the chunks held. *)
Definition held_bytes (c : t) : Z :=
  foldr (fun ch acc => Chunk.capacity ch + acc) 0 (held c).

(** The bytes held stay below 2^64 along the run: they fit the address
    space, so the [size_t] counter of the pool does not wrap. *)
Fixpoint fits_address_space (ops : list Op) (c : t) : Prop :=
  held_bytes c < 2 ^ 64 /\
  match ops with
  | [] => True
  | op :: rest => fits_address_space rest (step op c)
  end.

Definition start : t := mk MemoryPool.get_instance [].

End PoolClient.

(** Events that are neither a close callback nor a [close] of a descriptor. *)
Definition quiet (evs : list Event) : Prop :=
  count_events is_CloseCb evs = 0%nat /\ count_events is_SysClose evs = 0%nat.

(** [w'] has the state and the close counts of [w]. *)
Definition kept (w w' : TcpConnection.World) : Prop :=
  state_of w' = state_of w /\
  on_closed_count w' = on_closed_count w /\
  close_count w' = close_count w.

(** What one operation other than [connect_established] can do to the
    state and the close counts: nothing; Connected to Disconnecting without
    a close; Connected to Disconnected with one [close] of the descriptor
    and at most one close callback. *)
Definition move (w w' : TcpConnection.World) : Prop :=
  kept w w' \/
  (state_of w = TcpConnection.kConnected /\
   state_of w' = TcpConnection.kDisconnecting /\
   on_closed_count w' = on_closed_count w /\
   close_count w' = close_count w) \/
  (state_of w = TcpConnection.kConnected /\
   state_of w' = TcpConnection.kDisconnected /\
   (on_closed_count w <= on_closed_count w' <= S (on_closed_count w))%nat /\
   close_count w' = S (close_count w)).

(** The descriptor has been closed once if the state is Disconnected and
    not at all otherwise, and the close callback has run no more often. *)
Definition close_invariant (w : TcpConnection.World) : Prop :=
  close_count w
  = (if TcpConnection.State_eqb (state_of w) TcpConnection.kDisconnected
     then 1 else 0)%nat /\
  (on_closed_count w <= close_count w)%nat.

(** Every chunk of a free list has the capacity of its class. *)
Definition classed (p : MemoryPool.t) : Prop :=
  forall k l, MemoryPool.pool_ p !! k = Some l ->
              Forall (fun ch => Chunk.capacity ch = k) l.

(** The free lists are classed, the chunks held are of a pool class, and
    the usage counter is the sum of the capacities held. *)
Definition accounted (c : PoolClient.t) : Prop :=
  classed (PoolClient.pool c) /\
  Forall (fun ch => MemoryPool.is_supported_size (Chunk.capacity ch) = true)
         (PoolClient.held c) /\
  MemoryPool.current_usage_bytes_ (PoolClient.pool c) = PoolClient.held_bytes c.


(** ** Sample inputs *)


Definition sample_pool_run : list PoolClient.Op :=
  [PoolClient.alloc_chunk 100 false; PoolClient.alloc_chunk 5000 false;
   PoolClient.write 0 10 2 zeroed; PoolClient.retrieve 1;
   PoolClient.set_max_capacity 0; PoolClient.alloc_chunk 70000 false;
   PoolClient.retrieve 0].

(** What the scan of a slot does to the entry at [a], which was [en]: the
    store [h'], the entries left in the slot and the expired ones. *)
Definition slot_entry_outcome (now timeout_ms : Z)
    (a : nat) (en : ConnectionTimeoutManager.ConnectionEntry)
    (h' : gmap nat ConnectionTimeoutManager.ConnectionEntry)
    (kept_entries : list (option nat)) (expired : list nat) : Prop :=
  let idle_ms :=
    ConnectionTimeoutManager.milliseconds
      (now - ConnectionTimeoutManager.last_activity_time en) in
  (0 < ConnectionTimeoutManager.remaining_ticks en ->
     (Some a ∈ kept_entries) /\ (a ∉ expired) /\
     h' !! a = Some (ConnectionTimeoutManager.decrement en)) /\
  (ConnectionTimeoutManager.remaining_ticks en <= 0 -> timeout_ms <= idle_ms ->
     (a ∈ expired) /\ (Some a ∉ kept_entries) /\ h' !! a = Some en) /\
  (ConnectionTimeoutManager.remaining_ticks en <= 0 -> idle_ms < timeout_ms ->
     (Some a ∈ kept_entries) /\ (a ∉ expired) /\ h' !! a = Some en).

(** A wheel of 60 slots with a 2 s timeout whose slot 0 holds three
    entries: one with five ticks left, one idle since instant 0, one active
    one second before the instant 3 s of the tick. *)
Definition sample_wheel : ConnectionTimeoutManager.t :=
  ConnectionTimeoutManager.mk 2000 60 1000
    (<[0%nat := [Some 0%nat; Some 1%nat; Some 2%nat]]> (replicate 60 []))
    0
    (<[10 := 0%nat]> (<[11 := 1%nat]> (<[12 := 2%nat]> ∅)))
    (<[0%nat := ConnectionTimeoutManager.mkEntry (Some 10) 0 5 0]>
       (<[1%nat := ConnectionTimeoutManager.mkEntry (Some 11) 0 0 0]>
          (<[2%nat := ConnectionTimeoutManager.mkEntry (Some 12) 0 0 2000000000]> ∅)))
    true 3.

(** An established connection on descriptor 7 with the three server
    wrappers installed, on a fresh loop and the freshly built pool. *)
Definition idle_env : Env := mkEnv [] false true 1.

Definition established_connection : TcpConnection.World :=
  TcpConnection.connect_established idle_env
    (TcpConnection.accepted 7 true true true (EventLoop.mk ∅ ∅) MemoryPool.get_instance).

(** The socket would block: [write] answers -1 with EAGAIN. *)
Definition would_block : Env := mkEnv [Sysret (-1) EAGAIN zeroed] false true 1.

(** Two MiB of the letter A. *)
Definition two_MiB : Z := 2 * 1024 * 1024.

Definition letters_A : bytes := fun _ => 65.

(** The edges the operations are shown to stay within: the listed ones and
    Connected -> Disconnected. *)
Definition permitted_edge (s s' : TcpConnection.State) : bool :=
  listed_edge s s' ||
  match s, s' with
  | TcpConnection.kConnected, TcpConnection.kDisconnected => true
  | _, _ => false
  end.

Definition three_bytes : BufferBase.t := BufferBase.mk (Some (Chunk.mk 4096 3 0 zeroed)).

Definition fresh_loop : EventLoop.t := EventLoop.mk ∅ ∅.

Definition reading_channel : Channel.t :=
  Channel.mk 1 7 (Z.lor EPOLLIN EPOLLRDHUP) true true.

Definition sample_acceptor : Acceptor.t := Acceptor.mk 3 4 true.

Definition sample_server : TcpServer.t :=
  TcpServer.mk BaseLoop (EventLoopThreadPool.ctor 4 2) 8080 2 ∅ true.

Definition failed (e : Z) : sysret := Sysret (-1) e zeroed.

Definition answered (fd : Z) : sysret := Sysret fd 0 zeroed.

Definition accepted_connection : TcpConnection.World :=
  TcpConnection.accepted 7 true true true fresh_loop MemoryPool.get_instance.

(** Before the connection is established: a shutdown and a send from
    other threads. *)
Definition early_calls : list (Env * TcpConnection.Op) :=
  [(idle_env, TcpConnection.OpShutdown);
   (would_block, TcpConnection.OpSend (Some letters_A) 5)].

(** Two shutdowns, then the peer hangs up, then an error event. *)
Definition shutdown_twice : list (Env * TcpConnection.Op) :=
  [(idle_env, TcpConnection.OpShutdown); (idle_env, TcpConnection.OpShutdown);
   (idle_env, TcpConnection.OpHandleEvent EPOLLRDHUP);
   (idle_env, TcpConnection.OpHandleError)].

(** The peer hangs up, then a shutdown and a hang-up event follow. *)
Definition hangup_first : list (Env * TcpConnection.Op) :=
  [(idle_env, TcpConnection.OpHandleEvent EPOLLRDHUP);
   (idle_env, TcpConnection.OpShutdown);
   (idle_env, TcpConnection.OpHandleEvent EPOLLHUP)].

Definition peer_hangs_up : list (Env * TcpConnection.Op) :=
  [(idle_env, TcpConnection.OpHandleEvent EPOLLRDHUP)].

(** ** Vocabulary of the further properties *)

(** The [i]-th stored byte of a chunk: [data[head + i]]. *)
Definition stored_byte (c : Chunk.t) (i : Z) : Z := Chunk.data c (Chunk.head c + i).

(** The stored bytes lie inside the storage, whose size is a [size_t]. *)
Definition chunk_in_bounds (c : Chunk.t) : Prop :=
  0 <= Chunk.head c /\ 0 <= Chunk.length c /\
  Chunk.head c + Chunk.length c <= Chunk.capacity c /\ Chunk.capacity c < 2 ^ 64.

(** Number of bytes a buffer stores, and its [i]-th stored byte. *)
Definition stored_length (b : BufferBase.t) : Z :=
  match BufferBase.data_buf b with
  | Some c => Chunk.length c
  | None => 0
  end.

Definition stored (b : BufferBase.t) (i : Z) : Z :=
  match BufferBase.data_buf b with
  | Some c => stored_byte c i
  | None => 0
  end.

Definition buffer_in_bounds (b : BufferBase.t) : Prop :=
  match BufferBase.data_buf b with
  | Some c => chunk_in_bounds c
  | None => True
  end.

(** Every chunk of a free list has the capacity of its class and is
    cleared, as [Chunk::Chunk] and [retrieve] leave it. *)
Definition pristine (p : MemoryPool.t) : Prop :=
  forall k l, MemoryPool.pool_ p !! k = Some l ->
              Forall (fun ch => Chunk.capacity ch = k /\ Chunk.length ch = 0 /\
                                Chunk.head ch = 0) l.

(** The registry and the interest list of the kernel know the same
    descriptors. *)
Definition in_sync (l : EventLoop.t) : Prop :=
  forall fd, is_Some (EventLoop.channels_ l !! fd) <-> is_Some (EventLoop.epoller_ l !! fd).

Definition is_io (e : Event) : bool :=
  match e with SysRead _ _ | SysWrite _ _ => true | _ => false end.

Definition is_SysShutdownWr (e : Event) : bool :=
  match e with SysShutdownWr _ => true | _ => false end.

(** A pool of [n] started worker loops whose counter stands at [i]. *)
Definition started_pool (n : nat) (i : Z) : EventLoopThreadPool.t :=
  EventLoopThreadPool.mk (map WorkerLoop (seq 0 n)) i true (Z.of_nat n).


(** Five letters A written to the empty output buffer of a connection,
    with the freshly built pool. *)
Definition first_write : Z * BufferBase.t * MemoryPool.t :=
  OutputBuffer.write_to_buf false (Some letters_A) 5 BufferBase.empty
    MemoryPool.get_instance.

(** The effects of tearing a connection down: taking the descriptor off
    the interest list, the close callback, the [close]. *)
Definition is_teardown (e : Event) : bool :=
  match e with
  | EpollCtlDel _ | LogError | CloseCb _ | SysClose _ => true
  | _ => false
  end.

(** Data arrives together with the hang-up of the peer. *)
Definition data_and_hangup : Z := Z.lor EPOLLIN EPOLLRDHUP.

(** A shutdown, then whatever the loop delivers: a hang-up, an error, a
    read at end of file. *)
Definition shutdown_then_hangup : list (Env * TcpConnection.Op) :=
  [(idle_env, TcpConnection.OpHandleEvent EPOLLRDHUP);
   (idle_env, TcpConnection.OpHandleError);
   (mkEnv [Sysret 0 0 zeroed] false true 1, TcpConnection.OpHandleRead)].

(** An established connection whose output buffer holds five bytes. *)
Definition pending_output : TcpConnection.World :=
  TcpConnection.set_conn
    (TcpConnection.set_output_buf
       (BufferBase.mk (Some (Chunk.mk 4096 5 0 letters_A)))
       (TcpConnection.conn established_connection))
    established_connection.

(** The kernel takes five bytes. *)
Definition takes_five : Env := mkEnv [Sysret 5 0 zeroed] false true 1.

(** [k] calls of [get_next_loop] in a row: the loops returned, in order,
    and the pool afterwards. *)
Fixpoint next_loops (k : nat) (tp : EventLoopThreadPool.t)
  : list (option LoopRef) * EventLoopThreadPool.t :=
  match k with
  | O => ([], tp)
  | S k' =>
      let '(l, tp1) := EventLoopThreadPool.get_next_loop tp in
      let '(ls, tp2) := next_loops k' tp1 in
      (l :: ls, tp2)
  end.

(** The descriptors of the connections established, in order. *)
Definition established_fds (evs : list Event) : list Z :=
  omap (fun e => match e with ConnectEstablishedOn _ fd => Some fd | _ => None end) evs.

Definition is_SysAccept4 (e : Event) : bool :=
  match e with SysAccept4 _ => true | _ => false end.

(** One tick per instant of the list, in order. *)
Fixpoint run_ticks (nows : list Z) (m : ConnectionTimeoutManager.t)
  : ConnectionTimeoutManager.t * list Event :=
  match nows with
  | [] => (m, [])
  | now :: rest =>
      let '(m1, out1) := ConnectionTimeoutManager.tick now m in
      let '(m2, out2) := run_ticks rest m1 in
      (m2, out1 ++ out2)
  end.

(** The wheel has [wheel_size_] slots, the current slot is one of them, and
    no slot lists an entry twice. *)
Definition wheel_ok (m : ConnectionTimeoutManager.t) : Prop :=
  0 < ConnectionTimeoutManager.wheel_size_ m < 2 ^ 31 /\
  0 <= ConnectionTimeoutManager.current_slot_ m < ConnectionTimeoutManager.wheel_size_ m /\
  length (ConnectionTimeoutManager.time_wheel_ m)
  = Z.to_nat (ConnectionTimeoutManager.wheel_size_ m) /\
  forall q, NoDup (omap id (ConnectionTimeoutManager.slot_entries q m)).

(** A wheel of 4 slots with a 3 s timeout and a tick of 1 s, as
    constructed; [None] had the constructor thrown. *)
Definition small_wheel : ConnectionTimeoutManager.t :=
  match ConnectionTimeoutManager.ctor 3000 4 1000 with
  | inr m => m
  | inl _ => ConnectionTimeoutManager.mk 3000 4 1000 [] 0 ∅ ∅ false 0
  end.

(** Eleven ticks, the last of them an hour after the first. *)
Definition eleven_ticks : list Z :=
  map (fun i => i * 1000000000) [1; 2; 3; 4; 5; 6; 7; 8; 9; 10; 3600].

(** The statistics agree with the usage counter, which is a [size_t], and
    the peak is not below it. *)
Definition stats_ok (p : MemoryPool.t) : Prop :=
  0 <= MemoryPool.current_usage_bytes_ p < 2 ^ 64 /\
  MemoryPool.current_usage_bytes (MemoryPool.stats_ p) = MemoryPool.current_usage_bytes_ p /\
  MemoryPool.current_usage_bytes_ p <= MemoryPool.peak_usage_bytes (MemoryPool.stats_ p).

(** The entry at [a] is [en], and it sits in the slot it records and in no
    other. *)
Definition placed (a : nat) (en : ConnectionTimeoutManager.ConnectionEntry)
    (m : ConnectionTimeoutManager.t) : Prop :=
  ConnectionTimeoutManager.entries m !! a = Some en /\
  0 <= ConnectionTimeoutManager.slot_position en
    < ConnectionTimeoutManager.wheel_size_ m /\
  (Some a ∈ ConnectionTimeoutManager.slot_entries
              (ConnectionTimeoutManager.slot_position en) m) /\
  forall q, 0 <= q -> q <> ConnectionTimeoutManager.slot_position en ->
            Some a ∉ ConnectionTimeoutManager.slot_entries q m.

(** Connection 7 in the small wheel, and active again half a second
    later. *)
Definition watched : ConnectionTimeoutManager.t :=
  ConnectionTimeoutManager.add_connection 0 7 0 0 0 small_wheel.

Definition active_again : ConnectionTimeoutManager.t :=
  ConnectionTimeoutManager.update_activity 7 500000000 500000000 watched.

(** The small wheel with its callback set, connection 7 added, after the
    fifteen ticks that use up its ticks; then the connection is removed. *)
Definition worn_out : ConnectionTimeoutManager.t :=
  (run_ticks (map (fun i => i * 1000000000) [1; 2; 3; 4; 5; 6; 7; 8; 9; 10; 11; 12; 13; 14; 15])
     (ConnectionTimeoutManager.set_timeout_callback watched)).1.

(** The chunk of the buffer is no larger than the largest class of the
    pool. *)
Definition pool_sized (b : BufferBase.t) : Prop :=
  match BufferBase.data_buf b with
  | Some c => Chunk.capacity c <= 4096 * 1024
  | None => True
  end.

(** The kernel delivers ten letters A. *)
Definition ten_letters : sysret := Sysret 10 0 letters_A.
(** * Properties *)

(** ** Machine integers *)

Lemma size_t_small (z : Z) : 0 <= z < 2 ^ 64 -> size_t z = z.
Proof. intros H. unfold size_t. apply Z.mod_small. exact H. Qed.

Lemma int_small (z : Z) : - 2 ^ 31 <= z < 2 ^ 31 -> int z = z.
Proof. intros H. unfold int. rewrite Z.mod_small; lia. Qed.

Lemma unsigned_small (z : Z) : 0 <= z < 2 ^ 32 -> unsigned z = z.
Proof. intros H. unfold unsigned. apply Z.mod_small. exact H. Qed.

(** A [uint32_t] read as an [int] is zero exactly when it is zero. *)
Lemma int_of_uint32_eqb_0 (z : Z) : 0 <= z < 2 ^ 32 -> (int z =? 0) = (z =? 0).
Proof.
  intros H. unfold int.
  destruct (Z_lt_le_dec z (2 ^ 31)) as [Hlo | Hhi].
  - rewrite Z.mod_small by lia. f_equal. lia.
  - replace ((z + 2 ^ 31) mod 2 ^ 32) with (z - 2 ^ 31).
    + destruct (z =? 0) eqn:Hz; [apply Z.eqb_eq in Hz; lia|].
      apply Z.eqb_neq. lia.
    + apply Z.mod_unique with (q := 1); lia.
Qed.

(** ** Buffers: [pop] *)

(** C9. [pop(n)] on a buffer that holds a chunk with fewer than [n] bytes
    throws and leaves buffer and pool as they were; [pop(n)] with [n <= 0],
    or on a buffer without a chunk, returns normally and changes nothing.
    [InputBuffer] and [OutputBuffer] inherit this [pop]. *)
Theorem BufferBase_pop_error_is_atomic :
  forall (len : Z) (b : BufferBase.t) (p : MemoryPool.t),
    - 2 ^ 31 <= len < 2 ^ 31 ->
    (forall c, BufferBase.data_buf b = Some c ->
               0 <= Chunk.length c -> Chunk.length c < len ->
               BufferBase.pop len b p = (Some runtime_error, b, p)) /\
    (len <= 0 \/ BufferBase.data_buf b = None ->
     BufferBase.pop len b p = (None, b, p)).
Proof.
  intros len b p Hlen. split.
  - intros c Hc Hnonneg Hlt. unfold BufferBase.pop. rewrite Hc.
    destruct (len <=? 0) eqn:Hle; [apply Z.leb_le in Hle; lia|].
    rewrite size_t_small by lia.
    destruct (Chunk.length c <? len) eqn:Hcmp; [reflexivity|].
    apply Z.ltb_ge in Hcmp. lia.
  - intros [Hle | Hnone]; unfold BufferBase.pop.
    + destruct (BufferBase.data_buf b); [|reflexivity].
      destruct (len <=? 0) eqn:Hcmp; [reflexivity|].
      apply Z.leb_gt in Hcmp. lia.
    + rewrite Hnone. reflexivity.
Qed.

Lemma BufferBase_pop_error_is_atomic_witness :
  BufferBase.pop 5 three_bytes MemoryPool.get_instance
    = (Some runtime_error, three_bytes, MemoryPool.get_instance) /\
  BufferBase.pop 0 three_bytes MemoryPool.get_instance
    = (None, three_bytes, MemoryPool.get_instance) /\
  BufferBase.pop 5 BufferBase.empty MemoryPool.get_instance
    = (None, BufferBase.empty, MemoryPool.get_instance).
Proof.
  pose proof (BufferBase_pop_error_is_atomic 5 three_bytes MemoryPool.get_instance
                ltac:(lia)) as [Hthrow _].
  pose proof (BufferBase_pop_error_is_atomic 0 three_bytes MemoryPool.get_instance
                ltac:(lia)) as [_ Hnoop].
  pose proof (BufferBase_pop_error_is_atomic 5 BufferBase.empty
                MemoryPool.get_instance ltac:(lia)) as [_ Hempty].
  split; [|split].
  - apply (Hthrow (Chunk.mk 4096 3 0 zeroed)); simpl; [reflexivity|lia|lia].
  - apply Hnoop. left. lia.
  - apply Hempty. right. reflexivity.
Defined.

(** ** Event loop: the registry after [update_channel] *)

(** C10. Synchronising an empty mask issues the notifier delete and erases
    the descriptor from the registry (and from the interest list when the
    delete succeeds); synchronising a non-empty mask adds the channel to the
    interest list and the registry when the registry lacks it, and modifies
    the interest list entry, leaving the registry alone, when the registry
    has it (the notifier call succeeding in both cases). So after
    [update_channel], and after [disable_all], a channel with an empty mask
    is not in the registry. *)
Theorem update_channel_syncs_registry :
  forall (ok : bool) (ch : Channel.t) (l : EventLoop.t),
    0 <= Channel.events ch < 2 ^ 32 ->
    let fd := Channel.fd ch in
    let l' := fst (EventLoop.update_channel ok ch l) in
    let out := snd (EventLoop.update_channel ok ch l) in
    (Channel.events ch = 0 ->
       EventLoop.channels_ l' !! fd = None /\
       head out = Some (EpollCtlDel fd) /\
       (ok = true -> EventLoop.epoller_ l' !! fd = None)) /\
    (Channel.events ch <> 0 -> EventLoop.channels_ l !! fd = None -> ok = true ->
       out = [EpollCtlAdd fd (Channel.events ch)] /\
       EventLoop.epoller_ l' !! fd = Some (Channel.events ch) /\
       EventLoop.channels_ l' !! fd = Some (Channel.addr ch)) /\
    (Channel.events ch <> 0 -> is_Some (EventLoop.channels_ l !! fd) -> ok = true ->
       out = [EpollCtlMod fd (Channel.events ch)] /\
       EventLoop.epoller_ l' !! fd = Some (Channel.events ch) /\
       EventLoop.channels_ l' = EventLoop.channels_ l) /\
    EventLoop.channels_
      (snd (fst (ChannelOps.disable_all ok ch l))) !! fd = None.
Proof.
  intros ok ch l Hev fd l' out.
  pose proof (int_of_uint32_eqb_0 _ Hev) as Hint.
  subst l' out. unfold EventLoop.update_channel. rewrite Hint. fold fd.
  split; [|split; [|split]].
  - intros H0. rewrite H0. simpl. destruct ok; simpl;
      (split; [apply lookup_delete_eq|split; [reflexivity|]]).
    + intros _. apply lookup_delete_eq.
    + discriminate.
  - intros Hne Hnone Hok. apply Z.eqb_neq in Hne. rewrite Hne, Hnone, Hok. simpl.
    split; [reflexivity|]. split; apply lookup_insert_eq.
  - intros Hne [a Ha] Hok. apply Z.eqb_neq in Hne. rewrite Hne, Ha, Hok. simpl.
    split; [reflexivity|]. split; [apply lookup_insert_eq|reflexivity].
  - unfold ChannelOps.disable_all, ChannelOps.update, EventLoop.update_channel.
    simpl. destruct ok; simpl; apply lookup_delete_eq.
Qed.

Lemma update_channel_syncs_registry_witness :
  EventLoop.epoller_ (EventLoop.update_channel true reading_channel fresh_loop).1 !! 7
  = Some 8193 /\
  EventLoop.channels_ (EventLoop.update_channel true reading_channel fresh_loop).1 !! 7
  = Some 1%nat /\
  EventLoop.channels_
    (EventLoop.update_channel true (Channel.set_events 0 reading_channel)
       (EventLoop.update_channel true reading_channel fresh_loop).1).1 !! 7 = None.
Proof.
  apply and_assoc. split.
  - pose proof (update_channel_syncs_registry true reading_channel fresh_loop
                  ltac:(vm_compute; split; congruence)) as (_ & Hadd & _).
    destruct Hadd as (_ & Hk & Hr);
      [vm_compute; congruence|reflexivity|reflexivity|].
    split; [exact Hk|exact Hr].
  - pose proof (update_channel_syncs_registry true (Channel.set_events 0 reading_channel)
                  (EventLoop.update_channel true reading_channel fresh_loop).1
                  ltac:(vm_compute; split; congruence)) as (Hdel & _).
    destruct Hdel as (Hr & _); [reflexivity|]. exact Hr.
Defined.

(** ** Acceptor: classification of a failed accept *)

Lemma after_app evs1 evs2 x :
  Acceptor.after evs1 (Acceptor.after evs2 x) = Acceptor.after (evs1 ++ evs2) x.
Proof.
  destruct x as [[[[a s] out] env]|]; simpl; [|reflexivity].
  rewrite app_assoc. reflexivity.
Qed.

Lemma do_accept_rescue r tmp reopened rest a s :
  ret r < 0 -> errno r = EMFILE \/ errno r = ENFILE ->
  Acceptor.do_accept (r :: tmp :: reopened :: rest) a s
  = Acceptor.after
      ([SysAccept4 (Acceptor.listen_fd_ a); LogError;
        SysClose (Acceptor.idle_fd_ a); SysAccept (Acceptor.listen_fd_ a)]
       ++ (if 0 <=? ret tmp then [SysClose (ret tmp)] else [])
       ++ [SysOpenDevNull])
      (Acceptor.do_accept rest
         (Acceptor.mk (Acceptor.listen_fd_ a) (ret reopened) (Acceptor.listening_ a)) s).
Proof.
  intros Hneg He. apply Z.ltb_lt in Hneg. simpl. rewrite Hneg.
  destruct He as [He | He]; rewrite He; reflexivity.
Qed.

(** C7. When [accept4] fails, [do_accept] behaves by errno exactly so:
    EINTR calls [accept4] again; EAGAIN and EWOULDBLOCK leave the loop;
    EMFILE and ENFILE close the rescue descriptor, accept the pending
    connection, close it at once, reopen /dev/null into the rescue slot and
    go on accepting; every other errno is logged and leaves the loop.
    After a rescue the rescue slot holds the descriptor [open] returned,
    and nothing else of the acceptor has changed: when the loop then
    leaves, that is the acceptor left behind, and a second rescue closes
    the descriptor the first one opened. *)
Theorem do_accept_classifies_errno :
  forall (r : sysret) (env : list sysret) (a : Acceptor.t) (s : TcpServer.t),
    ret r < 0 ->
    let lfd := Acceptor.listen_fd_ a in
    (errno r = EINTR ->
       Acceptor.do_accept (r :: env) a s
       = Acceptor.after [SysAccept4 lfd] (Acceptor.do_accept env a s)) /\
    (errno r = EAGAIN \/ errno r = EWOULDBLOCK ->
       Acceptor.do_accept (r :: env) a s = Some (a, s, [SysAccept4 lfd], env)) /\
    (errno r = EMFILE \/ errno r = ENFILE ->
       forall tmp reopened rest, env = tmp :: reopened :: rest ->
       Acceptor.do_accept (r :: env) a s
       = Acceptor.after
           ([SysAccept4 lfd; LogError; SysClose (Acceptor.idle_fd_ a); SysAccept lfd]
            ++ (if 0 <=? ret tmp then [SysClose (ret tmp)] else [])
            ++ [SysOpenDevNull])
           (Acceptor.do_accept rest (Acceptor.set_idle_fd (ret reopened) a) s) /\
       Acceptor.set_idle_fd (ret reopened) a
       = Acceptor.mk lfd (ret reopened) (Acceptor.listening_ a)) /\
    (errno r = EMFILE \/ errno r = ENFILE ->
       forall tmp reopened r2 rest,
         env = tmp :: reopened :: r2 :: rest ->
         ret r2 < 0 -> errno r2 = EAGAIN \/ errno r2 = EWOULDBLOCK ->
         Acceptor.do_accept (r :: env) a s
         = Some (Acceptor.mk lfd (ret reopened) (Acceptor.listening_ a), s,
                 [SysAccept4 lfd; LogError; SysClose (Acceptor.idle_fd_ a); SysAccept lfd]
                 ++ (if 0 <=? ret tmp then [SysClose (ret tmp)] else [])
                 ++ [SysOpenDevNull; SysAccept4 lfd],
                 rest)) /\
    (errno r = EMFILE \/ errno r = ENFILE ->
       forall tmp reopened r2 tmp2 reopened2 rest,
         env = tmp :: reopened :: r2 :: tmp2 :: reopened2 :: rest ->
         ret r2 < 0 -> errno r2 = EMFILE \/ errno r2 = ENFILE ->
         Acceptor.do_accept (r :: env) a s
         = Acceptor.after
             ([SysAccept4 lfd; LogError; SysClose (Acceptor.idle_fd_ a); SysAccept lfd]
              ++ (if 0 <=? ret tmp then [SysClose (ret tmp)] else [])
              ++ [SysOpenDevNull;
                  SysAccept4 lfd; LogError; SysClose (ret reopened); SysAccept lfd]
              ++ (if 0 <=? ret tmp2 then [SysClose (ret tmp2)] else [])
              ++ [SysOpenDevNull])
             (Acceptor.do_accept rest
                (Acceptor.mk lfd (ret reopened2) (Acceptor.listening_ a)) s)) /\
    (errno r <> EINTR -> errno r <> EAGAIN -> errno r <> EWOULDBLOCK ->
     errno r <> EMFILE -> errno r <> ENFILE ->
       Acceptor.do_accept (r :: env) a s = Some (a, s, [SysAccept4 lfd; LogError], env)).
Proof.
  intros r env a s Hneg lfd. subst lfd.
  assert (Hlt : (ret r <? 0) = true) by (apply Z.ltb_lt; exact Hneg).
  assert (Hrescue : errno r = EMFILE \/ errno r = ENFILE ->
            forall tmp reopened rest,
              Acceptor.do_accept (r :: tmp :: reopened :: rest) a s
              = Acceptor.after
                  ([SysAccept4 (Acceptor.listen_fd_ a); LogError;
                    SysClose (Acceptor.idle_fd_ a); SysAccept (Acceptor.listen_fd_ a)]
                   ++ (if 0 <=? ret tmp then [SysClose (ret tmp)] else [])
                   ++ [SysOpenDevNull])
                  (Acceptor.do_accept rest
                     (Acceptor.mk (Acceptor.listen_fd_ a) (ret reopened)
                        (Acceptor.listening_ a)) s))
    by (intros He tmp reopened rest; apply do_accept_rescue; assumption).
  split; [|split; [|split; [|split; [|split]]]].
  - intros He. simpl. rewrite Hlt, He. reflexivity.
  - intros He. simpl. rewrite Hlt.
    destruct He as [He | He]; rewrite He; reflexivity.
  - intros He tmp reopened rest ->. split; [|reflexivity].
    apply (Hrescue He).
  - intros He tmp reopened r2 rest -> Hneg2 He2.
    rewrite (Hrescue He).
    assert (Hlt2 : (ret r2 <? 0) = true) by (apply Z.ltb_lt; exact Hneg2).
    simpl. rewrite Hlt2.
    destruct He2 as [He2 | He2]; rewrite He2; simpl;
      rewrite <- ?app_assoc; reflexivity.
  - intros He tmp reopened r2 tmp2 reopened2 rest -> Hneg2 He2.
    rewrite (Hrescue He).
    rewrite (do_accept_rescue r2 tmp2 reopened2 rest _ s Hneg2 He2).
    rewrite after_app. cbn [Acceptor.listen_fd_ Acceptor.idle_fd_ Acceptor.listening_].
    f_equal. rewrite <- !app_assoc. reflexivity.
  - intros H1 H2 H3 H4 H5. simpl. rewrite Hlt.
    apply Z.eqb_neq in H1, H2, H3, H4, H5.
    rewrite H1, H2, H3, H4, H5. reflexivity.
Qed.

Lemma do_accept_classifies_errno_witness :
  Acceptor.do_accept
    [failed EINTR; failed EMFILE; answered 9; answered 11;
     failed ENFILE; answered 9; answered 12; failed EAGAIN]
    sample_acceptor sample_server
  = Some (Acceptor.mk 3 12 true, sample_server,
          [SysAccept4 3;
           SysAccept4 3; LogError; SysClose 4; SysAccept 3; SysClose 9; SysOpenDevNull;
           SysAccept4 3; LogError; SysClose 11; SysAccept 3; SysClose 9; SysOpenDevNull;
           SysAccept4 3], []) /\
  Acceptor.do_accept [failed 9] sample_acceptor sample_server
  = Some (sample_acceptor, sample_server, [SysAccept4 3; LogError], []).
Proof.
  split.
  - destruct (do_accept_classifies_errno (failed EINTR)
                [failed EMFILE; answered 9; answered 11;
                 failed ENFILE; answered 9; answered 12; failed EAGAIN]
                sample_acceptor sample_server ltac:(simpl; lia)) as (Hintr & _).
    rewrite Hintr by reflexivity.
    destruct (do_accept_classifies_errno (failed EMFILE)
                [answered 9; answered 11; failed ENFILE; answered 9; answered 12;
                 failed EAGAIN]
                sample_acceptor sample_server ltac:(simpl; lia))
      as (_ & _ & _ & _ & Htwice & _).
    rewrite (Htwice ltac:(left; reflexivity) _ _ _ _ _ _ eq_refl
               ltac:(simpl; lia) ltac:(right; reflexivity)).
    destruct (do_accept_classifies_errno (failed EAGAIN) []
                (Acceptor.mk 3 12 true) sample_server
                ltac:(simpl; lia)) as (_ & Hagain & _).
    simpl ret. simpl Acceptor.listen_fd_. simpl Acceptor.listening_.
    rewrite (Hagain ltac:(left; reflexivity)). reflexivity.
  - destruct (do_accept_classifies_errno (failed 9) [] sample_acceptor sample_server
                ltac:(simpl; lia)) as (_ & _ & _ & _ & _ & Hother).
    apply Hother; vm_compute; congruence.
Defined.

(** ** Server: dispatch with [io_thread_count = 0] *)

(** C2, evaluated. On a machine that reports [hw > 0] hardware threads, a
    server constructed with [io_thread_count = 0] starts [hw] worker loops,
    and [get_next_loop] returns the first of them, not the base loop: the
    pool's constructor replaces a count of 0 by the hardware concurrency. *)
Theorem io_thread_count_zero_starts_workers :
  forall (hw port : Z),
    0 < hw < 2 ^ 31 -> port <> 0 ->
    exists s,
      TcpServer.ctor hw (Some BaseLoop) port 0 = inr s /\
      EventLoopThreadPool.thread_count (TcpServer.thread_pool_ (TcpServer.start s)) = hw /\
      fst (TcpServer.get_next_loop (TcpServer.start s)) = WorkerLoop 0.
Proof.
  intros hw port Hhw Hport.
  unfold TcpServer.ctor. apply Z.eqb_neq in Hport. rewrite Hport.
  eexists. split; [reflexivity|].
  unfold TcpServer.start, EventLoopThreadPool.start, EventLoopThreadPool.ctor. simpl.
  rewrite unsigned_small by lia. rewrite int_small by lia.
  destruct (hw <? 0) eqn:H1; [apply Z.ltb_lt in H1; lia|].
  destruct (hw <=? 0) eqn:H2; [apply Z.leb_le in H2; lia|].
  destruct (Z.to_nat hw) as [|k] eqn:Hk; [lia|].
  unfold TcpServer.get_next_loop, EventLoopThreadPool.thread_count. simpl.
  rewrite length_map, length_seq.
  split; [lia|].
  destruct (Z.of_nat (S k) =? 0) eqn:H3; [apply Z.eqb_eq in H3; lia|].
  unfold EventLoopThreadPool.get_next_loop. simpl. reflexivity.
Qed.

Lemma io_thread_count_zero_starts_workers_witness :
  exists s,
    TcpServer.ctor 4 (Some BaseLoop) 8080 0 = inr s /\
    EventLoopThreadPool.thread_count (TcpServer.thread_pool_ (TcpServer.start s)) = 4 /\
    fst (TcpServer.get_next_loop (TcpServer.start s)) = WorkerLoop 0.
Proof.
  apply (io_thread_count_zero_starts_workers 4 8080); [lia|lia].
Defined.

(** ** Connection: what the operations do to state and close counts *)

Lemma count_events_app (f : Event -> bool) (a b : list Event) :
  count_events f (a ++ b) = (count_events f a + count_events f b)%nat.
Proof. induction a as [|e a IH]; simpl; [reflexivity|]. rewrite IH. lia. Qed.

Lemma quiet_nil : quiet [].
Proof. split; reflexivity. Qed.

Lemma quiet_app (a b : list Event) : quiet a -> quiet b -> quiet (a ++ b).
Proof.
  intros [Ha1 Ha2] [Hb1 Hb2]. split; rewrite count_events_app; lia.
Qed.

Lemma retry_on_EINTR_quiet (call : Event) :
  is_CloseCb call = false -> is_SysClose call = false ->
  forall env r evs env',
    retry_on_EINTR call env = Some (r, evs, env') -> quiet evs.
Proof.
  intros Hc Hs. induction env as [|a env IH]; intros r evs env' H; simpl in H.
  - discriminate.
  - destruct ((ret a =? -1) && (errno a =? EINTR)).
    + destruct (retry_on_EINTR call env) as [[[r1 evs1] env1]|] eqn:Hrec; [|discriminate].
      injection H as <- <- <-.
      destruct (IH _ _ _ eq_refl) as [H1 H2].
      split; simpl; rewrite ?Hc, ?Hs; assumption.
    + injection H as <- <- <-. split; simpl; rewrite ?Hc, ?Hs; reflexivity.
Qed.

Lemma read_from_fd_quiet oom env fd b p n b' p' out env' :
  InputBuffer.read_from_fd oom env fd b p = Some (n, b', p', out, env') -> quiet out.
Proof.
  unfold InputBuffer.read_from_fd. intros H.
  destruct (fd <? 0); [injection H as <- <- <- <- <-; apply quiet_nil|].
  destruct (InputBuffer.ensure_space_available oom _ b p) as [[ok b1] p1].
  destruct (negb ok); [injection H as <- <- <- <- <-; apply quiet_nil|].
  destruct (BufferBase.data_buf b1) as [c|];
    [|injection H as <- <- <- <- <-; apply quiet_nil].
  destruct (_ =? 0); [injection H as <- <- <- <- <-; apply quiet_nil|].
  destruct (retry_on_EINTR _ env) as [[[r evs] env1]|] eqn:Hr; [|discriminate].
  apply retry_on_EINTR_quiet in Hr; [|reflexivity|reflexivity].
  destruct (0 <? ret r); [injection H as <- <- <- <- <-; exact Hr|].
  destruct (ret r =? 0); [injection H as <- <- <- <- <-; exact Hr|].
  destruct (_ || _); injection H as <- <- <- <- <-; exact Hr.
Qed.

Lemma write_to_fd_quiet env fd b p n b' p' out env' :
  OutputBuffer.write_to_fd env fd b p = Returns (n, b', p', out, env') -> quiet out.
Proof.
  unfold OutputBuffer.write_to_fd. intros H.
  destruct (fd <? 0); [injection H as <- <- <- <- <-; apply quiet_nil|].
  destruct (BufferBase.data_buf b) as [c|];
    [|injection H as <- <- <- <- <-; apply quiet_nil].
  destruct (Chunk.length c =? 0); [injection H as <- <- <- <- <-; apply quiet_nil|].
  destruct (negb (Chunk.head c =? 0)); [discriminate|].
  destruct (retry_on_EINTR _ env) as [[[r evs] env1]|] eqn:Hr; [|discriminate].
  apply retry_on_EINTR_quiet in Hr; [|reflexivity|reflexivity].
  destruct (0 <? ret r).
  - destruct (BufferBase.pop _ _ p) as [[[e|] b1] p1];
      injection H as <- <- <- <- <-; exact Hr.
  - destruct (ret r =? 0); [injection H as <- <- <- <- <-; exact Hr|].
    destruct (ret r =? -1); [|injection H as <- <- <- <- <-; exact Hr].
    destruct (_ || _); injection H as <- <- <- <- <-; exact Hr.
Qed.

Lemma update_channel_quiet ok ch l : quiet (snd (EventLoop.update_channel ok ch l)).
Proof.
  unfold EventLoop.update_channel.
  destruct (_ =? 0); [destruct ok; split; reflexivity|].
  destruct (_ !! _); destruct ok; split; reflexivity.
Qed.

Lemma ChannelOps_update_quiet ok ch l : quiet (snd (ChannelOps.update ok ch l)).
Proof.
  unfold ChannelOps.update.
  pose proof (update_channel_quiet ok ch l) as H.
  destruct (EventLoop.update_channel ok ch l) as [l' out]. exact H.
Qed.

Lemma kept_refl w : kept w w.
Proof. repeat split. Qed.

Lemma kept_trans w1 w2 w3 : kept w1 w2 -> kept w2 w3 -> kept w1 w3.
Proof.
  intros (A & B & C) (D & E & F). repeat split; congruence.
Qed.

(** The state is the same and the log grew by quiet events. *)
Lemma kept_by_quiet_events w w' out :
  state_of w' = state_of w -> TcpConnection.log w' = TcpConnection.log w ++ out ->
  quiet out -> kept w w'.
Proof.
  intros Hs Hl [Hq1 Hq2]. unfold kept, on_closed_count, close_count.
  rewrite Hl, !count_events_app. repeat split; [exact Hs|lia|lia].
Qed.

Lemma emit_quiet_kept evs w : quiet evs -> kept w (TcpConnection.emit evs w).
Proof. intros H. apply (kept_by_quiet_events w _ evs); [reflexivity|reflexivity|exact H]. Qed.

Lemma on_channel_kept f w :
  (forall ch l, quiet (snd (f ch l))) -> kept w (TcpConnection.on_channel f w).
Proof.
  intros Hf. unfold TcpConnection.on_channel.
  destruct (TcpConnection.channel_ (TcpConnection.conn w)) as [ch|].
  - specialize (Hf ch (TcpConnection.loop w)).
    destruct (f ch (TcpConnection.loop w)) as [[ch' l'] out].
    apply (kept_by_quiet_events w _ out); [reflexivity|reflexivity|exact Hf].
  - apply emit_quiet_kept. split; reflexivity.
Qed.

Lemma move_refl w : move w w.
Proof. left. apply kept_refl. Qed.

Lemma kept_then_move w1 w2 w3 : kept w1 w2 -> move w2 w3 -> move w1 w3.
Proof.
  intros (A & B & C) [(D & E & F) | [(D & E & F & G) | (D & E & F & G)]].
  - left. repeat split; congruence.
  - right. left. repeat split; congruence.
  - right. right. rewrite <- A, <- B, <- C. repeat split; try congruence; lia.
Qed.

Lemma move_then_kept w1 w2 w3 : move w1 w2 -> kept w2 w3 -> move w1 w3.
Proof.
  intros [(D & E & F) | [(D & E & F & G) | (D & E & F & G)]] (A & B & C).
  - left. repeat split; congruence.
  - right. left. repeat split; congruence.
  - right. right. rewrite A, B, C. repeat split; try congruence; lia.
Qed.

(** A move leaves a state other than Connected alone, so two moves in a row
    amount to one. *)
Lemma move_from_unconnected w w' :
  state_of w <> TcpConnection.kConnected -> move w w' -> kept w w'.
Proof.
  intros Hs [H | [(D & _) | (D & _)]]; [exact H|contradiction|contradiction].
Qed.

Lemma move_then_move w1 w2 w3 : move w1 w2 -> move w2 w3 -> move w1 w3.
Proof.
  intros H12 H23. destruct H12 as [H | [H | H]].
  - apply (kept_then_move _ _ _ H H23).
  - apply (move_then_kept w1 w2 w3); [right; left; exact H|].
    apply move_from_unconnected; [|exact H23].
    destruct H as (_ & -> & _). discriminate.
  - apply (move_then_kept w1 w2 w3); [right; right; exact H|].
    apply move_from_unconnected; [|exact H23].
    destruct H as (_ & -> & _). discriminate.
Qed.

Lemma State_eqb_eq a b : TcpConnection.State_eqb a b = true <-> a = b.
Proof. destruct a, b; simpl; split; congruence. Qed.

Lemma handle_close_from_unconnected e w :
  state_of w <> TcpConnection.kConnected -> TcpConnection.handle_close e w = w.
Proof.
  intros H. unfold TcpConnection.handle_close.
  destruct (TcpConnection.State_eqb _ _) eqn:Hs; [|reflexivity].
  apply State_eqb_eq in Hs. contradiction.
Qed.

Lemma handle_close_from_connected e w :
  state_of w = TcpConnection.kConnected ->
  let w' := TcpConnection.handle_close e w in
  state_of w' = TcpConnection.kDisconnected /\
  TcpConnection.connfd_ (TcpConnection.conn w') = -1 /\
  TcpConnection.channel_ (TcpConnection.conn w') = None /\
  close_count w' = S (close_count w) /\
  on_closed_count w'
  = (on_closed_count w
     + if TcpConnection.close_cb_ (TcpConnection.conn w) then 1 else 0)%nat.
Proof.
  intros H. unfold state_of in H. unfold TcpConnection.handle_close.
  rewrite H. simpl.
  destruct w as [c l p lg]. simpl in *.
  destruct c as [fd ch ib ob ccb mcb clcb st]. simpl in *.
  destruct ch as [ch|]; simpl.
  - pose proof (ChannelOps_update_quiet (ctl_ok e) (Channel.set_events 0 ch) l) as [Hq1 Hq2].
    unfold ChannelOps.disable_all.
    destruct (ChannelOps.update _ _ l) as [[ch' l'] out]. simpl in *.
    destruct clcb; simpl; unfold state_of, close_count, on_closed_count; simpl;
      rewrite !count_events_app; simpl; repeat split; lia.
  - destruct clcb; simpl; unfold state_of, close_count, on_closed_count; simpl;
      rewrite !count_events_app; simpl; repeat split; lia.
Qed.

Lemma handle_close_move e w : move w (TcpConnection.handle_close e w).
Proof.
  destruct (TcpConnection.State_eqb (state_of w) TcpConnection.kConnected) eqn:Hs.
  - apply State_eqb_eq in Hs.
    destruct (handle_close_from_connected e w Hs) as (A & _ & _ & B & C).
    right. right. repeat split; try assumption.
    + rewrite C. lia.
    + rewrite C. destruct (TcpConnection.close_cb_ _); lia.
  - rewrite handle_close_from_unconnected; [apply move_refl|].
    intros H. rewrite H in Hs. discriminate.
Qed.

Lemma handle_read_move e w w' env' :
  TcpConnection.handle_read e w = Some (w', env') -> move w w'.
Proof.
  unfold TcpConnection.handle_read. intros H.
  destruct (InputBuffer.read_from_fd _ _ _ _ _) as [[[[[n b] p] out] env1]|] eqn:Hr;
    [|discriminate].
  apply read_from_fd_quiet in Hr.
  set (w1 := TcpConnection.mkWorld _ _ _ _) in H.
  assert (K : kept w w1)
    by (apply (kept_by_quiet_events w w1 out); [reflexivity|reflexivity|exact Hr]).
  destruct (0 <? n).
  - injection H as <- <-. left.
    destruct (TcpConnection.message_cb_ _); [|exact K].
    apply (kept_trans _ _ _ K). apply emit_quiet_kept. split; reflexivity.
  - destruct (n =? 0); injection H as <- <-;
      apply (kept_then_move _ _ _ K); apply handle_close_move.
Qed.

Lemma handle_write_move e w w' env' :
  TcpConnection.handle_write e w = Some (w', env') -> move w w'.
Proof.
  unfold TcpConnection.handle_write. intros H.
  destruct (OutputBuffer.write_to_fd _ _ _ _) as [[[[[n b] p] out] env1]| |] eqn:Hr;
    [|discriminate|discriminate].
  apply write_to_fd_quiet in Hr.
  set (w1 := TcpConnection.mkWorld _ _ _ _) in H.
  assert (K : kept w w1)
    by (apply (kept_by_quiet_events w w1 out); [reflexivity|reflexivity|exact Hr]).
  destruct (n <? 0).
  - injection H as <- <-. apply (kept_then_move _ _ _ K). apply handle_close_move.
  - destruct (BufferBase.length _ =? 0).
    + set (w2 := TcpConnection.on_channel _ w1) in H.
      assert (K2 : kept w1 w2).
      { apply on_channel_kept. intros ch l. apply ChannelOps_update_quiet. }
      left. destruct (TcpConnection.State_eqb _ _); injection H as <- <-.
      * apply (kept_trans _ _ _ K). apply (kept_trans _ _ _ K2).
        apply emit_quiet_kept. split; reflexivity.
      * apply (kept_trans _ _ _ K K2).
    + injection H as <- <-. left. exact K.
Qed.

Lemma handle_event_move e events w w' :
  TcpConnection.handle_event e events w = Some w' -> move w w'.
Proof.
  unfold TcpConnection.handle_event. intros H.
  destruct (negb (Z.land events (Z.lor EPOLLERR EPOLLHUP) =? 0)).
  { injection H as <-. apply handle_close_move. }
  destruct (negb (Z.land events EPOLLRDHUP =? 0)).
  { injection H as <-. apply handle_close_move. }
  assert (M1 : forall w1 env1,
             (if negb (Z.land events EPOLLIN =? 0)
              then TcpConnection.handle_read e w else Some (w, sys e)) = Some (w1, env1) ->
             move w w1).
  { intros w1 env1 H1. destruct (negb (Z.land events EPOLLIN =? 0)).
    - apply (handle_read_move _ _ _ _ H1).
    - injection H1 as <- <-. apply move_refl. }
  destruct (if negb (Z.land events EPOLLIN =? 0) then _ else _) as [[w1 env1]|];
    [|discriminate].
  specialize (M1 w1 env1 eq_refl).
  destruct (negb (Z.land events EPOLLOUT =? 0)).
  - destruct (TcpConnection.handle_write _ w1) as [[w2 env2]|] eqn:Hw; [|discriminate].
    injection H as <-. apply (move_then_move _ _ _ M1).
    apply (handle_write_move _ _ _ _ Hw).
  - injection H as <-. exact M1.
Qed.

Lemma buffer_unwritten_kept e data len n w :
  kept w (TcpConnection.buffer_unwritten e data len n w).
Proof.
  unfold TcpConnection.buffer_unwritten.
  destruct (size_t n <? len); [|apply kept_refl].
  destruct (OutputBuffer.write_to_buf _ _ _ _ _) as [[r b] p].
  eapply kept_trans; [|apply on_channel_kept; intros ch l; apply ChannelOps_update_quiet].
  repeat split.
Qed.

Lemma sendInLoop_move e data len w w' :
  TcpConnection.sendInLoop e data len w = Some w' -> move w w'.
Proof.
  unfold TcpConnection.sendInLoop. intros H.
  destruct (negb (TcpConnection.State_eqb _ _)); [injection H as <-; apply move_refl|].
  destruct (BufferBase.length _ =? 0).
  - destruct (sys e) as [|r rest]; [discriminate|].
    assert (K : kept w (TcpConnection.emit
                          [SysWrite (TcpConnection.connfd_ (TcpConnection.conn w)) len] w))
      by (apply emit_quiet_kept; split; reflexivity).
    destruct (ret r <? 0).
    + destruct (negb (errno r =? EAGAIN)); injection H as <-.
      * apply (kept_then_move _ _ _ K). apply handle_close_move.
      * left. apply (kept_trans _ _ _ K). apply buffer_unwritten_kept.
    + injection H as <-. left. apply (kept_trans _ _ _ K). apply buffer_unwritten_kept.
  - injection H as <-. left. apply buffer_unwritten_kept.
Qed.

Lemma shutdownInLoop_move w : move w (TcpConnection.shutdownInLoop w).
Proof.
  unfold TcpConnection.shutdownInLoop.
  destruct (TcpConnection.State_eqb (TcpConnection.state_ (TcpConnection.conn w))
                                    TcpConnection.kConnected) eqn:Hs; simpl.
  - apply State_eqb_eq in Hs. right. left.
    destruct (BufferBase.length _ =? 0); unfold state_of, on_closed_count, close_count;
      simpl; rewrite ?count_events_app; simpl; repeat split; try assumption; lia.
  - apply move_refl.
Qed.

Lemma shutdown_move w : move w (TcpConnection.shutdown w).
Proof.
  unfold TcpConnection.shutdown.
  destruct (TcpConnection.State_eqb _ _); [apply shutdownInLoop_move|apply move_refl].
Qed.

(** Every operation other than [connect_established] makes one move. *)
Lemma step_move e op w w' :
  TcpConnection.is_connect_established op = false ->
  TcpConnection.step e op w = Some w' -> move w w'.
Proof.
  intros Hop H. destruct op; simpl in H; try discriminate Hop.
  - apply (handle_event_move _ _ _ _ H).
  - destruct (TcpConnection.handle_read e w) as [[w1 env1]|] eqn:Hr; [|discriminate].
    injection H as <-. apply (handle_read_move _ _ _ _ Hr).
  - destruct (TcpConnection.handle_write e w) as [[w1 env1]|] eqn:Hr; [|discriminate].
    injection H as <-. apply (handle_write_move _ _ _ _ Hr).
  - injection H as <-. apply handle_close_move.
  - injection H as <-. apply handle_close_move.
  - unfold TcpConnection.send in H.
    destruct (negb (TcpConnection.State_eqb _ _)); [injection H as <-; apply move_refl|].
    destruct (TcpConnection.sendInLoop e data len w) as [w1|] eqn:Hs; [|discriminate].
    injection H as <-. apply (sendInLoop_move _ _ _ _ _ Hs).
  - apply (sendInLoop_move _ _ _ _ _ H).
  - injection H as <-. apply shutdown_move.
  - injection H as <-. apply shutdownInLoop_move.
Qed.

Lemma move_preserves_close_invariant w w' :
  close_invariant w -> move w w' -> close_invariant w'.
Proof.
  unfold close_invariant.
  intros [Hc Ho] [(A & B & C) | [(A & B & C & D) | (A & B & C & D)]].
  - rewrite A, B, C. split; assumption.
  - rewrite A in Hc. rewrite B, C, D. simpl in *. split; [exact Hc|exact Ho].
  - rewrite A in Hc. rewrite B, D. simpl in *. split; lia.
Qed.

Lemma connect_established_effect e w :
  let w' := TcpConnection.connect_established e w in
  state_of w' = TcpConnection.kConnected /\
  on_closed_count w' = on_closed_count w /\
  close_count w' = close_count w.
Proof.
  unfold TcpConnection.connect_established, ChannelOps.enable_read.
  pose proof (ChannelOps_update_quiet (ctl_ok e)
                (Channel.set_events
                   (Z.lor (Channel.events
                             (Channel.set_callback
                                (Channel.new (fresh e)
                                   (TcpConnection.connfd_ (TcpConnection.conn w)))))
                          (Z.lor EPOLLIN EPOLLRDHUP))
                   (Channel.set_callback
                      (Channel.new (fresh e)
                         (TcpConnection.connfd_ (TcpConnection.conn w)))))
                (TcpConnection.loop w)) as [Hq1 Hq2].
  destruct (ChannelOps.update _ _ _) as [[ch1 l1] out]. simpl in Hq1, Hq2. simpl.
  destruct (TcpConnection.connected_cb_ (TcpConnection.conn w));
    unfold state_of, on_closed_count, close_count; simpl;
    rewrite !count_events_app; simpl; repeat split; lia.
Qed.

Lemma run_preserves_close_invariant trace :
  no_connect_established trace ->
  forall w w', close_invariant w -> TcpConnection.run trace w = Some w' ->
               close_invariant w'.
Proof.
  induction trace as [|[e op] rest IH]; intros Hno w w' Hinv Hrun; simpl in Hrun.
  - injection Hrun as <-. exact Hinv.
  - destruct (TcpConnection.step e op w) as [w1|] eqn:Hstep; [|discriminate].
    apply Forall_cons in Hno as [Hop Hrest]. simpl in Hop.
    apply (IH Hrest w1 w'); [|exact Hrun].
    apply (move_preserves_close_invariant w); [exact Hinv|].
    apply (step_move e op); assumption.
Qed.

(** Before it is established a connection is not Connected, so nothing
    moves. *)
Lemma run_kept_from_connecting trace :
  no_connect_established trace ->
  forall w w', state_of w = TcpConnection.kConnecting ->
               TcpConnection.run trace w = Some w' -> kept w w'.
Proof.
  induction trace as [|[e op] rest IH]; intros Hno w w' Hs Hrun; simpl in Hrun.
  - injection Hrun as <-. apply kept_refl.
  - destruct (TcpConnection.step e op w) as [w1|] eqn:Hstep; [|discriminate].
    apply Forall_cons in Hno as [Hop Hrest]. simpl in Hop.
    assert (K : kept w w1).
    { apply move_from_unconnected; [rewrite Hs; discriminate|].
      apply (step_move e op); assumption. }
    apply (kept_trans _ _ _ K). apply (IH Hrest); [|exact Hrun].
    destruct K as (A & _). rewrite A. exact Hs.
Qed.

Lemma run_app trace1 trace2 w :
  TcpConnection.run (trace1 ++ trace2) w
  = match TcpConnection.run trace1 w with
    | Some w1 => TcpConnection.run trace2 w1
    | None => None
    end.
Proof.
  revert w. induction trace1 as [|[e op] rest IH]; intros w; simpl; [reflexivity|].
  destruct (TcpConnection.step e op w); [apply IH|reflexivity].
Qed.

(** ** Connection: close happens at most once *)

(** C3. [handle_close] moves Connected to Disconnected and does nothing
    from any other state; hence, over the whole life of a connection, with
    any interleaving of shutdowns, reads (end of file included), writes,
    sends, error and hang-up events, the close callback runs at most once
    and the descriptor is closed at most once. *)
Theorem close_is_at_most_once :
  forall (fd : Z) (connected_cb message_cb close_cb : bool) (l : EventLoop.t)
         (p : MemoryPool.t) (e0 : Env) (before after : list (Env * TcpConnection.Op))
         (w : TcpConnection.World),
    no_connect_established before ->
    no_connect_established after ->
    TcpConnection.run (lifetime before e0 after)
      (TcpConnection.accepted fd connected_cb message_cb close_cb l p) = Some w ->
    ((on_closed_count w <= 1)%nat /\ (close_count w <= 1)%nat) /\
    (forall e w0, state_of w0 <> TcpConnection.kConnected ->
                  TcpConnection.handle_close e w0 = w0) /\
    (forall e w0, state_of w0 = TcpConnection.kConnected ->
                  state_of (TcpConnection.handle_close e w0) = TcpConnection.kDisconnected).
Proof.
  intros fd ccb mcb clcb l p e0 before after w Hbefore Hafter Hrun.
  split; [|split].
  - unfold lifetime in Hrun. rewrite run_app in Hrun.
    set (w0 := TcpConnection.accepted fd ccb mcb clcb l p) in Hrun.
    destruct (TcpConnection.run before w0) as [w1|] eqn:Hpre; [|discriminate].
    destruct (run_kept_from_connecting before Hbefore w0 w1 eq_refl Hpre)
      as (_ & Ho1 & Hc1).
    simpl in Hrun.
    destruct (connect_established_effect e0 w1) as (Hs & Ho & Hc).
    assert (Hinv : close_invariant (TcpConnection.connect_established e0 w1)).
    { unfold close_invariant. rewrite Hs, Ho, Hc, Ho1, Hc1. split; reflexivity. }
    destruct (run_preserves_close_invariant after Hafter _ _ Hinv Hrun) as [H1 H2].
    destruct (TcpConnection.State_eqb (state_of w) TcpConnection.kDisconnected); lia.
  - intros e w0. apply handle_close_from_unconnected.
  - intros e w0 H. apply (handle_close_from_connected e w0 H).
Qed.

Lemma close_is_at_most_once_witness :
  (exists w, TcpConnection.run (lifetime early_calls idle_env shutdown_twice)
                               accepted_connection = Some w /\
             (on_closed_count w <= 1)%nat /\ (close_count w <= 1)%nat) /\
  (exists w, TcpConnection.run (lifetime [] idle_env hangup_first) accepted_connection
             = Some w /\
             (on_closed_count w <= 1)%nat /\ (close_count w <= 1)%nat).
Proof.
  split.
  - eexists. split; [vm_compute; reflexivity|].
    eapply (close_is_at_most_once 7 true true true fresh_loop
              MemoryPool.get_instance idle_env early_calls shutdown_twice).
    + repeat constructor.
    + repeat constructor.
    + vm_compute; reflexivity.
  - eexists. split; [vm_compute; reflexivity|].
    eapply (close_is_at_most_once 7 true true true fresh_loop
              MemoryPool.get_instance idle_env [] hangup_first).
    + constructor.
    + repeat constructor.
    + vm_compute; reflexivity.
Defined.

(** ** Connection: the edges the state atom takes *)

Lemma move_edge w w' :
  move w w' ->
  state_of w = state_of w' \/ taken_edge (state_of w) (state_of w') = true.
Proof.
  intros [(A & _) | [(A & B & _) | (A & B & _)]].
  - left. symmetry. exact A.
  - right. rewrite A, B. reflexivity.
  - right. rewrite A, B. reflexivity.
Qed.

Lemma states_along_head trace w :
  exists tl, states_along trace w = state_of w :: tl.
Proof. destruct trace as [|[e op] rest]; simpl; eexists; reflexivity. Qed.

Lemma states_along_moves trace :
  no_connect_established trace ->
  forall w, moves_by taken_edge (states_along trace w).
Proof.
  induction trace as [|[e op] rest IH]; intros Hno w; simpl.
  - exact I.
  - apply Forall_cons in Hno as [Hop Hrest]. simpl in Hop.
    destruct (TcpConnection.step e op w) as [w1|] eqn:Hstep; [|exact I].
    specialize (IH Hrest w1).
    destruct (states_along_head rest w1) as [tl Htl]. rewrite Htl in *.
    split; [|exact IH].
    apply move_edge. apply (step_move e op); assumption.
Qed.

Lemma moves_by_weaken (edge edge' : TcpConnection.State -> TcpConnection.State -> bool) :
  (forall s s', edge s s' = true -> edge' s s' = true) ->
  forall l, moves_by edge l -> moves_by edge' l.
Proof.
  intros Hsub. induction l as [|s [|s' rest] IH]; simpl; try exact (fun H => H).
  intros [[Heq | Hedge] Hrest]; (split; [|apply IH; exact Hrest]).
  - left. exact Heq.
  - right. apply Hsub. exact Hedge.
Qed.

(** C4, as stated, fails: a peer that hangs up takes an established
    connection from Connected straight to Disconnected, which is none of
    the listed edges. *)
Lemma listed_edges_counterexample :
  ~ moves_by listed_edge
      (states_along (lifetime [] idle_env peer_hangs_up) accepted_connection).
Proof.
  intros H. vm_compute in H.
  destruct H as (_ & [Heq | Hedge] & _); discriminate.
Qed.

Lemma states_along_lifetime_moves before :
  no_connect_established before ->
  forall e0 after w,
    no_connect_established after ->
    state_of w = TcpConnection.kConnecting ->
    moves_by taken_edge (states_along (lifetime before e0 after) w).
Proof.
  unfold lifetime.
  induction before as [|[e op] rest IH]; intros Hno e0 after w Hafter Hs; simpl.
  - destruct (connect_established_effect e0 w) as (Hs' & _).
    pose proof (states_along_moves after Hafter (TcpConnection.connect_established e0 w))
      as Hrest.
    destruct (states_along_head after (TcpConnection.connect_established e0 w))
      as [tl Htl].
    rewrite Htl in *. split; [|exact Hrest].
    right. rewrite Hs, Hs'. reflexivity.
  - apply Forall_cons in Hno as [Hop Hrest]. simpl in Hop.
    destruct (TcpConnection.step e op w) as [w1|] eqn:Hstep; [|exact I].
    assert (K : kept w w1).
    { apply move_from_unconnected; [rewrite Hs; discriminate|].
      apply (step_move e op); assumption. }
    destruct K as (A & _).
    assert (Hs1 : state_of w1 = TcpConnection.kConnecting) by (rewrite A; exact Hs).
    specialize (IH Hrest e0 after w1 Hafter Hs1).
    destruct (states_along_head
                (rest ++ (e0, TcpConnection.OpConnectEstablished) :: after) w1)
      as [tl Htl].
    rewrite Htl in *. split; [|exact IH]. left. symmetry. exact A.
Qed.

(** C4, amended. Over the life of a connection, under every sequence of
    operations around its single [connect_established], each change of the
    state atom is one of the listed edges or Connected -> Disconnected (the
    edge [handle_close] takes), and each of these edges goes forward in the
    order Connecting, Connected, Disconnecting, Disconnected: no backward
    edge is taken. *)
Theorem state_moves_forward_along_permitted_edges :
  forall (fd : Z) (connected_cb message_cb close_cb : bool) (l : EventLoop.t)
         (p : MemoryPool.t) (e0 : Env) (before after : list (Env * TcpConnection.Op)),
    no_connect_established before ->
    no_connect_established after ->
    moves_by permitted_edge
      (states_along (lifetime before e0 after)
         (TcpConnection.accepted fd connected_cb message_cb close_cb l p)) /\
    (forall s s', permitted_edge s s' = true -> rank s < rank s').
Proof.
  intros fd ccb mcb clcb l p e0 before after Hbefore Hafter. split.
  - apply (moves_by_weaken taken_edge).
    { intros s s'. destruct s, s'; simpl; intros H; first [discriminate H|reflexivity]. }
    apply states_along_lifetime_moves; [exact Hbefore|exact Hafter|reflexivity].
  - intros s s'. destruct s, s'; simpl; intros H; try discriminate H; lia.
Qed.

Lemma state_moves_forward_along_permitted_edges_witness :
  moves_by permitted_edge
    (states_along (lifetime early_calls idle_env shutdown_twice) accepted_connection).
Proof.
  apply (state_moves_forward_along_permitted_edges 7 true true true fresh_loop
           MemoryPool.get_instance idle_env early_calls shutdown_twice).
  - repeat constructor.
  - repeat constructor.
Defined.

(** ** Memory pool: the usage counter *)

Lemma supported_size_range s :
  MemoryPool.is_supported_size s = true -> 0 < s <= 4096 * 1024.
Proof.
  unfold MemoryPool.is_supported_size, MemoryPool.MEM_SIZES. simpl.
  intros H.
  repeat (apply orb_prop in H as [H | H]; [apply Z.eqb_eq in H; lia|]).
  discriminate.
Qed.

Lemma find_suitable_size_supported n :
  MemoryPool.find_suitable_size n <> 0 ->
  MemoryPool.is_supported_size (MemoryPool.find_suitable_size n) = true.
Proof.
  unfold MemoryPool.find_suitable_size, MemoryPool.MEM_SIZES. simpl.
  repeat (destruct (n <=? _); [intros _; reflexivity|]).
  intros H. contradiction.
Qed.

Lemma held_bytes_nonneg (l : list Chunk.t) :
  Forall (fun ch => MemoryPool.is_supported_size (Chunk.capacity ch) = true) l ->
  0 <= foldr (fun ch acc => Chunk.capacity ch + acc) 0 l.
Proof.
  induction 1 as [|ch l Hch _ IH]; simpl; [lia|].
  apply supported_size_range in Hch. lia.
Qed.

Lemma held_bytes_delete (l : list Chunk.t) (i : nat) (ch : Chunk.t) :
  l !! i = Some ch ->
  foldr (fun ch acc => Chunk.capacity ch + acc) 0 (delete i l)
  = foldr (fun ch acc => Chunk.capacity ch + acc) 0 l - Chunk.capacity ch.
Proof.
  revert i. induction l as [|a l IH]; intros [|i] H; simpl in *; try discriminate.
  - injection H as ->. lia.
  - rewrite (IH i H). lia.
Qed.

Lemma held_bytes_insert (l : list Chunk.t) (i : nat) (ch ch' : Chunk.t) :
  l !! i = Some ch -> Chunk.capacity ch' = Chunk.capacity ch ->
  foldr (fun ch acc => Chunk.capacity ch + acc) 0 (<[i := ch']> l)
  = foldr (fun ch acc => Chunk.capacity ch + acc) 0 l.
Proof.
  revert i. induction l as [|a l IH]; intros [|i] H Hc; simpl in *; try discriminate.
  - injection H as ->. lia.
  - rewrite (IH i H Hc). reflexivity.
Qed.

Lemma classed_fail p : classed p -> classed (MemoryPool.fail p).
Proof. intros H. exact H. Qed.

Lemma alloc_chunk_accounted oom n c :
  accounted c ->
  PoolClient.held_bytes (PoolClient.step (PoolClient.alloc_chunk n oom) c) < 2 ^ 64 ->
  accounted (PoolClient.step (PoolClient.alloc_chunk n oom) c).
Proof.
  intros (Hcl & Hheld & Huse). unfold PoolClient.step, MemoryPool.alloc_chunk.
  destruct (n =? 0); [intros _; repeat split; assumption|].
  destruct (MemoryPool.find_suitable_size n =? 0) eqn:Hcs;
    [intros _; repeat split; assumption|].
  apply Z.eqb_neq in Hcs.
  pose proof (find_suitable_size_supported n Hcs) as Hsup.
  pose proof (supported_size_range _ Hsup) as Hrange.
  pose proof (held_bytes_nonneg _ Hheld) as Hnn.
  set (cs := MemoryPool.find_suitable_size n) in *.
  assert (Hslow :
    PoolClient.held_bytes
      (let (a, p) :=
         if MemoryPool.over_capacity cs (PoolClient.pool c)
         then (MemoryPool.Throws MemoryPoolExhaustedError, MemoryPool.fail (PoolClient.pool c))
         else if oom
              then (MemoryPool.Throws MemoryAllocationError, MemoryPool.fail (PoolClient.pool c))
              else if MemoryPool.over_capacity cs (PoolClient.pool c)
                   then (MemoryPool.Throws MemoryPoolExhaustedError,
                         MemoryPool.fail (PoolClient.pool c))
                   else (MemoryPool.Allocated (Chunk.new cs),
                         MemoryPool.charge (MemoryPool.pool_ (PoolClient.pool c)) cs
                                           (PoolClient.pool c)) in
       match a with
       | MemoryPool.Allocated ch => PoolClient.mk p (ch :: PoolClient.held c)
       | _ => PoolClient.mk p (PoolClient.held c)
       end) < 2 ^ 64 ->
    accounted
      (let (a, p) :=
         if MemoryPool.over_capacity cs (PoolClient.pool c)
         then (MemoryPool.Throws MemoryPoolExhaustedError, MemoryPool.fail (PoolClient.pool c))
         else if oom
              then (MemoryPool.Throws MemoryAllocationError, MemoryPool.fail (PoolClient.pool c))
              else if MemoryPool.over_capacity cs (PoolClient.pool c)
                   then (MemoryPool.Throws MemoryPoolExhaustedError,
                         MemoryPool.fail (PoolClient.pool c))
                   else (MemoryPool.Allocated (Chunk.new cs),
                         MemoryPool.charge (MemoryPool.pool_ (PoolClient.pool c)) cs
                                           (PoolClient.pool c)) in
       match a with
       | MemoryPool.Allocated ch => PoolClient.mk p (ch :: PoolClient.held c)
       | _ => PoolClient.mk p (PoolClient.held c)
       end)).
  { destruct (MemoryPool.over_capacity cs (PoolClient.pool c));
      [intros _; repeat split; assumption|].
    destruct oom; [intros _; repeat split; assumption|].
    unfold PoolClient.held_bytes. simpl. intros Hfit.
    split; [exact Hcl|]. split; [constructor; assumption|].
    unfold PoolClient.held_bytes in *. simpl. rewrite Huse.
    rewrite size_t_small by lia. lia. }
  destruct (MemoryPool.pool_ (PoolClient.pool c) !! cs) as [[|chunk next]|] eqn:Hfree;
    [exact Hslow| |exact Hslow].
  unfold PoolClient.held_bytes. simpl. intros Hfit.
  pose proof (Hcl _ _ Hfree) as Hall. apply Forall_cons in Hall as [Hcap Hnext].
  split; [|split].
  - intros k l Hk. simpl in Hk.
    destruct (decide (cs = k)) as [<- | Hne].
    + rewrite lookup_insert_eq in Hk. injection Hk as <-. exact Hnext.
    + rewrite lookup_insert_ne in Hk by exact Hne. apply (Hcl _ _ Hk).
  - simpl. constructor; [rewrite Hcap; exact Hsup|exact Hheld].
  - unfold PoolClient.held_bytes in *. simpl. rewrite Huse. rewrite Hcap in *.
    rewrite size_t_small by lia. lia.
Qed.

Lemma retrieve_accounted i c :
  accounted c ->
  PoolClient.held_bytes (PoolClient.step (PoolClient.retrieve i) c) < 2 ^ 64 ->
  accounted (PoolClient.step (PoolClient.retrieve i) c).
Proof.
  intros (Hcl & Hheld & Huse). unfold PoolClient.step.
  destruct (PoolClient.held c !! i) as [ch|] eqn:Hi; [|intros _; repeat split; assumption].
  unfold PoolClient.held_bytes at 1. simpl. intros Hfit.
  pose proof (Forall_lookup_1 _ _ _ _ Hheld Hi) as Hsup. simpl in Hsup.
  pose proof (supported_size_range _ Hsup) as Hrange.
  pose proof (held_bytes_delete _ _ _ Hi) as Hdel.
  assert (Hrest : Forall (fun ch => MemoryPool.is_supported_size (Chunk.capacity ch) = true)
                         (delete i (PoolClient.held c))).
  { apply Forall_forall. intros x Hx. rewrite Forall_forall in Hheld.
    apply Hheld. apply (list_elem_of_delete_inv x i). exact Hx. }
  pose proof (held_bytes_nonneg _ Hrest) as Hnn.
  unfold MemoryPool.retrieve.
  destruct (Chunk.capacity ch =? 0) eqn:H0; [apply Z.eqb_eq in H0; lia|].
  rewrite Hsup. simpl.
  unfold PoolClient.held_bytes in *. simpl.
  split; [|split; [exact Hrest|]].
  - intros k l Hk. simpl in Hk.
    destruct (MemoryPool.pool_ (PoolClient.pool c) !! Chunk.capacity ch) as [next|] eqn:Hfree.
    + destruct (decide (Chunk.capacity ch = k)) as [<- | Hne].
      * rewrite lookup_insert_eq in Hk. injection Hk as <-.
        constructor; [reflexivity|apply (Hcl _ _ Hfree)].
      * rewrite lookup_insert_ne in Hk by exact Hne. apply (Hcl _ _ Hk).
    + destruct (decide (Chunk.capacity ch = k)) as [<- | Hne].
      * rewrite lookup_insert_eq in Hk. injection Hk as <-.
        constructor; [reflexivity|constructor].
      * rewrite lookup_insert_ne in Hk by exact Hne. apply (Hcl _ _ Hk).
  - unfold PoolClient.held_bytes. simpl. rewrite Hdel, Huse.
    rewrite Hdel in Hfit, Hnn.
    destruct (Chunk.capacity ch <=? _) eqn:Hle; [|apply Z.leb_gt in Hle; lia].
    rewrite size_t_small by lia. lia.
Qed.

Lemma step_accounted op c :
  accounted c -> PoolClient.held_bytes (PoolClient.step op c) < 2 ^ 64 ->
  accounted (PoolClient.step op c).
Proof.
  intros Hacc Hfit. destruct op as [n oom | i | i len hd d | m].
  - apply alloc_chunk_accounted; assumption.
  - apply retrieve_accounted; assumption.
  - destruct Hacc as (Hcl & Hheld & Huse). unfold PoolClient.step.
    destruct (PoolClient.held c !! i) as [ch|] eqn:Hi; [|repeat split; assumption].
    split; [exact Hcl|]. split.
    + simpl. apply Forall_insert; [exact Hheld|].
      apply (Forall_lookup_1 _ _ _ _ Hheld Hi).
    + unfold PoolClient.held_bytes in *. simpl.
      rewrite (held_bytes_insert _ _ ch); [exact Huse|exact Hi|reflexivity].
  - destruct Hacc as (Hcl & Hheld & Huse). repeat split; assumption.
Qed.

Lemma run_accounted ops :
  forall c, accounted c -> PoolClient.fits_address_space ops c ->
            accounted (PoolClient.run ops c).
Proof.
  induction ops as [|op ops IH]; intros c Hacc Hfit; simpl in *.
  - exact Hacc.
  - destruct Hfit as [_ Hfit]. apply IH; [|exact Hfit].
    apply step_accounted; [exact Hacc|].
    destruct ops; simpl in Hfit; apply Hfit.
Qed.

Lemma preallocate_chunks_classed oom cs count p p' :
  classed p -> MemoryPool.preallocate_chunks oom cs count p = inr p' ->
  classed p' /\ MemoryPool.current_usage_bytes_ p' = MemoryPool.current_usage_bytes_ p.
Proof.
  intros Hcl. unfold MemoryPool.preallocate_chunks.
  destruct (_ || _); [intros [= <-]; split; [exact Hcl|reflexivity]|].
  destruct oom; [discriminate|].
  destruct (_ <? _); [discriminate|].
  intros [= <-]. split; [|reflexivity].
  assert (Hnew : Forall (fun ch => Chunk.capacity ch = cs)
                        (replicate (Z.to_nat count) (Chunk.new cs))).
  { apply Forall_forall. intros x Hx. apply elem_of_replicate in Hx as [-> _]. reflexivity. }
  intros k l Hk. simpl in Hk.
  destruct (MemoryPool.pool_ p !! cs) as [[|c next]|] eqn:Hfree;
    (destruct (decide (cs = k)) as [<- | Hne];
     [rewrite lookup_insert_eq in Hk; injection Hk as <-
     |rewrite lookup_insert_ne in Hk by exact Hne; apply (Hcl _ _ Hk)]).
  - exact Hnew.
  - apply Forall_app. split; [exact Hnew|apply (Hcl _ _ Hfree)].
  - exact Hnew.
Qed.

Lemma ctor_get_instance : MemoryPool.ctor false = inr MemoryPool.get_instance.
Proof.
  unfold MemoryPool.get_instance.
  destruct (MemoryPool.ctor false) as [e | p] eqn:Hctor; [|reflexivity].
  vm_compute in Hctor. discriminate Hctor.
Qed.

Lemma and_then_inr r f p' :
  MemoryPool.and_then r f = inr p' -> exists p, r = inr p /\ f p = inr p'.
Proof. destruct r as [e | p]; simpl; [discriminate|]. intros H. exists p. split; [reflexivity|exact H]. Qed.

Lemma empty_classes_lookup (sizes : list Z) (k : Z) (l : list Chunk.t) :
  foldr (fun s (m : gmap Z (list Chunk.t)) => <[s := []]> m) ∅ sizes !! k = Some l ->
  l = [].
Proof.
  induction sizes as [|s sizes IH]; simpl.
  - rewrite lookup_empty. discriminate.
  - destruct (decide (s = k)) as [<- | Hne].
    + rewrite lookup_insert_eq. congruence.
    + rewrite lookup_insert_ne by exact Hne. exact IH.
Qed.

Lemma get_instance_accounted : accounted PoolClient.start.
Proof.
  pose proof ctor_get_instance as H.
  unfold MemoryPool.ctor, MemoryPool.initialize_pool in H.
  set (p0 := MemoryPool.mk _ _ _ _ _) in H.
  assert (H0 : classed p0 /\ MemoryPool.current_usage_bytes_ p0 = 0).
  { split; [|reflexivity]. intros k l Hk. subst p0. simpl in Hk.
    rewrite (empty_classes_lookup MemoryPool.MEM_SIZES k l Hk). constructor. }
  apply and_then_inr in H as (p1 & H1 & H).
  apply and_then_inr in H as (p2 & H2 & H).
  apply and_then_inr in H as (p3 & H3 & H).
  apply and_then_inr in H as (p4 & H4 & H).
  apply and_then_inr in H as (p5 & H5 & H).
  destruct H0 as [C0 U0].
  destruct (preallocate_chunks_classed _ _ _ _ _ C0 H1) as [C1 U1].
  destruct (preallocate_chunks_classed _ _ _ _ _ C1 H2) as [C2 U2].
  destruct (preallocate_chunks_classed _ _ _ _ _ C2 H3) as [C3 U3].
  destruct (preallocate_chunks_classed _ _ _ _ _ C3 H4) as [C4 U4].
  destruct (preallocate_chunks_classed _ _ _ _ _ C4 H5) as [C5 U5].
  destruct (preallocate_chunks_classed _ _ _ _ _ C5 H) as [C6 U6].
  split; [exact C6|]. split; [constructor|].
  unfold PoolClient.start, PoolClient.held_bytes. simpl. congruence.
Qed.




(** ** Idle-timeout wheel: one tick *)

Lemma scan_slot_cons now T a en rest h :
  h !! a = Some en ->
  ConnectionTimeoutManager.scan_slot now T (Some a :: rest) h
  = let ticking := 0 <? ConnectionTimeoutManager.remaining_ticks en in
    let expire :=
      negb ticking &&
      (T <=? ConnectionTimeoutManager.milliseconds
               (now - ConnectionTimeoutManager.last_activity_time en)) in
    let '(h', kept_entries, expired) :=
      ConnectionTimeoutManager.scan_slot now T rest
        (if ticking then <[a := ConnectionTimeoutManager.decrement en]> h else h) in
    (h', if expire then kept_entries else Some a :: kept_entries,
     if expire then a :: expired else expired).
Proof.
  intros Ha. simpl. rewrite Ha.
  destruct (0 <? _); simpl.
  - destruct (ConnectionTimeoutManager.scan_slot _ _ _ _) as [[h' k] x]. reflexivity.
  - destruct (T <=? _); simpl;
      destruct (ConnectionTimeoutManager.scan_slot _ _ _ _) as [[h' k] x]; reflexivity.
Qed.

(** The scan touches only the entries of the slot. *)
Lemma scan_slot_frame now T es :
  forall h a,
    Some a ∉ es ->
    (ConnectionTimeoutManager.scan_slot now T es h).1.1 !! a = h !! a.
Proof.
  induction es as [|[b|] es IH]; intros h a Hnotin.
  - reflexivity.
  - apply not_elem_of_cons in Hnotin as [Hne Hrest].
    assert (Hab : b <> a) by congruence.
    destruct (h !! b) as [en|] eqn:Hb.
    + rewrite (scan_slot_cons _ _ _ _ _ _ Hb). simpl.
      specialize (IH (if 0 <? ConnectionTimeoutManager.remaining_ticks en
                      then <[b := ConnectionTimeoutManager.decrement en]> h else h)
                     a Hrest).
      destruct (ConnectionTimeoutManager.scan_slot _ _ _ _) as [[h' k] x]. simpl in *.
      rewrite IH. destruct (0 <? _); [apply lookup_insert_ne; exact Hab|reflexivity].
    + simpl. rewrite Hb. specialize (IH h a Hrest).
      destruct (ConnectionTimeoutManager.scan_slot _ _ _ _) as [[h' k] x]. exact IH.
  - apply not_elem_of_cons in Hnotin as [_ Hrest]. simpl. apply IH. exact Hrest.
Qed.

(** What is left in the slot, and what expired, was in the slot. *)
Lemma scan_slot_within now T es :
  forall h a,
    (Some a ∈ (ConnectionTimeoutManager.scan_slot now T es h).1.2 -> Some a ∈ es) /\
    (a ∈ (ConnectionTimeoutManager.scan_slot now T es h).2 -> Some a ∈ es).
Proof.
  induction es as [|[b|] es IH]; intros h a.
  - simpl. split; intros H; inversion H.
  - destruct (h !! b) as [en|] eqn:Hb.
    + rewrite (scan_slot_cons _ _ _ _ _ _ Hb). simpl.
      specialize (IH (if 0 <? ConnectionTimeoutManager.remaining_ticks en
                      then <[b := ConnectionTimeoutManager.decrement en]> h else h) a).
      destruct (ConnectionTimeoutManager.scan_slot _ _ _ _) as [[h' k] x]. simpl in *.
      destruct IH as [IH1 IH2].
      destruct (negb _ && _); simpl; split; intros H.
      * right. apply IH1. exact H.
      * apply elem_of_cons in H as [-> | H]; [left|right; apply IH2; exact H].
      * apply elem_of_cons in H as [-> | H]; [left|right; apply IH1; exact H].
      * right. apply IH2. exact H.
    + simpl. rewrite Hb. specialize (IH h a).
      destruct (ConnectionTimeoutManager.scan_slot _ _ _ _) as [[h' k] x]. simpl in *.
      destruct IH as [IH1 IH2]. split; intros H.
      * apply elem_of_cons in H as [-> | H]; [left|right; apply IH1; exact H].
      * right. apply IH2. exact H.
  - simpl. specialize (IH h a). destruct IH as [IH1 IH2].
    split; intros H; right; [apply IH1|apply IH2]; exact H.
Qed.

Lemma scan_slot_outcome now T es :
  forall h a en,
    NoDup (omap id es) -> Some a ∈ es -> h !! a = Some en ->
    slot_entry_outcome now T a en
      (ConnectionTimeoutManager.scan_slot now T es h).1.1
      (ConnectionTimeoutManager.scan_slot now T es h).1.2
      (ConnectionTimeoutManager.scan_slot now T es h).2.
Proof.
  induction es as [|[b|] es IH]; intros h a en Hnd Hin Ha.
  - inversion Hin.
  - simpl in Hnd. apply NoDup_cons in Hnd as [Hb_notin Hnd].
    assert (Hb_rest : Some b ∉ es).
    { intros H. apply Hb_notin. apply list_elem_of_omap. exists (Some b). split; [exact H|reflexivity]. }
    destruct (decide (a = b)) as [-> | Hne].
    + rewrite (scan_slot_cons _ _ _ _ _ _ Ha).
      pose proof (scan_slot_frame now T es
                    (if 0 <? ConnectionTimeoutManager.remaining_ticks en
                     then <[b := ConnectionTimeoutManager.decrement en]> h else h)
                    b Hb_rest) as Hframe.
      pose proof (scan_slot_within now T es
                    (if 0 <? ConnectionTimeoutManager.remaining_ticks en
                     then <[b := ConnectionTimeoutManager.decrement en]> h else h)
                    b) as [Hk Hx].
      simpl.
      destruct (ConnectionTimeoutManager.scan_slot _ _ _ _) as [[h' k] x]. simpl in *.
      unfold slot_entry_outcome. simpl.
      destruct (0 <? ConnectionTimeoutManager.remaining_ticks en) eqn:Hticks; simpl.
      * apply Z.ltb_lt in Hticks. rewrite lookup_insert_eq in Hframe.
        split; [|split]; [|lia|lia].
        intros _. split; [left|]. split; [|exact Hframe].
        intros H. apply Hb_rest. apply Hx. exact H.
      * apply Z.ltb_ge in Hticks.
        destruct (T <=? _) eqn:Hidle; simpl.
        -- apply Z.leb_le in Hidle. split; [lia|]. split; [|lia].
           intros _ _. split; [left|]. split; [|rewrite Hframe; exact Ha].
           intros H. apply Hb_rest. apply Hk. exact H.
        -- apply Z.leb_gt in Hidle. split; [lia|]. split; [lia|].
           intros _ _. split; [left|]. split; [|rewrite Hframe; exact Ha].
           intros H. apply Hb_rest. apply Hx. exact H.
    + apply elem_of_cons in Hin as [Heq | Hin]; [congruence|].
      assert (Lift : forall h1, h1 !! a = Some en ->
                forall keep_b expire_b : bool,
                slot_entry_outcome now T a en
                  (ConnectionTimeoutManager.scan_slot now T es h1).1.1
                  (if keep_b
                   then Some b :: (ConnectionTimeoutManager.scan_slot now T es h1).1.2
                   else (ConnectionTimeoutManager.scan_slot now T es h1).1.2)
                  (if expire_b
                   then b :: (ConnectionTimeoutManager.scan_slot now T es h1).2
                   else (ConnectionTimeoutManager.scan_slot now T es h1).2)).
      { intros h1 Ha1 keep_b expire_b.
        destruct (IH h1 a en Hnd Hin Ha1) as (O1 & O2 & O3).
        assert (Hk : forall l, Some a ∈ l -> Some a ∈ (if keep_b then Some b :: l else l))
          by (intros l H; destruct keep_b; [right|]; exact H).
        assert (Hk' : forall l, Some a ∉ l -> Some a ∉ (if keep_b then Some b :: l else l)).
        { intros l H. destruct keep_b; [|exact H].
          apply not_elem_of_cons. split; [congruence|exact H]. }
        assert (Hx : forall l, a ∈ l -> a ∈ (if expire_b then b :: l else l))
          by (intros l H; destruct expire_b; [right|]; exact H).
        assert (Hx' : forall l, a ∉ l -> a ∉ (if expire_b then b :: l else l)).
        { intros l H. destruct expire_b; [|exact H].
          apply not_elem_of_cons. split; [exact Hne|exact H]. }
        split; [|split].
        - intros H. destruct (O1 H) as (A & B & C). auto.
        - intros H H'. destruct (O2 H H') as (A & B & C). auto.
        - intros H H'. destruct (O3 H H') as (A & B & C). auto. }
      destruct (h !! b) as [enb|] eqn:Hb.
      * rewrite (scan_slot_cons _ _ _ _ _ _ Hb). simpl.
        assert (Ha1 : (if 0 <? ConnectionTimeoutManager.remaining_ticks enb
                       then <[b := ConnectionTimeoutManager.decrement enb]> h else h)
                      !! a = Some en).
        { destruct (0 <? _); [rewrite lookup_insert_ne by congruence|]; exact Ha. }
        specialize (Lift _ Ha1).
        destruct (ConnectionTimeoutManager.scan_slot _ _ _ _) as [[h' k] x]. simpl in *.
        destruct (negb _ && _).
        -- apply (Lift false true).
        -- apply (Lift true false).
      * simpl. rewrite Hb. specialize (Lift h Ha true false).
        destruct (ConnectionTimeoutManager.scan_slot _ _ _ _) as [[h' k] x]. exact Lift.
  - simpl in *. apply elem_of_cons in Hin as [Heq | Hin]; [discriminate|].
    apply IH; assumption.
Qed.

(** For a positive timeout, the idle time in whole milliseconds reaches the
    timeout exactly when the elapsed nanoseconds do. *)
Lemma milliseconds_reaches (timeout_ms d : Z) :
  0 < timeout_ms ->
  timeout_ms <= ConnectionTimeoutManager.milliseconds d <-> timeout_ms * 1000000 <= d.
Proof.
  intros HT. unfold ConnectionTimeoutManager.milliseconds.
  destruct (Z_lt_le_dec d 0) as [Hneg | Hpos].
  - pose proof (Z.quot_opp_l d 1000000 ltac:(lia)) as Hq.
    pose proof (Z.quot_pos (- d) 1000000 ltac:(lia) ltac:(lia)). lia.
  - rewrite Z.quot_div_nonneg by lia.
    pose proof (Z.mul_div_le d 1000000 ltac:(lia)).
    split; intros H1.
    + nia.
    + apply Z.div_le_lower_bound; lia.
Qed.

Lemma deliver_keeps_wheel expired :
  forall m,
    let m' := (ConnectionTimeoutManager.deliver expired m).1 in
    ConnectionTimeoutManager.time_wheel_ m' = ConnectionTimeoutManager.time_wheel_ m /\
    ConnectionTimeoutManager.entries m' = ConnectionTimeoutManager.entries m /\
    ConnectionTimeoutManager.current_slot_ m' = ConnectionTimeoutManager.current_slot_ m /\
    ConnectionTimeoutManager.wheel_size_ m' = ConnectionTimeoutManager.wheel_size_ m.
Proof.
  induction expired as [|a expired IH]; intros m; simpl.
  - repeat split.
  - destruct (ConnectionTimeoutManager.entries m !! a) as [[[fd|] sp rt la]|]; try apply IH.
    specialize (IH (ConnectionTimeoutManager.set_connections
                      (delete fd (ConnectionTimeoutManager.connections_ m))
                      (size_t (ConnectionTimeoutManager.total_connections_ m - 1)) m)).
    destruct (ConnectionTimeoutManager.deliver expired _) as [m2 out]. exact IH.
Qed.

(** C8. One tick of the wheel processes the current slot: an entry with
    ticks left loses exactly one tick, is otherwise unchanged, and stays;
    an entry without ticks left whose
    idle time (now minus last activity, in whole milliseconds) has reached
    the timeout is recorded as expired and leaves the slot; any other
    entry stays as it is; then the current slot index becomes
    (current + 1) mod W. For a positive timeout T the idle time reaches it
    exactly when now minus last activity is at least T milliseconds. *)
Theorem tick_processes_current_slot :
  forall (now : Z) (m : ConnectionTimeoutManager.t),
    let current := ConnectionTimeoutManager.current_slot_ m in
    let es := ConnectionTimeoutManager.slot_entries current m in
    let scanned :=
      ConnectionTimeoutManager.scan_slot now
        (ConnectionTimeoutManager.idle_timeout_ms_ m) es
        (ConnectionTimeoutManager.entries m) in
    let m' := (ConnectionTimeoutManager.tick now m).1 in
    0 <= current < ConnectionTimeoutManager.wheel_size_ m ->
    ConnectionTimeoutManager.wheel_size_ m < 2 ^ 31 ->
    (Z.to_nat current < length (ConnectionTimeoutManager.time_wheel_ m))%nat ->
    NoDup (omap id es) ->
    ConnectionTimeoutManager.current_slot_ m'
    = (current + 1) mod ConnectionTimeoutManager.wheel_size_ m /\
    ConnectionTimeoutManager.slot_entries current m' = scanned.1.2 /\
    ConnectionTimeoutManager.entries m' = scanned.1.1 /\
    (forall a en,
        Some a ∈ es -> ConnectionTimeoutManager.entries m !! a = Some en ->
        slot_entry_outcome now (ConnectionTimeoutManager.idle_timeout_ms_ m) a en
                           scanned.1.1 scanned.1.2 scanned.2) /\
    (forall a en,
        Some a ∈ es -> ConnectionTimeoutManager.entries m !! a = Some en ->
        0 < ConnectionTimeoutManager.remaining_ticks en < 2 ^ 31 ->
        exists en',
          ConnectionTimeoutManager.entries m' !! a = Some en' /\
          ConnectionTimeoutManager.remaining_ticks en'
          = ConnectionTimeoutManager.remaining_ticks en - 1 /\
          ConnectionTimeoutManager.conn en' = ConnectionTimeoutManager.conn en /\
          ConnectionTimeoutManager.slot_position en'
          = ConnectionTimeoutManager.slot_position en /\
          ConnectionTimeoutManager.last_activity_time en'
          = ConnectionTimeoutManager.last_activity_time en) /\
    (0 < ConnectionTimeoutManager.idle_timeout_ms_ m ->
     forall d, ConnectionTimeoutManager.idle_timeout_ms_ m
               <= ConnectionTimeoutManager.milliseconds d
               <-> ConnectionTimeoutManager.idle_timeout_ms_ m * 1000000 <= d).
Proof.
  intros now m current es scanned m' Hcur Hw Hlen Hnd.

  assert (Hout : forall a en,
             Some a ∈ es -> ConnectionTimeoutManager.entries m !! a = Some en ->
             slot_entry_outcome now (ConnectionTimeoutManager.idle_timeout_ms_ m) a en
                                scanned.1.1 scanned.1.2 scanned.2).
  { intros a en Hin Ha. apply scan_slot_outcome; assumption. }
  subst m'. unfold ConnectionTimeoutManager.tick,
              ConnectionTimeoutManager.process_timeout_connections.
  fold current. fold es. fold scanned.
  destruct scanned as [[h kept_entries] expired] eqn:Hscan.
  pose proof (deliver_keeps_wheel expired
                (ConnectionTimeoutManager.set_entries h
                   (ConnectionTimeoutManager.set_slot current kept_entries m)))
    as (Hwheel & Hentries & Hslot & Hsize).
  destruct (ConnectionTimeoutManager.deliver expired _) as [m1 out].
  simpl in *. split; [|split; [|split; [|split; [|split]]]].
  - rewrite Hslot, Hsize. fold current.
    rewrite int_small by lia. apply Z.rem_mod_nonneg; lia.
  - unfold ConnectionTimeoutManager.slot_entries. simpl. rewrite Hwheel.
    rewrite list_lookup_insert_eq by exact Hlen. reflexivity.
  - exact Hentries.
  - exact Hout.
  - intros a en Hin Ha Hticks.
    destruct (Hout a en Hin Ha) as (Hticking & _).
    destruct (Hticking ltac:(lia)) as (_ & _ & Hdec).
    exists (ConnectionTimeoutManager.decrement en).
    split; [rewrite Hentries; exact Hdec|]. simpl.
    rewrite int_small by lia. repeat split.
  - intros HT d. apply milliseconds_reaches. exact HT.
Qed.

Lemma tick_processes_current_slot_witness :
  ConnectionTimeoutManager.current_slot_
    (ConnectionTimeoutManager.tick 3000000000 sample_wheel).1 = 1 /\
  ConnectionTimeoutManager.slot_entries 0
    (ConnectionTimeoutManager.tick 3000000000 sample_wheel).1
  = [Some 0%nat; Some 2%nat] /\
  ConnectionTimeoutManager.entries
    (ConnectionTimeoutManager.tick 3000000000 sample_wheel).1 !! 0%nat
  = Some (ConnectionTimeoutManager.mkEntry (Some 10) 0 4 0).
Proof.
  destruct (tick_processes_current_slot 3000000000 sample_wheel)
    as (Hcur & Hslot & Hentries & _ & _ & _).
  - vm_compute. split; [discriminate|reflexivity].
  - vm_compute. reflexivity.
  - vm_compute. lia.
  - apply (bool_decide_unpack _). vm_compute. exact I.
  - split; [exact Hcur|]. split; [exact Hslot|].
    rewrite Hentries. vm_compute. reflexivity.
Defined.

(** ** Connection: a failed [write_to_buf] in [sendInLoop] *)

Lemma Chunk_adjust_length c : Chunk.length (Chunk.adjust c) = Chunk.length c.
Proof. unfold Chunk.adjust. destruct (negb _); reflexivity. Qed.

Lemma ensure_capacity_result oom additional_size b p :
  let r := OutputBuffer.ensure_capacity oom additional_size b p in
  (r.1.1 = false -> BufferBase.length r.1.2 = BufferBase.length b) /\
  (r.1.1 = true -> BufferBase.data_buf r.1.2 <> None).
Proof.
  unfold OutputBuffer.ensure_capacity.
  destruct (additional_size <=? 0); [simpl; split; [reflexivity|discriminate]|].
  destruct (_ <? additional_size); [simpl; split; [reflexivity|discriminate]|].
  destruct (safe_int_to_size additional_size) as [additional|];
    [|simpl; split; [reflexivity|discriminate]].
  destruct (BufferBase.data_buf b) as [c|] eqn:Hb.
  - assert (Hlen : BufferBase.length
                     (BufferBase.mk (Some (if negb (Chunk.head c =? 0)
                                           then Chunk.adjust c else c)))
                   = BufferBase.length b).
    { unfold BufferBase.length. rewrite Hb. simpl.
      destruct (negb _); [rewrite Chunk_adjust_length|]; reflexivity. }
    destruct (additional <=? _); [simpl; split; [discriminate|discriminate]|].
    destruct (safe_add _ additional) as [new_size|];
      [|simpl; split; [intros _; exact Hlen|discriminate]].
    destruct (_ <? new_size); [simpl; split; [intros _; exact Hlen|discriminate]|].
    destruct (MemoryPool.alloc_chunk oom new_size p) as [[new_buf| |ex] p'];
      simpl; split; try discriminate; intros _; exact Hlen.
  - destruct (safe_int_to_size _) as [safe_size|];
      [|simpl; split; [reflexivity|discriminate]].
    destruct (MemoryPool.alloc_chunk oom safe_size p) as [[c| |ex] p'];
      simpl; split; try discriminate; reflexivity.
Qed.

(** A [write_to_buf] that returns -1 has stored nothing. *)
Lemma write_to_buf_failure_stores_nothing oom data len b p :
  (OutputBuffer.write_to_buf oom data len b p).1.1 = -1 ->
  BufferBase.length (OutputBuffer.write_to_buf oom data len b p).1.2
  = BufferBase.length b.
Proof.
  unfold OutputBuffer.write_to_buf.
  destruct data as [src|]; [|reflexivity].
  destruct (len <=? 0); [discriminate|].
  destruct (_ <? len); [reflexivity|].
  pose proof (ensure_capacity_result oom len b p) as [Hfalse Htrue].
  destruct (OutputBuffer.ensure_capacity oom len b p) as [[ok b1] p1]. simpl in *.
  destruct ok; simpl.
  - destruct (BufferBase.data_buf b1) as [c|]; [discriminate|].
    exfalso. apply Htrue; reflexivity.
  - intros _. apply Hfalse. reflexivity.
Qed.

(** C1, evaluated. When the direct write would block, or bytes are already
    queued, and [write_to_buf] then fails on the unwritten bytes,
    [sendInLoop] returns with the connection still Connected, without
    having run the close callback or closed the descriptor, and with
    nothing added to the output buffer: the failure is dropped. *)
Theorem sendInLoop_ignores_write_to_buf_failure :
  forall (e : Env) (data : option bytes) (len : Z) (w : TcpConnection.World),
    state_of w = TcpConnection.kConnected ->
    (BufferBase.length (TcpConnection.output_buf_ (TcpConnection.conn w)) <> 0 \/
     exists r rest, sys e = r :: rest /\ ret r < 0 /\ errno r = EAGAIN) ->
    0 < len ->
    (OutputBuffer.write_to_buf (oom e) (option_map (fun d i => d (0 + i)) data)
       (int (size_t (len - 0)))
       (TcpConnection.output_buf_ (TcpConnection.conn w)) (TcpConnection.pool w)).1.1 = -1 ->
    exists w',
      TcpConnection.sendInLoop e data len w = Some w' /\
      state_of w' = TcpConnection.kConnected /\
      on_closed_count w' = on_closed_count w /\
      close_count w' = close_count w /\
      BufferBase.length (TcpConnection.output_buf_ (TcpConnection.conn w'))
      = BufferBase.length (TcpConnection.output_buf_ (TcpConnection.conn w)).
Proof.
  intros e data len w Hstate Hpath Hlen Hfail.
  assert (Htail : forall w1,
             TcpConnection.output_buf_ (TcpConnection.conn w1)
             = TcpConnection.output_buf_ (TcpConnection.conn w) ->
             TcpConnection.pool w1 = TcpConnection.pool w ->
             BufferBase.length
               (TcpConnection.output_buf_
                  (TcpConnection.conn (TcpConnection.buffer_unwritten e data len 0 w1)))
             = BufferBase.length (TcpConnection.output_buf_ (TcpConnection.conn w))).
  { intros w1 Hbuf Hpool. unfold TcpConnection.buffer_unwritten.
    assert (H0 : (size_t 0 <? len) = true) by (apply Z.ltb_lt; exact Hlen).
    rewrite H0, Hbuf, Hpool.
    pose proof (write_to_buf_failure_stores_nothing _ _ _ _ _ Hfail) as Hsame.
    destruct (OutputBuffer.write_to_buf _ _ _ _ _) as [[r b] p]. simpl in Hsame.
    unfold TcpConnection.on_channel. simpl.
    destruct (TcpConnection.channel_ (TcpConnection.conn w1)) as [ch|]; simpl.
    - destruct (ChannelOps.enable_write _ _ _) as [[ch' l'] out]. exact Hsame.
    - exact Hsame. }
  unfold TcpConnection.sendInLoop. unfold state_of in Hstate. rewrite Hstate. simpl.
  destruct (BufferBase.length _ =? 0) eqn:Hempty.
  - destruct Hpath as [Hne | (r & rest & Hsys & Hret & Herr)];
      [apply Z.eqb_eq in Hempty; contradiction|].
    rewrite Hsys. apply Z.ltb_lt in Hret. rewrite Hret, Herr. simpl.
    eexists. split; [reflexivity|].
    destruct (kept_trans _ _ _
                (emit_quiet_kept
                   [SysWrite (TcpConnection.connfd_ (TcpConnection.conn w)) len] w
                   ltac:(split; reflexivity))
                (buffer_unwritten_kept e data len 0 _)) as (A & B & C).
    split; [rewrite A; exact Hstate|]. split; [exact B|]. split; [exact C|].
    apply Htail; reflexivity.
  - eexists. split; [reflexivity|].
    destruct (buffer_unwritten_kept e data len 0 w) as (A & B & C).
    split; [rewrite A; exact Hstate|]. split; [exact B|]. split; [exact C|].
    apply Htail; reflexivity.
Qed.

Lemma sendInLoop_ignores_write_to_buf_failure_witness :
  exists w',
    TcpConnection.sendInLoop would_block (Some letters_A) two_MiB established_connection
    = Some w' /\
    state_of w' = TcpConnection.kConnected /\
    on_closed_count w' = on_closed_count established_connection /\
    close_count w' = close_count established_connection /\
    BufferBase.length (TcpConnection.output_buf_ (TcpConnection.conn w'))
    = BufferBase.length
        (TcpConnection.output_buf_ (TcpConnection.conn established_connection)).
Proof.
  apply (sendInLoop_ignores_write_to_buf_failure would_block (Some letters_A) two_MiB
           established_connection).
  - vm_compute. reflexivity.
  - right. exists (Sysret (-1) EAGAIN zeroed), []. split; [reflexivity|].
    split; [simpl; lia|reflexivity].
  - vm_compute. reflexivity.
  - vm_compute. reflexivity.
Defined.

(** ** Input buffer: free space before a read *)

Lemma find_suitable_size_first_class n :
  n <= 4096 -> MemoryPool.find_suitable_size n = 4096.
Proof.
  intros H. unfold MemoryPool.find_suitable_size, MemoryPool.MEM_SIZES. simpl.
  destruct (n <=? 4096) eqn:Hle; [reflexivity|]. apply Z.leb_gt in Hle. lia.
Qed.

Lemma alloc_chunk_from_free_list oom n p cs chunk next :
  n <> 0 -> MemoryPool.find_suitable_size n = cs -> cs <> 0 ->
  MemoryPool.pool_ p !! cs = Some (chunk :: next) ->
  MemoryPool.alloc_chunk oom n p
  = (MemoryPool.Allocated chunk,
     MemoryPool.charge (<[cs := next]> (MemoryPool.pool_ p)) cs p).
Proof.
  intros Hn Hcs Hcs0 Hfree. unfold MemoryPool.alloc_chunk.
  apply Z.eqb_neq in Hn, Hcs0. rewrite Hn, Hcs, Hcs0, Hfree. reflexivity.
Qed.

Lemma expand_buffer_short oom n d p chunk next :
  0 < n <= 2048 ->
  MemoryPool.pool_ p !! 4096 = Some (chunk :: next) ->
  Chunk.capacity chunk = 4096 ->
  exists b' p',
    InputBuffer.expand_buffer oom n (BufferBase.mk (Some (Chunk.mk 4096 n 0 d))) p
    = (true, b', p') /\
    BufferBase.free_space b' = 4096 - n.
Proof.
  intros Hn Hfree Hcap. unfold InputBuffer.expand_buffer. simpl.
  rewrite (size_t_small n) by lia. rewrite (size_t_small (n + n)) by lia.
  rewrite (alloc_chunk_from_free_list oom (n + n) p 4096 chunk next);
    [|lia|apply find_suitable_size_first_class; lia|lia|exact Hfree].
  eexists. eexists. split; [reflexivity|].
  unfold BufferBase.free_space, Chunk.copy. simpl.
  destruct (n =? 0) eqn:H0; [apply Z.eqb_eq in H0; lia|].
  rewrite Hcap.
  destruct (4096 <? n) eqn:H1; [apply Z.ltb_lt in H1; lia|].
  simpl. rewrite Hcap. reflexivity.
Qed.

(** C5, evaluated. With [n] bytes (0 < n <= 2048) stored in a 4 KiB chunk,
    [ensure_space_available(4096)] reports success after moving the bytes
    to another 4 KiB chunk, so only [4096 - n] bytes are free, and
    [read_from_fd] asks the kernel for [4096 - n] bytes: [expand_buffer] is
    given the shortfall and adds it to the length, not to the capacity. *)
Theorem read_from_fd_space_below_default :
  forall (n : Z) (d : bytes) (p : MemoryPool.t) (chunk : Chunk.t) (next : list Chunk.t)
         (fd : Z) (r : sysret),
    0 < n <= 2048 ->
    MemoryPool.pool_ p !! 4096 = Some (chunk :: next) ->
    Chunk.capacity chunk = 4096 ->
    0 <= fd ->
    (ret r = -1 -> errno r <> EINTR) ->
    let b := BufferBase.mk (Some (Chunk.mk 4096 n 0 d)) in
    let ensured := InputBuffer.ensure_space_available false BufferBase.DEFAULT_BUFFER_SIZE b p in
    ensured.1.1 = true /\
    BufferBase.free_space ensured.1.2 = 4096 - n /\
    exists res b2,
      InputBuffer.read_from_fd false [r] fd b p
      = Some (res, b2, ensured.2, [SysRead fd (4096 - n)], []).
Proof.
  intros n d p chunk next fd r Hn Hfree Hcap Hfd Hret b ensured.
  assert (Hno : (ret r =? -1) && (errno r =? EINTR) = false).
  { destruct (ret r =? -1) eqn:H1; [|reflexivity].
    apply Z.eqb_eq in H1. apply Hret in H1. apply Z.eqb_neq in H1. exact H1. }
  destruct (expand_buffer_short false n d p chunk next Hn Hfree Hcap)
    as (b' & p' & Hexp & Hspace).
  assert (Hens : ensured = (true, b', p')).
  { subst ensured b. unfold InputBuffer.ensure_space_available.
    change (BufferBase.DEFAULT_BUFFER_SIZE <=? 0) with false.
    change (InputBuffer.MAX_ALLOWED_SIZE <? BufferBase.DEFAULT_BUFFER_SIZE) with false.
    change (safe_int_to_size BufferBase.DEFAULT_BUFFER_SIZE) with (Some 4096).
    cbv iota. simpl.
    rewrite (size_t_small (4096 - n)) by lia.
    destruct (4096 <=? 4096 - n) eqn:H1; [apply Z.leb_le in H1; lia|].
    replace (4096 - (4096 - n)) with n by lia.
    rewrite (size_t_small n) by lia.
    destruct (INT_MAX <? n) eqn:H2; [apply Z.ltb_lt in H2; unfold INT_MAX in H2; lia|].
    rewrite (int_small n) by lia. exact Hexp. }
  rewrite Hens. simpl. split; [reflexivity|]. split; [exact Hspace|].
  unfold InputBuffer.read_from_fd.
  destruct (fd <? 0) eqn:H0; [apply Z.ltb_lt in H0; lia|].
  fold b. fold ensured. rewrite Hens. simpl.
  unfold BufferBase.free_space in Hspace.
  destruct (BufferBase.data_buf b') as [c|] eqn:Hc; [|lia].
  rewrite Hspace. rewrite (size_t_small (4096 - n)) by lia.
  destruct (4096 - n =? 0) eqn:H3; [apply Z.eqb_eq in H3; lia|].
  rewrite Z.min_l by lia. unfold retry_on_EINTR. rewrite Hno.
  destruct (0 <? ret r); [eexists; eexists; reflexivity|].
  destruct (ret r =? 0); [eexists; eexists; reflexivity|].
  destruct (_ || _); eexists; eexists; reflexivity.
Qed.

Lemma read_from_fd_space_below_default_witness :
  (InputBuffer.ensure_space_available false 4096
     (BufferBase.mk (Some (Chunk.mk 4096 100 0 letters_A))) MemoryPool.get_instance).1.1
  = true /\
  BufferBase.free_space
    (InputBuffer.ensure_space_available false 4096
       (BufferBase.mk (Some (Chunk.mk 4096 100 0 letters_A))) MemoryPool.get_instance).1.2
  = 3996.
Proof.
  destruct (read_from_fd_space_below_default 100 letters_A MemoryPool.get_instance
              (Chunk.new 4096) (replicate 199 (Chunk.new 4096)) 7 (Sysret 0 0 zeroed))
    as (Hok & Hspace & _).
  - lia.
  - vm_compute. reflexivity.
  - reflexivity.
  - lia.
  - simpl. discriminate.
  - split; [exact Hok|exact Hspace].
Defined.


(** * Further properties *)

(** ** Chunks *)

(** X1. [Chunk::pop(len)] with fewer bytes than stored drops exactly the
    first [len] stored bytes: the length shrinks by [len], the bytes left
    are the old ones from position [len] on, and they stay inside the
    storage; with [len] at least the stored length the chunk is emptied and
    rewound. *)
Theorem Chunk_pop_drops_prefix :
  forall (c : Chunk.t) (len : Z),
    chunk_in_bounds c -> 0 <= len ->
    (len < Chunk.length c ->
       Chunk.length (Chunk.pop len c) = Chunk.length c - len /\
       (forall i, stored_byte (Chunk.pop len c) i = stored_byte c (len + i)) /\
       chunk_in_bounds (Chunk.pop len c)) /\
    (Chunk.length c <= len ->
       Chunk.length (Chunk.pop len c) = 0 /\ Chunk.head (Chunk.pop len c) = 0).
Proof.
  intros c len (Hh & Hl & Hfit & Hcap) Hlen. unfold Chunk.pop. split.
  - intros Hlt. destruct (Chunk.length c <=? len) eqn:Hle; [apply Z.leb_le in Hle; lia|].
    simpl. rewrite !size_t_small by lia. split; [reflexivity|]. split.
    + intros i. unfold stored_byte. simpl. rewrite ?size_t_small by lia. f_equal. lia.
    + unfold chunk_in_bounds. simpl. rewrite ?size_t_small by lia. lia.
  - intros Hge. destruct (Chunk.length c <=? len) eqn:Hle; [|apply Z.leb_gt in Hle; lia].
    split; reflexivity.
Qed.

Lemma Chunk_pop_drops_prefix_witness :
  Chunk.length (Chunk.pop 2 (Chunk.mk 4096 5 3 letters_A)) = 5 - 2 /\
  Chunk.head (Chunk.pop 7 (Chunk.mk 4096 5 3 letters_A)) = 0.
Proof.
  destruct (Chunk_pop_drops_prefix (Chunk.mk 4096 5 3 letters_A) 2) as [Hlt _].
  { unfold chunk_in_bounds. simpl. lia. }
  { lia. }
  destruct (Chunk_pop_drops_prefix (Chunk.mk 4096 5 3 letters_A) 7) as [_ Hge].
  { unfold chunk_in_bounds. simpl. lia. }
  { lia. }
  split; [apply Hlt; simpl; lia|apply Hge; simpl; lia].
Defined.

(** X2. [Chunk::adjust] moves the stored bytes to the start of the storage
    without changing them: afterwards the head is 0, length and capacity
    are as before, and every stored byte reads as before. *)
Theorem Chunk_adjust_keeps_bytes :
  forall (c : Chunk.t),
    chunk_in_bounds c ->
    Chunk.head (Chunk.adjust c) = 0 /\
    Chunk.length (Chunk.adjust c) = Chunk.length c /\
    Chunk.capacity (Chunk.adjust c) = Chunk.capacity c /\
    (forall i, 0 <= i < Chunk.length c ->
               stored_byte (Chunk.adjust c) i = stored_byte c i).
Proof.
  intros c (Hh & Hl & Hfit & Hcap). unfold Chunk.adjust.
  destruct (Chunk.head c =? 0) eqn:H0; simpl.
  - apply Z.eqb_eq in H0. repeat split; try reflexivity. exact H0.
  - repeat split; try reflexivity.
    intros i Hi. unfold stored_byte. simpl.
    destruct (Chunk.length c =? 0) eqn:Hz; simpl; [apply Z.eqb_eq in Hz; lia|].
    unfold memcpy.
    destruct (0 <=? 0 + i) eqn:H1; [|apply Z.leb_gt in H1; lia].
    destruct (0 + i <? 0 + Chunk.length c) eqn:H2; [|apply Z.ltb_ge in H2; lia].
    simpl. f_equal. lia.
Qed.

Lemma Chunk_adjust_keeps_bytes_witness :
  Chunk.head (Chunk.adjust (Chunk.mk 4096 5 3 letters_A)) = 0 /\
  Chunk.length (Chunk.adjust (Chunk.mk 4096 5 3 letters_A)) = 5.
Proof.
  destruct (Chunk_adjust_keeps_bytes (Chunk.mk 4096 5 3 letters_A)) as (H1 & H2 & _).
  { unfold chunk_in_bounds. simpl. lia. }
  split; [exact H1|exact H2].
Defined.

(** ** Memory pool: classes, outcomes, reuse *)

Lemma find_suitable_size_fits n :
  n <= 4096 * 1024 -> n <= MemoryPool.find_suitable_size n.
Proof.
  intros Hn. unfold MemoryPool.find_suitable_size, MemoryPool.MEM_SIZES. simpl.
  repeat match goal with
         | |- context [n <=? ?k] => destruct (Z.leb_spec n k); [lia|]
         end.
  lia.
Qed.

Lemma find_suitable_size_too_large n :
  4096 * 1024 < n -> MemoryPool.find_suitable_size n = 0.
Proof.
  intros Hn. unfold MemoryPool.find_suitable_size, MemoryPool.MEM_SIZES. simpl.
  repeat match goal with
         | |- context [n <=? ?k] => destruct (Z.leb_spec n k); [lia|]
         end.
  reflexivity.
Qed.

(** X3. [find_suitable_size] picks the smallest size class that holds the
    request: for a request of at most 4 MiB the result is one of the six
    classes, is at least the request, and no class that holds the request
    is smaller; for a larger request the result is 0 and [alloc_chunk]
    returns a null pointer, counting one failure. *)
Theorem find_suitable_size_smallest_class :
  forall (n : Z),
    (n <= 4096 * 1024 ->
       In (MemoryPool.find_suitable_size n) MemoryPool.MEM_SIZES /\
       n <= MemoryPool.find_suitable_size n /\
       (forall s, In s MemoryPool.MEM_SIZES -> n <= s ->
                  MemoryPool.find_suitable_size n <= s)) /\
    (4096 * 1024 < n ->
       MemoryPool.find_suitable_size n = 0 /\
       (forall oom p, MemoryPool.alloc_chunk oom n p
                      = (MemoryPool.Nullptr, MemoryPool.fail p))).
Proof.
  intros n. unfold MemoryPool.find_suitable_size, MemoryPool.MEM_SIZES. simpl.
  split.
  - intros Hn.
    repeat match goal with
           | |- context [n <=? ?k] => destruct (Z.leb_spec n k)
           end;
      try lia;
      (split; [solve [repeat (first [left; reflexivity|right])]|]); (split; [lia|]);
      intros s Hs Hle; repeat (destruct Hs as [<- | Hs]; [lia|]); contradiction.
  - intros Hn.
    assert (Hfind : MemoryPool.find_suitable_size n = 0).
    { unfold MemoryPool.find_suitable_size, MemoryPool.MEM_SIZES. simpl.
      repeat match goal with
             | |- context [n <=? ?k] => destruct (Z.leb_spec n k); [lia|]
             end.
      reflexivity. }
    split.
    + exact Hfind.
    + intros oom p. unfold MemoryPool.alloc_chunk.
      destruct (n =? 0) eqn:H0; [apply Z.eqb_eq in H0; lia|].
      rewrite Hfind. reflexivity.
Qed.

Lemma find_suitable_size_smallest_class_witness :
  In (MemoryPool.find_suitable_size 5000) MemoryPool.MEM_SIZES /\
  5000 <= MemoryPool.find_suitable_size 5000 /\
  MemoryPool.find_suitable_size (4096 * 1024 + 1) = 0.
Proof.
  destruct (find_suitable_size_smallest_class 5000) as [Hin _].
  destruct (find_suitable_size_smallest_class (4096 * 1024 + 1)) as [_ Hout].
  destruct Hin as (H1 & H2 & _); [lia|].
  destruct Hout as (H3 & _); [lia|].
  split; [exact H1|]. split; [exact H2|exact H3].
Defined.

(** X4. What [alloc_chunk] does to the pool. A chunk handed out has the
    capacity of the class chosen for the request, which holds the request,
    and the usage grows by exactly that capacity; an allocation that
    returns null or throws leaves the free lists, the usage and the cap as
    they were. *)
Theorem alloc_chunk_outcome :
  forall (oom : bool) (n : Z) (p p' : MemoryPool.t) (r : MemoryPool.alloc_result),
    classed p ->
    MemoryPool.alloc_chunk oom n p = (r, p') ->
    match r with
    | MemoryPool.Allocated c =>
        Chunk.capacity c = MemoryPool.find_suitable_size n /\
        n <= Chunk.capacity c /\
        MemoryPool.current_usage_bytes_ p'
        = size_t (MemoryPool.current_usage_bytes_ p + Chunk.capacity c)
    | _ =>
        MemoryPool.pool_ p' = MemoryPool.pool_ p /\
        MemoryPool.current_usage_bytes_ p' = MemoryPool.current_usage_bytes_ p /\
        MemoryPool.max_capacity_bytes_ p' = MemoryPool.max_capacity_bytes_ p
    end.
Proof.
  intros oom n p p' r Hcl. unfold MemoryPool.alloc_chunk.
  destruct (n =? 0); [intros [= <- <-]; repeat split|].
  destruct (MemoryPool.find_suitable_size n =? 0) eqn:Hcs; [intros [= <- <-]; repeat split|].
  apply Z.eqb_neq in Hcs.
  assert (Hfit : n <= MemoryPool.find_suitable_size n).
  { destruct (Z_le_gt_dec n (4096 * 1024)) as [Hle | Hgt].
    - apply find_suitable_size_fits. exact Hle.
    - exfalso. apply Hcs. apply find_suitable_size_too_large. lia. }
  set (cs := MemoryPool.find_suitable_size n) in *.
  assert (Hslow :
    (if MemoryPool.over_capacity cs p
     then (MemoryPool.Throws MemoryPoolExhaustedError, MemoryPool.fail p)
     else if oom then (MemoryPool.Throws MemoryAllocationError, MemoryPool.fail p)
          else if MemoryPool.over_capacity cs p
               then (MemoryPool.Throws MemoryPoolExhaustedError, MemoryPool.fail p)
               else (MemoryPool.Allocated (Chunk.new cs),
                     MemoryPool.charge (MemoryPool.pool_ p) cs p)) = (r, p') ->
    match r with
    | MemoryPool.Allocated c =>
        Chunk.capacity c = cs /\ n <= Chunk.capacity c /\
        MemoryPool.current_usage_bytes_ p'
        = size_t (MemoryPool.current_usage_bytes_ p + Chunk.capacity c)
    | _ =>
        MemoryPool.pool_ p' = MemoryPool.pool_ p /\
        MemoryPool.current_usage_bytes_ p' = MemoryPool.current_usage_bytes_ p /\
        MemoryPool.max_capacity_bytes_ p' = MemoryPool.max_capacity_bytes_ p
    end).
  { destruct (MemoryPool.over_capacity cs p); [intros [= <- <-]; repeat split|].
    destruct oom; intros [= <- <-]; repeat split. exact Hfit. }
  destruct (MemoryPool.pool_ p !! cs) as [[|chunk next]|] eqn:Hfree; try exact Hslow.
  intros [= <- <-].
  pose proof (Hcl _ _ Hfree) as Hall. apply Forall_cons in Hall as [Hcap _].
  rewrite Hcap. repeat split. exact Hfit.
Qed.

Lemma alloc_chunk_outcome_witness :
  match (MemoryPool.alloc_chunk false 5000 MemoryPool.get_instance).1 with
  | MemoryPool.Allocated c =>
      Chunk.capacity c = MemoryPool.find_suitable_size 5000 /\
      5000 <= Chunk.capacity c /\
      MemoryPool.current_usage_bytes_
        (MemoryPool.alloc_chunk false 5000 MemoryPool.get_instance).2
      = size_t (MemoryPool.current_usage_bytes_ MemoryPool.get_instance + Chunk.capacity c)
  | _ =>
      MemoryPool.pool_ (MemoryPool.alloc_chunk false 5000 MemoryPool.get_instance).2
      = MemoryPool.pool_ MemoryPool.get_instance /\
      MemoryPool.current_usage_bytes_
        (MemoryPool.alloc_chunk false 5000 MemoryPool.get_instance).2
      = MemoryPool.current_usage_bytes_ MemoryPool.get_instance /\
      MemoryPool.max_capacity_bytes_
        (MemoryPool.alloc_chunk false 5000 MemoryPool.get_instance).2
      = MemoryPool.max_capacity_bytes_ MemoryPool.get_instance
  end.
Proof.
  apply (alloc_chunk_outcome false 5000 MemoryPool.get_instance).
  - apply get_instance_accounted.
  - destruct (MemoryPool.alloc_chunk false 5000 MemoryPool.get_instance). reflexivity.
Defined.

(** X5. When every chunk handed out has been returned, the usage counter is
    back at 0, whatever the sequence of allocations, returns, writes and
    cap changes was (the bytes handed out staying below 2^64). *)
Theorem usage_zero_when_all_returned :
  forall (ops : list PoolClient.Op),
    PoolClient.fits_address_space ops PoolClient.start ->
    PoolClient.held (PoolClient.run ops PoolClient.start) = [] ->
    MemoryPool.current_usage_bytes_ (PoolClient.pool (PoolClient.run ops PoolClient.start)) = 0.
Proof.
  intros ops Hfit Hempty.
  destruct (run_accounted ops _ get_instance_accounted Hfit) as (_ & _ & Huse).
  rewrite Huse. unfold PoolClient.held_bytes. rewrite Hempty. reflexivity.
Qed.

(** X6. Returning a chunk and allocating from its class again hands back
    the same chunk, cleared, and leaves the free lists and the usage as
    they were before the return: the free lists are stacks, and [retrieve]
    resets length and head. *)
Theorem retrieve_then_alloc_reuses_chunk :
  forall (oom : bool) (n : Z) (c : Chunk.t) (next : list Chunk.t) (p : MemoryPool.t),
    MemoryPool.is_supported_size (Chunk.capacity c) = true ->
    MemoryPool.find_suitable_size n = Chunk.capacity c ->
    n <> 0 ->
    MemoryPool.pool_ p !! Chunk.capacity c = Some next ->
    Chunk.capacity c <= MemoryPool.current_usage_bytes_ p < 2 ^ 64 ->
    let r := MemoryPool.alloc_chunk oom n (MemoryPool.retrieve (Some c) p) in
    r.1 = MemoryPool.Allocated (Chunk.clear c) /\
    Chunk.length (Chunk.clear c) = 0 /\ Chunk.head (Chunk.clear c) = 0 /\
    MemoryPool.pool_ r.2 = MemoryPool.pool_ p /\
    MemoryPool.current_usage_bytes_ r.2 = MemoryPool.current_usage_bytes_ p.
Proof.
  intros oom n c next p Hsup Hfind Hn Hfree Huse r.
  pose proof (supported_size_range _ Hsup) as Hrange.
  subst r. unfold MemoryPool.retrieve.
  destruct (Chunk.capacity c =? 0) eqn:H0; [apply Z.eqb_eq in H0; lia|].
  rewrite Hsup, Hfree. simpl.
  destruct (Chunk.capacity c <=? MemoryPool.current_usage_bytes_ p) eqn:Hle;
    [|apply Z.leb_gt in Hle; lia].
  rewrite (alloc_chunk_from_free_list oom n _ (Chunk.capacity c) (Chunk.clear c) next);
    [|exact Hn|exact Hfind|lia|simpl; apply lookup_insert_eq].
  simpl. split; [reflexivity|]. split; [reflexivity|]. split; [reflexivity|].
  split.
  - rewrite insert_insert_eq. apply insert_id. exact Hfree.
  - rewrite (size_t_small (_ - _)) by lia. rewrite size_t_small by lia. lia.
Qed.

Lemma retrieve_then_alloc_reuses_chunk_witness :
  (MemoryPool.alloc_chunk false 100
     (MemoryPool.retrieve (Some (Chunk.mk 4096 7 2 letters_A))
        (MemoryPool.alloc_chunk false 100 MemoryPool.get_instance).2)).1
  = MemoryPool.Allocated (Chunk.clear (Chunk.mk 4096 7 2 letters_A)).
Proof.
  apply (retrieve_then_alloc_reuses_chunk false 100 (Chunk.mk 4096 7 2 letters_A)
           (replicate 199 (Chunk.new 4096))
           (MemoryPool.alloc_chunk false 100 MemoryPool.get_instance).2).
  - reflexivity.
  - reflexivity.
  - lia.
  - vm_compute. reflexivity.
  - vm_compute. split; [discriminate|reflexivity].
Defined.

Lemma usage_zero_when_all_returned_witness :
  MemoryPool.current_usage_bytes_
    (PoolClient.pool
       (PoolClient.run [PoolClient.alloc_chunk 100 false; PoolClient.alloc_chunk 5000 false;
                        PoolClient.retrieve 0; PoolClient.retrieve 0]
                       PoolClient.start)) = 0.
Proof.
  apply (usage_zero_when_all_returned
           [PoolClient.alloc_chunk 100 false; PoolClient.alloc_chunk 5000 false;
            PoolClient.retrieve 0; PoolClient.retrieve 0]).
  - vm_compute. repeat split; reflexivity.
  - vm_compute. reflexivity.
Defined.

(** ** Retried system calls *)

(** X7. A call interrupted by signals is reissued until an answer other
    than EINTR arrives: after [k] interruptions the call has been issued
    [k + 1] times, the first other answer is the result, and the answers
    behind it are left for the calls that follow. *)
Theorem retry_on_EINTR_reissues :
  forall (call : Event) (k : nat) (r : sysret) (rest : list sysret) (junk : bytes),
    (ret r = -1 -> errno r <> EINTR) ->
    retry_on_EINTR call (replicate k (Sysret (-1) EINTR junk) ++ r :: rest)
    = Some (r, replicate (S k) call, rest).
Proof.
  intros call k r rest junk Hr. induction k as [|k IH]; simpl.
  - destruct (ret r =? -1) eqn:H1; simpl.
    + apply Z.eqb_eq in H1. apply Hr in H1. apply Z.eqb_neq in H1.
      rewrite H1. reflexivity.
    + reflexivity.
  - change (EINTR =? EINTR) with true. simpl. rewrite IH. reflexivity.
Qed.

Lemma retry_on_EINTR_reissues_witness :
  retry_on_EINTR (SysRead 7 4096)
    (replicate 2 (Sysret (-1) EINTR zeroed) ++ Sysret 10 0 letters_A :: [])
  = Some (Sysret 10 0 letters_A, replicate 3 (SysRead 7 4096), []).
Proof.
  apply (retry_on_EINTR_reissues (SysRead 7 4096) 2 (Sysret 10 0 letters_A) [] zeroed).
  simpl. discriminate.
Defined.

(** ** Input buffer: what a read asks for and returns *)

Lemma size_t_range z : 0 <= size_t z < 2 ^ 64.
Proof. unfold size_t. apply Z.mod_pos_bound. lia. Qed.

(** X8. [read_from_fd] either returns -1 without issuing a read and without
    consuming an answer (bad descriptor, no space obtained), or it issues
    reads that each ask for between 1 and 65536 bytes and returns by the
    answer [r] that ends the retries: the byte count when positive, 0 at
    end of file, 0 as well when the read would block, -1 on any other
    error. *)
Theorem read_from_fd_bounded_and_classified :
  forall (oom : bool) (env : list sysret) (fd : Z) (b : BufferBase.t) (p : MemoryPool.t)
         (n : Z) (b' : BufferBase.t) (p' : MemoryPool.t) (out : list Event)
         (env' : list sysret),
    InputBuffer.read_from_fd oom env fd b p = Some (n, b', p', out, env') ->
    (out = [] /\ n = -1 /\ env' = env) \/
    (exists count r,
        0 < count <= 65536 /\
        retry_on_EINTR (SysRead fd count) env = Some (r, out, env') /\
        (0 < ret r -> n = int (ret r)) /\
        (ret r = 0 -> n = 0) /\
        (ret r < 0 -> errno r = EAGAIN \/ errno r = EWOULDBLOCK -> n = 0) /\
        (ret r < 0 -> errno r <> EAGAIN -> errno r <> EWOULDBLOCK -> n = -1)).
Proof.
  intros oom env fd b p n b' p' out env'. unfold InputBuffer.read_from_fd. intros H.
  destruct (fd <? 0); [injection H as <- <- <- <- <-; left; repeat split|].
  destruct (InputBuffer.ensure_space_available oom _ b p) as [[ok b1] p1].
  destruct (negb ok); [injection H as <- <- <- <- <-; left; repeat split|].
  destruct (BufferBase.data_buf b1) as [c|];
    [|injection H as <- <- <- <- <-; left; repeat split].
  pose proof (size_t_range (Chunk.capacity c - Chunk.length c)) as Hav.
  destruct (size_t (Chunk.capacity c - Chunk.length c) =? 0) eqn:H0;
    [injection H as <- <- <- <- <-; left; repeat split|].
  apply Z.eqb_neq in H0.
  destruct (retry_on_EINTR _ env) as [[[r evs] env1]|] eqn:Hr; [|discriminate].
  right. exists (Z.min (size_t (Chunk.capacity c - Chunk.length c)) 65536), r.
  split; [lia|].
  destruct (0 <? ret r) eqn:Hpos.
  { apply Z.ltb_lt in Hpos. injection H as <- <- <- <- <-.
    split; [exact Hr|]. repeat split; intros; try reflexivity; lia. }
  apply Z.ltb_ge in Hpos.
  destruct (ret r =? 0) eqn:Hz.
  { apply Z.eqb_eq in Hz. injection H as <- <- <- <- <-.
    split; [exact Hr|]. repeat split; intros; try reflexivity; lia. }
  apply Z.eqb_neq in Hz.
  destruct ((errno r =? EAGAIN) || (errno r =? EWOULDBLOCK)) eqn:Herr;
    injection H as <- <- <- <- <-; (split; [exact Hr|]).
  - repeat split; intros; try reflexivity; lia.
  - apply orb_false_iff in Herr as [E1 E2]. apply Z.eqb_neq in E1, E2.
    repeat split; intros; try reflexivity; try lia; tauto.
Qed.

Lemma read_from_fd_bounded_and_classified_witness :
  exists count r,
    0 < count <= 65536 /\
    retry_on_EINTR (SysRead 7 count) [failed EAGAIN] = Some (r, [SysRead 7 4096], []) /\
    (ret r < 0 -> errno r = EAGAIN \/ errno r = EWOULDBLOCK -> 0 = 0).
Proof.
  destruct (read_from_fd_bounded_and_classified false [failed EAGAIN] 7 BufferBase.empty
              MemoryPool.get_instance 0
              (BufferBase.mk (Some (Chunk.new 4096)))
              (MemoryPool.alloc_chunk false 4096 MemoryPool.get_instance).2
              [SysRead 7 4096] [])
    as [(Habs & _) | (count & r & Hc & Hr & _ & _ & Hblock & _)].
  - vm_compute. reflexivity.
  - discriminate Habs.
  - exists count, r. split; [exact Hc|]. split; [exact Hr|]. exact Hblock.
Defined.

(** ** Connection: reads that bring no bytes *)




(** ** Output buffer: appending *)

Lemma rewound_chunk (c : Chunk.t) :
  0 <= Chunk.length c ->
  let c1 := if negb (Chunk.head c =? 0) then Chunk.adjust c else c in
  Chunk.head c1 = 0 /\ Chunk.length c1 = Chunk.length c /\
  Chunk.capacity c1 = Chunk.capacity c /\
  (forall i, 0 <= i < Chunk.length c -> Chunk.data c1 i = stored_byte c i).
Proof.
  intros Hl. unfold Chunk.adjust, stored_byte.
  destruct (Chunk.head c =? 0) eqn:H0; simpl.
  - apply Z.eqb_eq in H0. repeat split; try reflexivity; [exact H0|].
    intros i _. rewrite H0. reflexivity.
  - repeat split; try reflexivity.
    intros i Hi.
    destruct (Chunk.length c =? 0) eqn:Hz; simpl; [apply Z.eqb_eq in Hz; lia|].
    unfold memcpy.
    destruct (0 <=? i) eqn:H1; [|apply Z.leb_gt in H1; lia].
    destruct (i <? 0 + Chunk.length c) eqn:H2; [|apply Z.ltb_ge in H2; lia].
    simpl. f_equal. lia.
Qed.

Lemma alloc_chunk_pristine oom n p r p' :
  pristine p -> MemoryPool.alloc_chunk oom n p = (r, p') ->
  pristine p' /\
  (forall c, r = MemoryPool.Allocated c ->
             Chunk.capacity c = MemoryPool.find_suitable_size n /\
             n <= Chunk.capacity c <= 4096 * 1024 /\
             Chunk.length c = 0 /\ Chunk.head c = 0).
Proof.
  intros Hpr. unfold MemoryPool.alloc_chunk.
  destruct (n =? 0); [intros [= <- <-]; split; [exact Hpr|discriminate]|].
  destruct (MemoryPool.find_suitable_size n =? 0) eqn:Hcs;
    [intros [= <- <-]; split; [exact Hpr|discriminate]|].
  apply Z.eqb_neq in Hcs.
  pose proof (supported_size_range _ (find_suitable_size_supported n Hcs)) as Hrange.
  assert (Hfit : n <= MemoryPool.find_suitable_size n).
  { destruct (Z_le_gt_dec n (4096 * 1024)) as [Hle | Hgt].
    - apply find_suitable_size_fits. exact Hle.
    - exfalso. apply Hcs. apply find_suitable_size_too_large. lia. }
  set (cs := MemoryPool.find_suitable_size n) in *.
  assert (Hslow :
    (if MemoryPool.over_capacity cs p
     then (MemoryPool.Throws MemoryPoolExhaustedError, MemoryPool.fail p)
     else if oom then (MemoryPool.Throws MemoryAllocationError, MemoryPool.fail p)
          else if MemoryPool.over_capacity cs p
               then (MemoryPool.Throws MemoryPoolExhaustedError, MemoryPool.fail p)
               else (MemoryPool.Allocated (Chunk.new cs),
                     MemoryPool.charge (MemoryPool.pool_ p) cs p)) = (r, p') ->
    pristine p' /\
    (forall c, r = MemoryPool.Allocated c ->
               Chunk.capacity c = cs /\
               n <= Chunk.capacity c <= 4096 * 1024 /\
               Chunk.length c = 0 /\ Chunk.head c = 0)).
  { destruct (MemoryPool.over_capacity cs p);
      [intros [= <- <-]; split; [exact Hpr|discriminate]|].
    destruct oom; intros [= <- <-]; (split; [exact Hpr|]); [discriminate|].
    intros c [= <-]. simpl. repeat split; lia. }
  destruct (MemoryPool.pool_ p !! cs) as [[|chunk next]|] eqn:Hfree; try exact Hslow.
  intros [= <- <-].
  pose proof (Hpr _ _ Hfree) as Hall. apply Forall_cons in Hall as [(Hcap & Hlen & Hhd) Hnext].
  split.
  - intros k l Hk. simpl in Hk.
    destruct (decide (cs = k)) as [<- | Hne].
    + rewrite lookup_insert_eq in Hk. injection Hk as <-. exact Hnext.
    + rewrite lookup_insert_ne in Hk by exact Hne. apply (Hpr _ _ Hk).
  - intros c [= <-]. rewrite Hcap. repeat split; try assumption; lia.
Qed.

Lemma retrieve_pristine c p : pristine p -> pristine (MemoryPool.retrieve c p).
Proof.
  intros Hpr. unfold MemoryPool.retrieve.
  destruct c as [c|]; [|exact Hpr].
  destruct (Chunk.capacity c =? 0); [exact Hpr|].
  destruct (negb _); [exact Hpr|].
  intros k l Hk. simpl in Hk.
  destruct (MemoryPool.pool_ p !! Chunk.capacity c) as [next|] eqn:Hfree.
  - destruct (decide (Chunk.capacity c = k)) as [<- | Hne].
    + rewrite lookup_insert_eq in Hk. injection Hk as <-.
      constructor; [repeat split|apply (Hpr _ _ Hfree)].
    + rewrite lookup_insert_ne in Hk by exact Hne. apply (Hpr _ _ Hk).
  - destruct (decide (Chunk.capacity c = k)) as [<- | Hne].
    + rewrite lookup_insert_eq in Hk. injection Hk as <-.
      constructor; [repeat split|constructor].
    + rewrite lookup_insert_ne in Hk by exact Hne. apply (Hpr _ _ Hk).
Qed.

Lemma preallocate_chunks_pristine oom cs count p p' :
  pristine p -> MemoryPool.preallocate_chunks oom cs count p = inr p' -> pristine p'.
Proof.
  intros Hpr. unfold MemoryPool.preallocate_chunks.
  destruct (_ || _); [intros [= <-]; exact Hpr|].
  destruct oom; [discriminate|].
  destruct (_ <? _); [discriminate|].
  intros [= <-].
  assert (Hnew : Forall (fun ch => Chunk.capacity ch = cs /\ Chunk.length ch = 0 /\
                                   Chunk.head ch = 0)
                        (replicate (Z.to_nat count) (Chunk.new cs))).
  { apply Forall_forall. intros x Hx. apply elem_of_replicate in Hx as [-> _].
    repeat split. }
  intros k l Hk. simpl in Hk.
  destruct (MemoryPool.pool_ p !! cs) as [[|c next]|] eqn:Hfree;
    (destruct (decide (cs = k)) as [<- | Hne];
     [rewrite lookup_insert_eq in Hk; injection Hk as <-
     |rewrite lookup_insert_ne in Hk by exact Hne; apply (Hpr _ _ Hk)]).
  - exact Hnew.
  - apply Forall_app. split; [exact Hnew|apply (Hpr _ _ Hfree)].
  - exact Hnew.
Qed.

Lemma get_instance_pristine : pristine MemoryPool.get_instance.
Proof.
  pose proof ctor_get_instance as H.
  unfold MemoryPool.ctor, MemoryPool.initialize_pool in H.
  set (p0 := MemoryPool.mk _ _ _ _ _) in H.
  assert (H0 : pristine p0).
  { intros k l Hk. subst p0. simpl in Hk.
    rewrite (empty_classes_lookup MemoryPool.MEM_SIZES k l Hk). constructor. }
  apply and_then_inr in H as (p1 & H1 & H).
  apply and_then_inr in H as (p2 & H2 & H).
  apply and_then_inr in H as (p3 & H3 & H).
  apply and_then_inr in H as (p4 & H4 & H).
  apply and_then_inr in H as (p5 & H5 & H).
  pose proof (preallocate_chunks_pristine _ _ _ _ _ H0 H1) as C1.
  pose proof (preallocate_chunks_pristine _ _ _ _ _ C1 H2) as C2.
  pose proof (preallocate_chunks_pristine _ _ _ _ _ C2 H3) as C3.
  pose proof (preallocate_chunks_pristine _ _ _ _ _ C3 H4) as C4.
  pose proof (preallocate_chunks_pristine _ _ _ _ _ C4 H5) as C5.
  exact (preallocate_chunks_pristine _ _ _ _ _ C5 H).
Qed.

Lemma step_pristine op c :
  pristine (PoolClient.pool c) -> pristine (PoolClient.pool (PoolClient.step op c)).
Proof.
  intros Hpr. destruct op as [n oom | i | i len hd d | m]; simpl.
  - destruct (MemoryPool.alloc_chunk oom n (PoolClient.pool c)) as [r p'] eqn:Halloc.
    destruct (alloc_chunk_pristine _ _ _ _ _ Hpr Halloc) as [Hpr' _].
    destruct r; exact Hpr'.
  - destruct (PoolClient.held c !! i) as [ch|]; [|exact Hpr].
    exact (retrieve_pristine (Some ch) (PoolClient.pool c) Hpr).
  - destruct (PoolClient.held c !! i); exact Hpr.
  - exact Hpr.
Qed.

Lemma run_pristine ops c :
  pristine (PoolClient.pool c) -> pristine (PoolClient.pool (PoolClient.run ops c)).
Proof.
  revert c. induction ops as [|op ops IH]; intros c Hpr; [exact Hpr|].
  simpl. apply IH. apply step_pristine. exact Hpr.
Qed.

(** What a successful [ensure_capacity] leaves: a chunk rewound to head 0
    that stores the same bytes and has room for the addition. *)
Lemma ensure_capacity_makes_room oom add b p b1 p1 :
  pristine p -> buffer_in_bounds b ->
  OutputBuffer.ensure_capacity oom add b p = (true, b1, p1) ->
  0 < add <= 1024 * 1024 /\ pristine p1 /\
  exists c1,
    BufferBase.data_buf b1 = Some c1 /\
    Chunk.head c1 = 0 /\ Chunk.length c1 = stored_length b /\
    0 <= Chunk.length c1 /\
    Chunk.length c1 + add <= Chunk.capacity c1 /\ Chunk.capacity c1 < 2 ^ 64 /\
    (forall i, 0 <= i < stored_length b -> Chunk.data c1 i = stored b i).
Proof.
  intros Hpr Hb. unfold OutputBuffer.ensure_capacity.
  destruct (add <=? 0) eqn:H0; [discriminate|]. apply Z.leb_gt in H0.
  destruct (OutputBuffer.MAX_ALLOWED_SIZE <? add) eqn:H1; [discriminate|].
  apply Z.ltb_ge in H1. unfold OutputBuffer.MAX_ALLOWED_SIZE in H1.
  unfold safe_int_to_size.
  destruct (add <? 0) eqn:H2; [apply Z.ltb_lt in H2; lia|].
  rewrite (size_t_small add) by lia.
  unfold buffer_in_bounds, stored_length, stored in *.
  destruct (BufferBase.data_buf b) as [c|] eqn:Hdb.
  - destruct Hb as (Hh & Hl & Hfit & Hcap).
    pose proof (rewound_chunk c Hl) as Hc1.
    set (c1 := if negb (Chunk.head c =? 0) then Chunk.adjust c else c) in *.
    destruct Hc1 as (C1h & C1l & C1c & C1d).
    rewrite (size_t_small (Chunk.capacity c1 - Chunk.length c1)) by lia.
    destruct (add <=? Chunk.capacity c1 - Chunk.length c1) eqn:Hroom.
    + apply Z.leb_le in Hroom. intros [= <- <-].
      split; [lia|]. split; [exact Hpr|]. exists c1. simpl.
      repeat split; try assumption; try lia.
    + apply Z.leb_gt in Hroom. unfold safe_add.
      destruct (2 ^ 64 - 1 - add <? Chunk.length c1) eqn:Hov; [discriminate|].
      apply Z.ltb_ge in Hov.
      rewrite (size_t_small (Chunk.length c1 + add)) by lia.
      destruct (OutputBuffer.MAX_BUFFER_SIZE <? Chunk.length c1 + add) eqn:Hmax;
        [discriminate|].
      destruct (MemoryPool.alloc_chunk oom (Chunk.length c1 + add) p)
        as [[new_buf| |ex] p'] eqn:Halloc; try discriminate.
      destruct (alloc_chunk_pristine _ _ _ _ _ Hpr Halloc) as [Hpr' Hnew].
      destruct (Hnew new_buf eq_refl) as (_ & Ncap & Nlen & Nhd).
      intros [= <- <-].
      split; [lia|]. split; [exact (retrieve_pristine (Some c1) p' Hpr')|].
      unfold Chunk.copy.
      destruct (Chunk.length c1 =? 0) eqn:Hz.
      * apply Z.eqb_eq in Hz. eexists. simpl. split; [reflexivity|]. simpl.
        repeat split; lia.
      * destruct (Chunk.capacity new_buf <? Chunk.length c1) eqn:Hsmall;
          [apply Z.ltb_lt in Hsmall; lia|].
        eexists. simpl. split; [reflexivity|]. simpl.
        repeat split; try lia.
        intros i Hi. unfold memcpy.
        destruct (0 <=? i) eqn:Hi1; [|apply Z.leb_gt in Hi1; lia].
        destruct (i <? 0 + Chunk.length c1) eqn:Hi2; [|apply Z.ltb_ge in Hi2; lia].
        simpl. rewrite C1h. replace (0 + (i - 0)) with i by lia. apply C1d. exact Hi.
  - unfold BufferBase.DEFAULT_BUFFER_SIZE.
    destruct (Z.max add 4096 <? 0) eqn:H3; [apply Z.ltb_lt in H3; lia|].
    rewrite (size_t_small (Z.max add 4096)) by lia.
    destruct (MemoryPool.alloc_chunk oom (Z.max add 4096) p)
      as [[c| |ex] p'] eqn:Halloc; try discriminate.
    destruct (alloc_chunk_pristine _ _ _ _ _ Hpr Halloc) as [Hpr' Hnew].
    destruct (Hnew c eq_refl) as (_ & Ncap & Nlen & Nhd).
    intros [= <- <-].
    split; [lia|]. split; [exact Hpr'|]. exists c. simpl.
    repeat split; lia.
Qed.

(** X10. A [write_to_buf] of [len > 0] bytes that returns 0 has appended
    them: the buffer stores [len] more bytes, the bytes stored before are
    unchanged and in place, the new bytes follow them in order, and the
    stored bytes start at head 0 inside the storage. The free lists stay
    pristine, so the property carries over to the next call. *)
Theorem write_to_buf_appends :
  forall (oom : bool) (src : bytes) (len : Z) (b b' : BufferBase.t)
         (p p' : MemoryPool.t),
    pristine p -> buffer_in_bounds b -> 0 < len ->
    OutputBuffer.write_to_buf oom (Some src) len b p = (0, b', p') ->
    stored_length b' = stored_length b + len /\
    (forall i, 0 <= i < stored_length b -> stored b' i = stored b i) /\
    (forall i, 0 <= i < len -> stored b' (stored_length b + i) = src i) /\
    buffer_in_bounds b' /\ pristine p'.
Proof.
  intros oom src len b b' p p' Hpr Hb Hlen. unfold OutputBuffer.write_to_buf.
  destruct (len <=? 0) eqn:H0; [apply Z.leb_le in H0; lia|].
  destruct (1024 * 1024 <? len) eqn:H1; [discriminate|].
  destruct (OutputBuffer.ensure_capacity oom len b p) as [[ok b1] p1] eqn:Hens.
  destruct ok; simpl; [|discriminate].
  destruct (ensure_capacity_makes_room _ _ _ _ _ _ Hpr Hb Hens)
    as (Hadd & Hpr1 & c1 & Hc1 & Hh & Hl & Hl0 & Hroom & Hcap & Hdata).
  rewrite Hc1. intros [= <- <-].
  rewrite (size_t_small len) by lia.
  rewrite (size_t_small (Chunk.length c1 + len)) by lia.
  unfold stored_length at 1, stored, buffer_in_bounds, chunk_in_bounds, stored_byte. simpl.
  rewrite Hh, <- Hl.
  split; [reflexivity|]. split; [|split; [|split]].
  - intros i Hi. unfold memcpy.
    destruct (Chunk.length c1 <=? 0 + i) eqn:Hi1; [apply Z.leb_le in Hi1; lia|].
    simpl. rewrite Hdata by lia. unfold stored. reflexivity.
  - intros i Hi. unfold memcpy.
    destruct (Chunk.length c1 <=? 0 + (Chunk.length c1 + i)) eqn:Hi1;
      [|apply Z.leb_gt in Hi1; lia].
    destruct (0 + (Chunk.length c1 + i) <? Chunk.length c1 + len) eqn:Hi2;
      [|apply Z.ltb_ge in Hi2; lia].
    simpl. f_equal. lia.
  - lia.
  - exact Hpr1.
Qed.

Lemma write_to_buf_appends_witness :
  stored_length (snd (fst first_write)) = stored_length BufferBase.empty + 5 /\
  stored (snd (fst first_write)) (stored_length BufferBase.empty + 4) = letters_A 4.
Proof.
  destruct (write_to_buf_appends false letters_A 5 BufferBase.empty
              (snd (fst first_write)) MemoryPool.get_instance (snd first_write))
    as (Hlen & _ & Hnew & _).
  - exact get_instance_pristine.
  - exact I.
  - lia.
  - vm_compute. reflexivity.
  - split; [exact Hlen|apply Hnew; lia].
Defined.

(** X11. A chunk handed out by [alloc_chunk] is empty, whatever happened
    to the pool before: after any sequence of allocations, returns, writes
    into held chunks and changes of the cap, the chunk allocated for [n]
    bytes has the capacity of the smallest class holding [n], length 0 and
    head 0. (Its bytes are whatever the last holder left there.) *)
Theorem alloc_chunk_hands_out_empty_chunk :
  forall (ops : list PoolClient.Op) (oom : bool) (n : Z) (c : Chunk.t),
    fst (MemoryPool.alloc_chunk oom n
           (PoolClient.pool (PoolClient.run ops PoolClient.start)))
    = MemoryPool.Allocated c ->
    Chunk.capacity c = MemoryPool.find_suitable_size n /\
    n <= Chunk.capacity c /\
    Chunk.length c = 0 /\ Chunk.head c = 0.
Proof.
  intros ops oom n c Halloc.
  destruct (MemoryPool.alloc_chunk oom n
              (PoolClient.pool (PoolClient.run ops PoolClient.start)))
    as [r p'] eqn:Heq.
  simpl in Halloc.
  assert (Hpr : pristine (PoolClient.pool (PoolClient.run ops PoolClient.start))).
  { apply run_pristine. exact get_instance_pristine. }
  destruct (alloc_chunk_pristine _ _ _ _ _ Hpr Heq) as [_ Hc].
  destruct (Hc c Halloc) as (H1 & H2 & H3 & H4).
  repeat split; try assumption. lia.
Qed.

Lemma alloc_chunk_hands_out_empty_chunk_witness :
  Chunk.length (Chunk.mk 4096 0 0 zeroed) = 0 /\
  Chunk.head (Chunk.mk 4096 0 0 zeroed) = 0.
Proof.
  destruct (alloc_chunk_hands_out_empty_chunk sample_pool_run false 100
              (Chunk.mk 4096 0 0 zeroed)) as (_ & _ & Hl & Hh).
  - vm_compute. reflexivity.
  - split; [exact Hl|exact Hh].
Defined.

(** ** Output buffer: draining *)

(** X12. With the stored bytes at head 0, as the assertion before the
    write demands, when [write] takes [k > 0] of them [write_to_fd] returns
    [k] after that single call and the buffer stores what is left: [k]
    bytes fewer, the byte that was [k + i]-th now [i]-th. When [write]
    took everything, the buffer gives its chunk back to the pool and is
    empty. Otherwise the pool is not touched and the head of what is left
    is [k]: the next [write_to_fd] fails the assertion and aborts. *)
Theorem write_to_fd_drops_written_prefix :
  forall (fd : Z) (c : Chunk.t) (p : MemoryPool.t) (r : sysret) (rest : list sysret),
    0 <= fd -> chunk_in_bounds c -> Chunk.head c = 0 ->
    0 < ret r <= Chunk.length c -> ret r < 2 ^ 31 ->
    exists b' p',
      OutputBuffer.write_to_fd (r :: rest) fd (BufferBase.mk (Some c)) p
      = Returns (ret r, b', p', [SysWrite fd (Chunk.length c)], rest) /\
      stored_length b' = Chunk.length c - ret r /\
      (forall i, 0 <= i < Chunk.length c - ret r ->
                 stored b' i = stored_byte c (ret r + i)) /\
      (ret r = Chunk.length c ->
         b' = BufferBase.empty /\ p' = MemoryPool.retrieve (Some c) p) /\
      (ret r < Chunk.length c ->
         p' = p /\
         (exists c', BufferBase.data_buf b' = Some c' /\ Chunk.head c' = ret r) /\
         forall env, OutputBuffer.write_to_fd env fd b' p' = Aborts).
Proof.
  intros fd c p r rest Hfd (Hh & Hl & Hfit & Hcap) Hhead Hk Hint.
  unfold OutputBuffer.write_to_fd at 1. simpl.
  destruct (fd <? 0) eqn:H0; [apply Z.ltb_lt in H0; lia|].
  destruct (Chunk.length c =? 0) eqn:H1; [apply Z.eqb_eq in H1; lia|].
  rewrite Hhead. simpl.
  destruct (ret r =? -1) eqn:H2; [apply Z.eqb_eq in H2; lia|]. simpl.
  destruct (0 <? ret r) eqn:H3; [|apply Z.ltb_ge in H3; lia].
  rewrite (int_small (ret r)) by lia.
  unfold BufferBase.pop. simpl.
  destruct (ret r <=? 0) eqn:H4; [apply Z.leb_le in H4; lia|].
  rewrite (size_t_small (ret r)) by lia.
  destruct (Chunk.length c <? ret r) eqn:H5; [apply Z.ltb_lt in H5; lia|].
  unfold Chunk.pop.
  destruct (Chunk.length c <=? ret r) eqn:H6; simpl.
  - apply Z.leb_le in H6.
    exists BufferBase.empty, (MemoryPool.retrieve (Some c) p).
    split; [reflexivity|]. unfold stored_length, stored. simpl.
    split; [lia|]. split; [intros i Hi; lia|].
    split; [intros _; split; reflexivity|intros Hlt; lia].
  - apply Z.leb_gt in H6.
    rewrite (size_t_small (Chunk.length c - ret r)) by lia.
    destruct (Chunk.length c - ret r =? 0) eqn:H7; [apply Z.eqb_eq in H7; lia|].
    rewrite Hhead. rewrite (size_t_small (0 + ret r)) by lia.
    eexists _, p. split; [reflexivity|].
    unfold stored_length, stored, stored_byte. simpl.
    split; [reflexivity|]. split; [intros i Hi; f_equal; lia|].
    split; [intros He; lia|]. intros _. split; [reflexivity|].
    split; [eexists; split; [reflexivity|simpl; lia]|].
    intros env. unfold OutputBuffer.write_to_fd. simpl. rewrite H0, H7.
    destruct (0 + ret r =? 0) eqn:H8; [apply Z.eqb_eq in H8; lia|]. reflexivity.
Qed.

Lemma write_to_fd_drops_written_prefix_witness :
  exists b' p',
    OutputBuffer.write_to_fd [Sysret 2 0 zeroed] 7
      (BufferBase.mk (Some (Chunk.mk 4096 5 0 letters_A))) MemoryPool.get_instance
    = Returns (2, b', p', [SysWrite 7 5], []) /\
    stored_length b' = 3 /\
    OutputBuffer.write_to_fd [Sysret 3 0 zeroed] 7 b' p' = Aborts.
Proof.
  destruct (write_to_fd_drops_written_prefix 7 (Chunk.mk 4096 5 0 letters_A)
              MemoryPool.get_instance (Sysret 2 0 zeroed) [])
    as (b' & p' & Hrun & Hlen & _ & _ & Hpartial).
  - lia.
  - unfold chunk_in_bounds. simpl. lia.
  - reflexivity.
  - simpl. lia.
  - simpl. lia.
  - exists b', p'. split; [exact Hrun|]. split; [exact Hlen|].
    apply Hpartial. simpl. lia.
Defined.

(** ** Connection: after a shutdown, at a hang-up *)

Lemma run_kept_from_unconnected trace :
  no_connect_established trace ->
  forall w w', state_of w <> TcpConnection.kConnected ->
               TcpConnection.run trace w = Some w' -> kept w w'.
Proof.
  induction trace as [|[e op] rest IH]; intros Hno w w' Hs Hrun; simpl in Hrun.
  - injection Hrun as <-. apply kept_refl.
  - destruct (TcpConnection.step e op w) as [w1|] eqn:Hstep; [|discriminate].
    apply Forall_cons in Hno as [Hop Hrest]. simpl in Hop.
    assert (K : kept w w1).
    { apply move_from_unconnected; [exact Hs|].
      apply (step_move e op); assumption. }
    apply (kept_trans _ _ _ K). apply (IH Hrest); [|exact Hrun].
    destruct K as (A & _). rewrite A. exact Hs.
Qed.

Lemma shutdownInLoop_from_connected w :
  state_of w = TcpConnection.kConnected ->
  state_of (TcpConnection.shutdownInLoop w) = TcpConnection.kDisconnecting /\
  close_count (TcpConnection.shutdownInLoop w) = close_count w /\
  on_closed_count (TcpConnection.shutdownInLoop w) = on_closed_count w.
Proof.
  intros Hs. unfold state_of in Hs. unfold TcpConnection.shutdownInLoop.
  rewrite Hs. simpl.
  destruct (BufferBase.length _ =? 0);
    unfold state_of, close_count, on_closed_count; simpl;
    rewrite ?count_events_app; simpl; repeat split; lia.
Qed.

(** X13. A connection that was shut down is never closed by its own
    operations: after [shutdown] of a Connected connection, whatever
    follows (hang-up and error events, reads at end of file, writes, sends,
    further shutdowns), the state stays Disconnecting, the descriptor is
    not closed, the close callback does not run, and every [send] is
    refused without effect. *)
Theorem shutdown_connection_is_never_closed :
  forall (e0 : Env) (trace : list (Env * TcpConnection.Op))
         (w w' : TcpConnection.World),
    state_of w = TcpConnection.kConnected ->
    no_connect_established trace ->
    TcpConnection.run ((e0, TcpConnection.OpShutdown) :: trace) w = Some w' ->
    state_of w' = TcpConnection.kDisconnecting /\
    close_count w' = close_count w /\
    on_closed_count w' = on_closed_count w /\
    (forall e data len, TcpConnection.send e data len w' = Some (false, w')).
Proof.
  intros e0 trace w w' Hs Hno Hrun. simpl in Hrun.
  unfold TcpConnection.shutdown in Hrun.
  assert (Hc : TcpConnection.State_eqb (TcpConnection.state_ (TcpConnection.conn w))
                 TcpConnection.kConnected = true)
    by (apply State_eqb_eq; exact Hs).
  rewrite Hc in Hrun.
  destruct (shutdownInLoop_from_connected w Hs) as (A & B & C).
  assert (Hne : state_of (TcpConnection.shutdownInLoop w) <> TcpConnection.kConnected)
    by (rewrite A; discriminate).
  destruct (run_kept_from_unconnected trace Hno _ _ Hne Hrun) as (K1 & K2 & K3).
  assert (Hst : state_of w' = TcpConnection.kDisconnecting) by (rewrite K1; exact A).
  split; [exact Hst|]. split; [rewrite K3; exact B|]. split; [rewrite K2; exact C|].
  intros e data len. unfold TcpConnection.send.
  unfold state_of in Hst. rewrite Hst. reflexivity.
Qed.

Lemma shutdown_connection_is_never_closed_witness :
  exists w',
    TcpConnection.run ((idle_env, TcpConnection.OpShutdown) :: shutdown_then_hangup)
      established_connection = Some w' /\
    state_of w' = TcpConnection.kDisconnecting /\
    close_count w' = close_count established_connection.
Proof.
  eexists. split; [vm_compute; reflexivity|].
  destruct (shutdown_connection_is_never_closed idle_env shutdown_then_hangup
              established_connection _ ltac:(vm_compute; reflexivity)
              ltac:(repeat constructor) ltac:(vm_compute; reflexivity))
    as (H1 & H2 & _).
  split; [exact H1|exact H2].
Defined.

Lemma handle_close_only_tears_down e w :
  exists out,
    TcpConnection.log (TcpConnection.handle_close e w) = TcpConnection.log w ++ out /\
    forallb is_teardown out = true /\
    TcpConnection.input_buf_ (TcpConnection.conn (TcpConnection.handle_close e w))
    = TcpConnection.input_buf_ (TcpConnection.conn w) /\
    TcpConnection.pool (TcpConnection.handle_close e w) = TcpConnection.pool w.
Proof.
  unfold TcpConnection.handle_close.
  destruct (negb _).
  - exists []. rewrite app_nil_r. repeat split.
  - destruct w as [c l p lg]. destruct c as [fd ch ib ob ccb mcb clcb st]. simpl.
    destruct ch as [ch|]; simpl.
    + unfold ChannelOps.disable_all, ChannelOps.update, EventLoop.update_channel.
      simpl. destruct (ctl_ok e); simpl; destruct clcb; simpl;
        rewrite <- ?app_assoc; eexists; (split; [reflexivity|]); repeat split.
    + destruct clcb; simpl; rewrite <- ?app_assoc;
        eexists; (split; [reflexivity|]); repeat split.
Qed.

(** X14. An event that carries an error, a hang-up or the hang-up of the
    peer only tears the connection down, also when it announces data:
    [handle_event] makes no read and no write and runs no message
    callback; what it adds to the effects is the removal from the interest
    list, the close callback and the close. The input buffer and the pool
    are as before, and a Connected connection ends Disconnected. *)
Theorem handle_event_hangup_only_tears_down :
  forall (e : Env) (events : Z) (w : TcpConnection.World),
    Z.land events (Z.lor (Z.lor EPOLLERR EPOLLHUP) EPOLLRDHUP) <> 0 ->
    exists w' out,
      TcpConnection.handle_event e events w = Some w' /\
      TcpConnection.log w' = TcpConnection.log w ++ out /\
      forallb is_teardown out = true /\
      TcpConnection.input_buf_ (TcpConnection.conn w')
      = TcpConnection.input_buf_ (TcpConnection.conn w) /\
      TcpConnection.pool w' = TcpConnection.pool w /\
      (state_of w = TcpConnection.kConnected ->
       state_of w' = TcpConnection.kDisconnected).
Proof.
  intros e events w Hbits.
  assert (Hclose : TcpConnection.handle_event e events w
                   = Some (TcpConnection.handle_close e w)).
  { unfold TcpConnection.handle_event, TcpConnection.handle_error.
    destruct (Z.land events (Z.lor EPOLLERR EPOLLHUP) =? 0) eqn:H1; [|reflexivity].
    destruct (Z.land events EPOLLRDHUP =? 0) eqn:H2; [|reflexivity].
    exfalso. apply Hbits. apply Z.eqb_eq in H1, H2.
    rewrite Z.land_lor_distr_r, H1, H2. reflexivity. }
  destruct (handle_close_only_tears_down e w) as (out & Hlog & Hout & Hin & Hpool).
  exists (TcpConnection.handle_close e w), out.
  split; [exact Hclose|]. split; [exact Hlog|]. split; [exact Hout|].
  split; [exact Hin|]. split; [exact Hpool|].
  intros Hs. apply (handle_close_from_connected e w Hs).
Qed.

Lemma handle_event_hangup_only_tears_down_witness :
  exists w' out,
    TcpConnection.handle_event would_block data_and_hangup established_connection
    = Some w' /\
    TcpConnection.log w' = TcpConnection.log established_connection ++ out /\
    forallb is_teardown out = true.
Proof.
  destruct (handle_event_hangup_only_tears_down would_block data_and_hangup
              established_connection) as (w' & out & H1 & H2 & H3 & _).
  - vm_compute. discriminate.
  - exists w', out. split; [exact H1|]. split; [exact H2|exact H3].
Defined.

Lemma write_to_fd_takes_all fd c p r rest :
  0 <= fd -> Chunk.head c = 0 ->
  0 < Chunk.length c < 2 ^ 31 -> ret r = Chunk.length c ->
  OutputBuffer.write_to_fd (r :: rest) fd (BufferBase.mk (Some c)) p
  = Returns (Chunk.length c, BufferBase.empty, MemoryPool.retrieve (Some c) p,
             [SysWrite fd (Chunk.length c)], rest).
Proof.
  intros Hfd Hhead Hl Hr. unfold OutputBuffer.write_to_fd. simpl.
  destruct (fd <? 0) eqn:H0; [apply Z.ltb_lt in H0; lia|].
  destruct (Chunk.length c =? 0) eqn:H1; [apply Z.eqb_eq in H1; lia|].
  rewrite Hhead. simpl.
  destruct (ret r =? -1) eqn:H2; [apply Z.eqb_eq in H2; lia|]. simpl.
  rewrite !Hr.
  destruct (0 <? Chunk.length c) eqn:H3; [|apply Z.ltb_ge in H3; lia].
  rewrite (int_small (Chunk.length c)) by lia.
  unfold BufferBase.pop. simpl.
  destruct (Chunk.length c <=? 0) eqn:H4; [apply Z.leb_le in H4; lia|].
  rewrite (size_t_small (Chunk.length c)) by lia.
  rewrite Z.ltb_irrefl. unfold Chunk.pop. rewrite Z.leb_refl. simpl. reflexivity.
Qed.

Lemma update_channel_no_shutdown ok ch l :
  count_events is_SysShutdownWr (snd (EventLoop.update_channel ok ch l)) = 0%nat.
Proof.
  unfold EventLoop.update_channel.
  destruct (_ =? 0); [destruct ok; reflexivity|].
  destruct (_ !! _); destruct ok; reflexivity.
Qed.

(** X15. A shutdown with output pending does not half-close at once:
    [shutdownInLoop] only marks the connection Disconnecting, and the
    [shutdown(SHUT_WR)] is issued by the [handle_write] that writes the
    last stored byte, after that write, exactly once; the output buffer is
    then empty. The pending bytes lie inside their chunk at head 0, as
    the assertion of [write_to_fd] demands. *)
Theorem half_close_waits_for_output :
  forall (e : Env) (w : TcpConnection.World) (c ch : _) (r : sysret)
         (rest : list sysret),
    state_of w = TcpConnection.kConnected ->
    TcpConnection.output_buf_ (TcpConnection.conn w) = BufferBase.mk (Some c) ->
    chunk_in_bounds c -> Chunk.head c = 0 ->
    0 < Chunk.length c < 2 ^ 31 ->
    TcpConnection.channel_ (TcpConnection.conn w) = Some ch ->
    0 <= TcpConnection.connfd_ (TcpConnection.conn w) ->
    sys e = r :: rest -> ret r = Chunk.length c ->
    TcpConnection.log (TcpConnection.shutdownInLoop w) = TcpConnection.log w /\
    state_of (TcpConnection.shutdownInLoop w) = TcpConnection.kDisconnecting /\
    exists w2,
      TcpConnection.handle_write e (TcpConnection.shutdownInLoop w) = Some (w2, rest) /\
      count_events is_SysShutdownWr (TcpConnection.log w2)
      = S (count_events is_SysShutdownWr (TcpConnection.log w)) /\
      last (TcpConnection.log w2)
      = Some (SysShutdownWr (TcpConnection.connfd_ (TcpConnection.conn w))) /\
      TcpConnection.output_buf_ (TcpConnection.conn w2) = BufferBase.empty /\
      state_of w2 = TcpConnection.kDisconnecting.
Proof.
  intros e w c ch r rest Hs Hout Hbounds Hhead Hlen Hch Hfd Hsys Hret.
  destruct w as [cn l p lg]. destruct cn as [fd ch0 ib ob ccb mcb clcb st].
  unfold state_of in *. simpl in *. subst st ob ch0.
  unfold TcpConnection.shutdownInLoop. simpl.
  unfold BufferBase.length. simpl. rewrite (int_small (Chunk.length c)) by lia.
  destruct (Chunk.length c =? 0) eqn:H0; [apply Z.eqb_eq in H0; lia|]. simpl.
  split; [reflexivity|]. split; [reflexivity|].
  unfold TcpConnection.handle_write. simpl. rewrite Hsys.
  rewrite (write_to_fd_takes_all fd c p r rest Hfd Hhead Hlen Hret).
  destruct (Chunk.length c <? 0) eqn:H1; [apply Z.ltb_lt in H1; lia|].
  simpl. unfold TcpConnection.on_channel. simpl.
  unfold ChannelOps.disable_write, ChannelOps.update.
  pose proof (update_channel_no_shutdown (ctl_ok e)
                (Channel.set_events
                   (unsigned (Z.land (Channel.events ch) (Z.lnot EPOLLOUT))) ch) l)
    as Hquiet.
  destruct (EventLoop.update_channel _ _ l) as [l' out]. simpl in Hquiet. simpl.
  eexists. split; [reflexivity|]. simpl.
  rewrite !count_events_app, Hquiet. simpl.
  split; [lia|]. split; [apply last_snoc|]. split; reflexivity.
Qed.

Lemma half_close_waits_for_output_witness :
  TcpConnection.log (TcpConnection.shutdownInLoop pending_output)
  = TcpConnection.log pending_output /\
  exists w2,
    TcpConnection.handle_write takes_five (TcpConnection.shutdownInLoop pending_output)
    = Some (w2, []) /\
    last (TcpConnection.log w2) = Some (SysShutdownWr 7).
Proof.
  destruct (half_close_waits_for_output takes_five pending_output
              (Chunk.mk 4096 5 0 letters_A)
              (Channel.mk 1 7 (Z.lor EPOLLIN EPOLLRDHUP) true true)
              (Sysret 5 0 zeroed) [])
    as (H1 & _ & w2 & H2 & _ & H3 & _).
  - vm_compute. reflexivity.
  - reflexivity.
  - unfold chunk_in_bounds. simpl. lia.
  - reflexivity.
  - simpl. lia.
  - vm_compute. reflexivity.
  - vm_compute. discriminate.
  - reflexivity.
  - reflexivity.
  - split; [exact H1|]. exists w2. split; [exact H2|exact H3].
Defined.

(** ** Event loop: registry and interest list *)

(** X16. The registry of the loop and the interest list of the kernel
    know the same descriptors, and stay so: [update_channel] keeps them in
    step unless a delete fails, also when an add or a modify fails, and
    [remove_channel] keeps them in step when its delete succeeds. Being in
    step, the loop adds only descriptors the kernel does not watch and
    modifies only descriptors it watches. A failed delete breaks the
    agreement: the registry has forgotten a descriptor the kernel still
    watches. *)
Theorem registry_stays_in_sync :
  forall (ok : bool) (ch : Channel.t) (l : EventLoop.t),
    in_sync l ->
    (ok = true \/ int (Channel.events ch) <> 0 ->
       in_sync (fst (EventLoop.update_channel ok ch l))) /\
    in_sync (fst (EventLoop.remove_channel true ch l)) /\
    (forall fd ev, head (snd (EventLoop.update_channel ok ch l)) = Some (EpollCtlAdd fd ev) ->
                   EventLoop.epoller_ l !! fd = None) /\
    (forall fd ev, head (snd (EventLoop.update_channel ok ch l)) = Some (EpollCtlMod fd ev) ->
                   is_Some (EventLoop.epoller_ l !! fd)) /\
    (is_Some (EventLoop.epoller_ l !! Channel.fd ch) ->
       ~ in_sync (fst (EventLoop.remove_channel false ch l))).
Proof.
  intros ok ch l Hsync.
  assert (Hdel : in_sync (EventLoop.mk (delete (Channel.fd ch) (EventLoop.epoller_ l))
                                       (delete (Channel.fd ch) (EventLoop.channels_ l)))).
  { intros fd. simpl.
    pose proof (lookup_delete_is_Some (EventLoop.channels_ l) (Channel.fd ch) fd) as Hc.
    pose proof (lookup_delete_is_Some (EventLoop.epoller_ l : gmap Z Z)
                  (Channel.fd ch) fd) as Hk.
    specialize (Hsync fd). tauto. }
  split; [|split; [|split; [|split]]].
  - intros Hcase. unfold EventLoop.update_channel.
    destruct (int (Channel.events ch) =? 0) eqn:Hz.
    + apply Z.eqb_eq in Hz. destruct Hcase as [-> | Hne]; [|contradiction].
      simpl. exact Hdel.
    + destruct (EventLoop.channels_ l !! Channel.fd ch) as [a|] eqn:Hreg;
        destruct ok; simpl; try exact Hsync.
      * intros fd. simpl.
        pose proof (lookup_insert_is_Some (EventLoop.epoller_ l : gmap Z Z)
                      (Channel.fd ch) fd (Channel.events ch)) as Hk.
        specialize (Hsync fd).
        destruct (decide (Channel.fd ch = fd)) as [<- | Hne].
        -- split; intros _; [apply Hk; left; reflexivity|rewrite Hreg; eexists; reflexivity].
        -- tauto.
      * intros fd. simpl.
        pose proof (lookup_insert_is_Some (EventLoop.channels_ l)
                      (Channel.fd ch) fd (Channel.addr ch)) as Hc.
        pose proof (lookup_insert_is_Some (EventLoop.epoller_ l : gmap Z Z)
                      (Channel.fd ch) fd (Channel.events ch)) as Hk.
        specialize (Hsync fd). tauto.
  - simpl. exact Hdel.
  - intros fd ev. unfold EventLoop.update_channel.
    destruct (int (Channel.events ch) =? 0); [destruct ok; discriminate|].
    destruct (EventLoop.channels_ l !! Channel.fd ch) as [a|] eqn:Hreg;
      [destruct ok; discriminate|].
    assert (Hnone : EventLoop.epoller_ l !! Channel.fd ch = None).
    { destruct (EventLoop.epoller_ l !! Channel.fd ch) eqn:Hk; [|reflexivity].
      assert (Hs : is_Some (EventLoop.channels_ l !! Channel.fd ch))
        by (apply Hsync; rewrite Hk; eexists; reflexivity).
      rewrite Hreg in Hs. destruct Hs as [x Hx]. discriminate. }
    destruct ok; simpl; intros [= <- _]; exact Hnone.
  - intros fd ev. unfold EventLoop.update_channel.
    destruct (int (Channel.events ch) =? 0); [destruct ok; discriminate|].
    destruct (EventLoop.channels_ l !! Channel.fd ch) as [a|] eqn:Hreg;
      [|destruct ok; discriminate].
    assert (Hsome : is_Some (EventLoop.epoller_ l !! Channel.fd ch))
      by (apply Hsync; rewrite Hreg; eexists; reflexivity).
    destruct ok; simpl; intros [= <- _]; exact Hsome.
  - intros Hk Hbad. specialize (Hbad (Channel.fd ch)). simpl in Hbad.
    apply Hbad in Hk. rewrite lookup_delete_eq in Hk. destruct Hk as [x Hx].
    discriminate.
Qed.

Lemma registry_stays_in_sync_witness :
  in_sync (fst (EventLoop.update_channel true reading_channel fresh_loop)) /\
  in_sync (fst (EventLoop.update_channel false reading_channel fresh_loop)).
Proof.
  assert (H0 : in_sync fresh_loop).
  { intros fd. unfold fresh_loop. simpl.
    split; intros [x Hx]; apply lookup_empty_Some in Hx; contradiction. }
  destruct (registry_stays_in_sync true reading_channel fresh_loop H0) as (H1 & _).
  destruct (registry_stays_in_sync false reading_channel fresh_loop H0) as (H2 & _).
  split; [apply H1; left; reflexivity|apply H2; right; vm_compute; discriminate].
Defined.

(** ** Channel: the interest mask *)

Lemma uint32_high_bits (z n : Z) : 0 <= z < 2 ^ 32 -> 32 <= n -> Z.testbit z n = false.
Proof.
  intros Hz Hn. rewrite <- (Z.mod_small z (2 ^ 32)) by exact Hz.
  apply Z.mod_pow2_bits_high. lia.
Qed.

Lemma EPOLLOUT_bit (n : Z) : 0 <= n -> Z.testbit EPOLLOUT n = (n =? 2).
Proof.
  intros Hn. change EPOLLOUT with (2 ^ 2). rewrite Z.pow2_bits_eqb by lia.
  apply Z.eqb_sym.
Qed.

(** X17. Write interest is one bit of the mask, and switching it leaves
    the others alone: [enable_write] sets bit 2 (EPOLLOUT) and
    [disable_write] clears it, every other bit of the mask is as before
    (so a channel goes on reading), and the mask stays a 32-bit value.
    Hence enabling and then disabling write interest gives back the mask
    of a channel that had none. *)
Theorem write_interest_is_one_bit :
  forall (ok ok' : bool) (ch : Channel.t) (l l' : EventLoop.t),
    0 <= Channel.events ch < 2 ^ 32 ->
    let on := fst (fst (ChannelOps.enable_write ok ch l)) in
    let off := fst (fst (ChannelOps.disable_write ok ch l)) in
    (forall n, 0 <= n ->
       Z.testbit (Channel.events on) n = (n =? 2) || Z.testbit (Channel.events ch) n) /\
    (forall n, 0 <= n ->
       Z.testbit (Channel.events off) n
       = negb (n =? 2) && Z.testbit (Channel.events ch) n) /\
    0 <= Channel.events on < 2 ^ 32 /\
    (Z.testbit (Channel.events ch) 2 = false ->
       Channel.events (fst (fst (ChannelOps.disable_write ok' on l')))
       = Channel.events ch).
Proof.
  intros ok ok' ch l l' Hev on off.
  assert (Hon : Channel.events on = Z.lor (Channel.events ch) EPOLLOUT).
  { subst on. unfold ChannelOps.enable_write, ChannelOps.update.
    destruct (EventLoop.update_channel _ _ l). reflexivity. }
  assert (Hoff : forall ok0 c0 l0,
            Channel.events (fst (fst (ChannelOps.disable_write ok0 c0 l0)))
            = unsigned (Z.land (Channel.events c0) (Z.lnot EPOLLOUT))).
  { intros ok0 c0 l0. unfold ChannelOps.disable_write, ChannelOps.update.
    destruct (EventLoop.update_channel _ _ l0). reflexivity. }
  assert (Hbits : forall z n, 0 <= z < 2 ^ 32 -> 0 <= n ->
            Z.testbit (unsigned (Z.land z (Z.lnot EPOLLOUT))) n
            = negb (n =? 2) && Z.testbit z n).
  { intros z n Hz Hn. unfold unsigned.
    destruct (Z_lt_ge_dec n 32) as [Hlt | Hge].
    - rewrite Z.mod_pow2_bits_low by lia.
      rewrite Z.land_spec, Z.lnot_spec, EPOLLOUT_bit by lia. apply andb_comm.
    - rewrite Z.mod_pow2_bits_high by lia.
      rewrite (uint32_high_bits z n Hz) by lia. rewrite andb_false_r. reflexivity. }
  assert (Hrange : 0 <= Z.lor (Channel.events ch) EPOLLOUT < 2 ^ 32).
  { split.
    - apply Z.lor_nonneg. split; [lia|unfold EPOLLOUT; lia].
    - apply Z.log2_lt_cancel. 
      destruct (Z.eq_dec (Z.lor (Channel.events ch) EPOLLOUT) 0) as [-> | Hnz];
        [simpl; lia|].
      rewrite Z.log2_lor by (unfold EPOLLOUT; lia).
      change (Z.log2 (2 ^ 32)) with 32. change (Z.log2 EPOLLOUT) with 2.
      destruct (Z.eq_dec (Channel.events ch) 0) as [-> | Hpos]; [simpl; lia|].
      assert (Z.log2 (Channel.events ch) < 32) by (apply Z.log2_lt_pow2; lia).
      lia. }
  split; [|split; [|split]].
  - intros n Hn. rewrite Hon, Z.lor_spec, EPOLLOUT_bit by lia. apply orb_comm.
  - intros n Hn. subst off. rewrite Hoff. apply Hbits; assumption.
  - rewrite Hon. exact Hrange.
  - intros Hclear. rewrite Hoff, Hon. apply Z.bits_inj'. intros n Hn.
    rewrite Hbits by (assumption || lia).
    rewrite Z.lor_spec, EPOLLOUT_bit by lia.
    destruct (Z.eqb_spec n 2) as [-> | Hne]; simpl;
      [symmetry; exact Hclear|apply orb_false_r].
Qed.

Lemma write_interest_is_one_bit_witness :
  Channel.events
    (fst (fst (ChannelOps.disable_write true
                 (fst (fst (ChannelOps.enable_write true reading_channel fresh_loop)))
                 fresh_loop)))
  = Channel.events reading_channel.
Proof.
  destruct (write_interest_is_one_bit true true reading_channel fresh_loop fresh_loop)
    as (_ & _ & _ & H).
  - vm_compute. split; congruence.
  - apply H. reflexivity.
Defined.

(** ** Loop pool: dispatch in turn *)

Lemma get_next_loop_started (m : nat) (i : Z) :
  (0 < m)%nat -> 0 <= i < 2 ^ 64 - 1 ->
  EventLoopThreadPool.get_next_loop (started_pool m i)
  = (Some (WorkerLoop (Z.to_nat (i mod Z.of_nat m))), started_pool m (i + 1)).
Proof.
  intros Hm Hi. unfold EventLoopThreadPool.get_next_loop, started_pool. simpl.
  destruct (map WorkerLoop (seq 0 m)) as [|x xs] eqn:Hthreads.
  - apply (f_equal length) in Hthreads. rewrite length_map, length_seq in Hthreads.
    simpl in Hthreads. lia.
  - rewrite <- Hthreads. rewrite length_map, length_seq.
    rewrite (size_t_small (i + 1)) by lia.
    f_equal.
    assert (Hlt : (Z.to_nat (i mod Z.of_nat m) < m)%nat).
    { pose proof (Z.mod_pos_bound i (Z.of_nat m) ltac:(lia)). lia. }
    change (map WorkerLoop (seq 0 m)) with (WorkerLoop <$> seq 0 m).
    rewrite list_lookup_fmap, (lookup_seq_lt _ _ _ Hlt). reflexivity.
Qed.

Lemma next_loops_started (m : nat) (k : nat) :
  (0 < m)%nat ->
  forall i, 0 <= i -> i + Z.of_nat k < 2 ^ 64 ->
  next_loops k (started_pool m i)
  = (map (fun j => Some (WorkerLoop (Z.to_nat ((i + Z.of_nat j) mod Z.of_nat m))))
         (seq 0 k),
     started_pool m (i + Z.of_nat k)).
Proof.
  intros Hm. induction k as [|k IH]; intros i Hi Hk.
  - simpl. rewrite Z.add_0_r. reflexivity.
  - cbn [next_loops]. rewrite get_next_loop_started by (assumption || lia).
    rewrite IH by lia. cbn [seq map]. rewrite Z.add_0_r.
    f_equal; [|f_equal; lia].
    f_equal. rewrite <- seq_shift, map_map.
    apply map_ext. intros j. do 4 f_equal. lia.
Qed.

(** X18. A started pool of [n] worker loops hands them out in turn:
    the [j]-th call of [get_next_loop] (counting from 0) returns worker
    [j mod n], never a null pointer, as long as the 64-bit counter has not
    wrapped around. *)
Theorem get_next_loop_round_robin :
  forall (hardware_concurrency n : Z) (k : nat),
    0 < n < 2 ^ 31 -> Z.of_nat k < 2 ^ 64 ->
    fst (next_loops k
           (EventLoopThreadPool.start (EventLoopThreadPool.ctor hardware_concurrency n)))
    = map (fun j => Some (WorkerLoop (Z.to_nat (Z.of_nat j mod n)))) (seq 0 k).
Proof.
  intros hw n k Hn Hk.
  assert (Hstart : EventLoopThreadPool.start (EventLoopThreadPool.ctor hw n)
                   = started_pool (Z.to_nat n) 0).
  { unfold EventLoopThreadPool.ctor.
    destruct (0 <? n) eqn:Hpos; [|apply Z.ltb_ge in Hpos; lia].
    rewrite (unsigned_small n) by lia. rewrite (int_small n) by lia.
    destruct (n <? 0) eqn:Hneg; [apply Z.ltb_lt in Hneg; lia|].
    unfold EventLoopThreadPool.start. simpl.
    destruct (n <=? 0) eqn:Hle; [apply Z.leb_le in Hle; lia|].
    unfold started_pool. rewrite Z2Nat.id by lia. reflexivity. }
  rewrite Hstart, next_loops_started by lia. simpl.
  apply map_ext. intros j. rewrite Z2Nat.id by lia. reflexivity.
Qed.

Lemma get_next_loop_round_robin_witness :
  fst (next_loops 5 (EventLoopThreadPool.start (EventLoopThreadPool.ctor 8 2)))
  = [Some (WorkerLoop 0); Some (WorkerLoop 1); Some (WorkerLoop 0);
     Some (WorkerLoop 1); Some (WorkerLoop 0)].
Proof.
  rewrite (get_next_loop_round_robin 8 2 5) by (simpl; lia). reflexivity.
Defined.

(** ** Server: the connection table, the accept loop *)

(** X19. The connection table is keyed by descriptor. [add_new_tcp_conn]
    registers a connection under a positive descriptor that is not yet in
    the table, and the count grows by one; a descriptor that is 0 or
    negative is refused, and for a descriptor already in the table the
    table keeps the connection it has; other descriptors are not touched.
    [remove_tcp_conn] removes the descriptor from the idle manager and,
    for a descriptor that is not in the table, returns with the server
    unchanged. For a descriptor that is in the table, so after
    [add_new_tcp_conn], it does not return: holding the lock of the table
    it calls [connection_count], which takes the same lock. *)
Theorem add_new_tcp_conn_registers_once :
  forall (c : TcpConnection.t) (s : TcpServer.t)
         (idle : option ConnectionTimeoutManager.t),
    let fd := TcpConnection.connfd_ c in
    (0 < fd -> TcpServer.connections_ s !! fd = None ->
       TcpServer.connections_ (TcpServer.add_new_tcp_conn c s) !! fd = Some c /\
       TcpServer.connection_count (TcpServer.add_new_tcp_conn c s)
       = TcpServer.connection_count s + 1 /\
       TcpServer.remove_tcp_conn c idle (TcpServer.add_new_tcp_conn c s) = None) /\
    (fd <= 0 \/ is_Some (TcpServer.connections_ s !! fd) ->
       TcpServer.add_new_tcp_conn c s = s) /\
    (forall fd', fd' <> fd ->
       TcpServer.connections_ (TcpServer.add_new_tcp_conn c s) !! fd'
       = TcpServer.connections_ s !! fd') /\
    (is_Some (TcpServer.connections_ s !! fd) ->
       TcpServer.remove_tcp_conn c idle s = None) /\
    (TcpServer.connections_ s !! fd = None ->
       TcpServer.remove_tcp_conn c idle s
       = Some (s, option_map (ConnectionTimeoutManager.remove_connection fd) idle)).
Proof.
  intros c s idle fd. split; [|split; [|split; [|split]]].
  - intros Hpos Hnone. unfold TcpServer.add_new_tcp_conn. fold fd.
    destruct (fd <=? 0) eqn:H0; [apply Z.leb_le in H0; lia|].
    rewrite Hnone. unfold TcpServer.connection_count, TcpServer.remove_tcp_conn. simpl.
    fold fd. split; [apply lookup_insert_eq|]. split.
    + rewrite map_size_insert_None by exact Hnone. lia.
    + rewrite lookup_insert_eq. reflexivity.
  - unfold TcpServer.add_new_tcp_conn. fold fd. intros [Hle | [x Hx]].
    + destruct (fd <=? 0) eqn:H0; [reflexivity|apply Z.leb_gt in H0; lia].
    + destruct (fd <=? 0); [reflexivity|]. rewrite Hx. reflexivity.
  - intros fd' Hne. unfold TcpServer.add_new_tcp_conn. fold fd.
    destruct (fd <=? 0); [reflexivity|].
    destruct (TcpServer.connections_ s !! fd); [reflexivity|].
    simpl. apply lookup_insert_ne. congruence.
  - intros [x Hx]. unfold TcpServer.remove_tcp_conn. fold fd. rewrite Hx. reflexivity.
  - intros Hnone. unfold TcpServer.remove_tcp_conn. fold fd. rewrite Hnone. reflexivity.
Qed.

Lemma add_new_tcp_conn_registers_once_witness :
  TcpServer.connections_
    (TcpServer.add_new_tcp_conn (TcpConnection.new 7 true true true) sample_server) !! 7
  = Some (TcpConnection.new 7 true true true) /\
  TcpServer.remove_tcp_conn (TcpConnection.new 7 true true true) None
    (TcpServer.add_new_tcp_conn (TcpConnection.new 7 true true true) sample_server)
  = None.
Proof.
  destruct (add_new_tcp_conn_registers_once (TcpConnection.new 7 true true true)
              sample_server None) as (H & _).
  destruct H as (H1 & _ & H2); [simpl; lia|reflexivity|].
  split; [exact H1|exact H2].
Defined.

Lemma get_next_loop_keeps_table s :
  TcpServer.connections_ (snd (TcpServer.get_next_loop s)) = TcpServer.connections_ s.
Proof.
  unfold TcpServer.get_next_loop.
  destruct (_ =? 0); [reflexivity|].
  destruct (EventLoopThreadPool.get_next_loop _) as [[l|] tp]; reflexivity.
Qed.

(** X20. The accept loop takes every pending connection: when [accept4]
    answers the descriptors [fds] (positive, distinct, new to the table)
    and then EAGAIN, [do_accept] returns after [length fds + 1] calls of
    [accept4]; each descriptor is in the table with its connection and
    was handed to a loop for [connect_established], in the order of
    arrival; the rest of the table and the acceptor are as before. *)
Theorem do_accept_takes_all_pending :
  forall (fds : list Z) (rest : list sysret) (a : Acceptor.t) (s : TcpServer.t),
    Forall (fun fd => 0 < fd) fds -> NoDup fds ->
    Forall (fun fd => TcpServer.connections_ s !! fd = None) fds ->
    exists s' out,
      Acceptor.do_accept (map answered fds ++ failed EAGAIN :: rest) a s
      = Some (a, s', out, rest) /\
      (forall fd, fd ∈ fds ->
         TcpServer.connections_ s' !! fd = Some (TcpConnection.new fd true true true)) /\
      (forall fd, fd ∉ fds ->
         TcpServer.connections_ s' !! fd = TcpServer.connections_ s !! fd) /\
      established_fds out = fds /\
      count_events is_SysAccept4 out = S (length fds).
Proof.
  induction fds as [|fd fds IH]; intros rest a s Hpos Hnd Hnew.
  - exists s, [SysAccept4 (Acceptor.listen_fd_ a)]. simpl.
    split; [reflexivity|]. split; [intros fd Hin; inversion Hin|].
    repeat split.
  - apply Forall_cons in Hpos as [Hfd Hpos]. apply NoDup_cons in Hnd as [Hnotin Hnd].
    apply Forall_cons in Hnew as [Hnone Hnew].
    cbn [map app Acceptor.do_accept answered ret].
    destruct (fd <? 0) eqn:H0; [apply Z.ltb_lt in H0; lia|].
    pose proof (get_next_loop_keeps_table s) as Htable.
    destruct (TcpServer.get_next_loop s) as [io_loop s1]. simpl in Htable.
    set (c := TcpConnection.new fd true true true).
    assert (Hadd : TcpServer.connections_ (TcpServer.add_new_tcp_conn c s1)
                   = <[fd := c]> (TcpServer.connections_ s)).
    { unfold TcpServer.add_new_tcp_conn. simpl.
      destruct (fd <=? 0) eqn:H1; [apply Z.leb_le in H1; lia|].
      rewrite Htable, Hnone. reflexivity. }
    destruct (IH rest a (TcpServer.add_new_tcp_conn c s1) Hpos Hnd)
      as (s' & out & Hrun & Hin & Hout & Hest & Hcount).
    { apply Forall_forall. intros x Hx. rewrite Hadd.
      rewrite lookup_insert_ne by (intros ->; contradiction).
      rewrite Forall_forall in Hnew. apply Hnew. exact Hx. }
    change (map answered fds) with (answered <$> fds) in Hrun. 
    change (map answered fds) with (answered <$> fds).
    rewrite Hrun. simpl.
    eexists s', _. split; [reflexivity|].
    split; [|split; [|split]].
    + intros x Hx. apply elem_of_cons in Hx as [-> | Hx]; [|apply Hin; exact Hx].
      rewrite (Hout fd Hnotin), Hadd. apply lookup_insert_eq.
    + intros x Hx. rewrite not_elem_of_cons in Hx. destruct Hx as [Hne Hx].
      rewrite (Hout x Hx), Hadd. apply lookup_insert_ne. congruence.
    + rewrite <- Hest. reflexivity.
    + simpl. rewrite Hcount. reflexivity.
Qed.

Lemma do_accept_takes_all_pending_witness :
  exists s' out,
    Acceptor.do_accept (map answered [7; 9] ++ failed EAGAIN :: []) sample_acceptor
      sample_server = Some (sample_acceptor, s', out, []) /\
    established_fds out = [7; 9].
Proof.
  destruct (do_accept_takes_all_pending [7; 9] [] sample_acceptor sample_server)
    as (s' & out & Hrun & _ & _ & Hest & _).
  - repeat constructor.
  - apply (bool_decide_unpack _). vm_compute. exact I.
  - repeat constructor.
  - exists s', out. split; [exact Hrun|exact Hest].
Defined.

(** ** Time wheel: how long an entry stays *)

Lemma scan_slot_kept_NoDup now T es :
  forall h, NoDup (omap id es) ->
            NoDup (omap id (ConnectionTimeoutManager.scan_slot now T es h).1.2).
Proof.
  induction es as [|[b|] es IH]; intros h Hnd.
  - constructor.
  - simpl in Hnd. apply NoDup_cons in Hnd as [Hb Hnd].
    assert (Hb_rest : Some b ∉ es).
    { intros H. apply Hb. apply list_elem_of_omap. exists (Some b).
      split; [exact H|reflexivity]. }
    assert (Hcons : forall h1,
              NoDup (omap id (Some b :: (ConnectionTimeoutManager.scan_slot now T es h1).1.2))).
    { intros h1. simpl. apply NoDup_cons. split; [|apply IH; exact Hnd].
      intros H. apply list_elem_of_omap in H as (x & Hx & Hid).
      destruct x as [x|]; [|discriminate]. simpl in Hid. injection Hid as ->.
      apply Hb_rest. apply (proj1 (scan_slot_within now T es h1 b)). exact Hx. }
    destruct (h !! b) as [en|] eqn:Hhb.
    + rewrite (scan_slot_cons _ _ _ _ _ _ Hhb). simpl.
      specialize (Hcons (if 0 <? ConnectionTimeoutManager.remaining_ticks en
                         then <[b := ConnectionTimeoutManager.decrement en]> h else h)).
      specialize (IH (if 0 <? ConnectionTimeoutManager.remaining_ticks en
                      then <[b := ConnectionTimeoutManager.decrement en]> h else h) Hnd).
      destruct (ConnectionTimeoutManager.scan_slot _ _ _ _) as [[h' k] x]. simpl in *.
      destruct (negb _ && _); [exact IH|exact Hcons].
    + simpl. rewrite Hhb. specialize (Hcons h).
      destruct (ConnectionTimeoutManager.scan_slot _ _ _ _) as [[h' k] x]. exact Hcons.
  - simpl in *. apply IH. exact Hnd.
Qed.

(** One tick: the current slot and the store are what the scan leaves, the
    other slots are as before, the current slot index moves on. *)
Lemma tick_effect now m :
  wheel_ok m ->
  let current := ConnectionTimeoutManager.current_slot_ m in
  let scanned :=
    ConnectionTimeoutManager.scan_slot now (ConnectionTimeoutManager.idle_timeout_ms_ m)
      (ConnectionTimeoutManager.slot_entries current m)
      (ConnectionTimeoutManager.entries m) in
  let m' := (ConnectionTimeoutManager.tick now m).1 in
  ConnectionTimeoutManager.wheel_size_ m' = ConnectionTimeoutManager.wheel_size_ m /\
  ConnectionTimeoutManager.current_slot_ m'
  = (current + 1) mod ConnectionTimeoutManager.wheel_size_ m /\
  length (ConnectionTimeoutManager.time_wheel_ m')
  = length (ConnectionTimeoutManager.time_wheel_ m) /\
  ConnectionTimeoutManager.entries m' = scanned.1.1 /\
  ConnectionTimeoutManager.slot_entries current m' = scanned.1.2 /\
  (forall q, 0 <= q -> q <> current ->
             ConnectionTimeoutManager.slot_entries q m'
             = ConnectionTimeoutManager.slot_entries q m).
Proof.
  intros (HW & Hcur & Hlen & _) current scanned m'.
  subst m'. unfold ConnectionTimeoutManager.tick,
              ConnectionTimeoutManager.process_timeout_connections.
  fold current. fold scanned.
  destruct scanned as [[h kept_entries] expired].
  pose proof (deliver_keeps_wheel expired
                (ConnectionTimeoutManager.set_entries h
                   (ConnectionTimeoutManager.set_slot current kept_entries m)))
    as (Hwheel & Hentries & Hslot & Hsize).
  destruct (ConnectionTimeoutManager.deliver expired _) as [m1 out].
  simpl in *. fold current in Hcur.
  split; [exact Hsize|]. split; [|split; [|split; [|split]]].
  - rewrite Hslot, Hsize. rewrite int_small by lia. apply Z.rem_mod_nonneg; lia.
  - rewrite Hwheel. apply length_insert.
  - exact Hentries.
  - unfold ConnectionTimeoutManager.slot_entries. simpl. rewrite Hwheel.
    rewrite list_lookup_insert_eq by lia. reflexivity.
  - intros q Hq Hne. unfold ConnectionTimeoutManager.slot_entries. simpl.
    rewrite Hwheel. rewrite list_lookup_insert_ne by lia. reflexivity.
Qed.

Lemma tick_wheel_ok now m : wheel_ok m -> wheel_ok (ConnectionTimeoutManager.tick now m).1.
Proof.
  intros Hok. pose proof Hok as (HW & Hcur & Hlen & Hnd).
  destruct (tick_effect now m Hok) as (Hsize & Hslot & Hlen' & _ & Hkept & Hother).
  unfold wheel_ok. rewrite Hsize, Hslot, Hlen'.
  split; [exact HW|]. split; [apply Z.mod_pos_bound; lia|]. split; [exact Hlen|].
  assert (Hnonneg : forall q, 0 <= q ->
            NoDup (omap id (ConnectionTimeoutManager.slot_entries q
                              (ConnectionTimeoutManager.tick now m).1))).
  { intros q Hq.
    destruct (decide (q = ConnectionTimeoutManager.current_slot_ m)) as [-> | Hne].
    - rewrite Hkept. apply scan_slot_kept_NoDup. apply Hnd.
    - rewrite (Hother q Hq Hne). apply Hnd. }
  intros q.
  replace (ConnectionTimeoutManager.slot_entries q (ConnectionTimeoutManager.tick now m).1)
    with (ConnectionTimeoutManager.slot_entries (Z.max 0 q)
            (ConnectionTimeoutManager.tick now m).1).
  - apply Hnonneg. lia.
  - unfold ConnectionTimeoutManager.slot_entries. do 2 f_equal. lia.
Qed.

Lemma run_ticks_cons now rest m :
  (run_ticks (now :: rest) m).1 = (run_ticks rest (ConnectionTimeoutManager.tick now m).1).1.
Proof.
  simpl. destruct (ConnectionTimeoutManager.tick now m) as [m1 out1]. simpl.
  destruct (run_ticks rest m1) as [m2 out2]. reflexivity.
Qed.

Lemma run_ticks_wheel_ok nows :
  forall m, wheel_ok m ->
            wheel_ok (run_ticks nows m).1 /\
            ConnectionTimeoutManager.wheel_size_ (run_ticks nows m).1
            = ConnectionTimeoutManager.wheel_size_ m.
Proof.
  induction nows as [|now rest IH]; intros m Hok.
  - split; [exact Hok|reflexivity].
  - rewrite run_ticks_cons.
    destruct (IH _ (tick_wheel_ok now m Hok)) as [H1 H2].
    split; [exact H1|]. rewrite H2. apply (tick_effect now m Hok).
Qed.

Lemma slot_distance (W p c : Z) :
  0 < W -> 0 <= p < W -> 0 <= c < W ->
  (p = c -> (p - c) mod W = 0 /\ (p - (c + 1) mod W) mod W = W - 1) /\
  (p <> c -> 0 < (p - c) mod W /\ (p - (c + 1) mod W) mod W = (p - c) mod W - 1).
Proof.
  intros HW Hp Hc. rewrite Zminus_mod_idemp_r. split.
  - intros ->. rewrite Z.sub_diag. split; [reflexivity|].
    replace (c - (c + 1)) with (-1) by lia.
    symmetry. apply (Z.mod_unique (-1) W (-1) (W - 1)); lia.
  - intros Hne. destruct (Z_lt_ge_dec c p) as [Hlt | Hge].
    + rewrite (Z.mod_small (p - c)) by lia.
      rewrite (Z.mod_small (p - (c + 1))) by lia. lia.
    + rewrite <- (Z.mod_unique (p - c) W (-1) (p - c + W)) by lia.
      rewrite <- (Z.mod_unique (p - (c + 1)) W (-1) (p - c + W - 1)) by lia. lia.
Qed.

Lemma run_ticks_cons_out now rest m :
  (run_ticks (now :: rest) m).2
  = (ConnectionTimeoutManager.tick now m).2
    ++ (run_ticks rest (ConnectionTimeoutManager.tick now m).1).2.
Proof.
  simpl. destruct (ConnectionTimeoutManager.tick now m) as [m1 out1]. simpl.
  destruct (run_ticks rest m1) as [m2 out2]. reflexivity.
Qed.

(** A timeout callback runs for an entry among the expired. *)
Lemma deliver_out expired :
  forall m fd,
    TimeoutCb fd ∈ (ConnectionTimeoutManager.deliver expired m).2 ->
    exists b enb, b ∈ expired /\
                  ConnectionTimeoutManager.entries m !! b = Some enb /\
                  ConnectionTimeoutManager.conn enb = Some fd.
Proof.
  induction expired as [|a expired IH]; intros m fd Hin; simpl in Hin.
  - inversion Hin.
  - assert (Hrest : forall m1,
              ConnectionTimeoutManager.entries m1 = ConnectionTimeoutManager.entries m ->
              TimeoutCb fd ∈ (ConnectionTimeoutManager.deliver expired m1).2 ->
              exists b enb, b ∈ a :: expired /\
                            ConnectionTimeoutManager.entries m !! b = Some enb /\
                            ConnectionTimeoutManager.conn enb = Some fd).
    { intros m1 Hsame H. destruct (IH m1 fd H) as (b & enb & Hb & Hl & Hc).
      exists b, enb. split; [right; exact Hb|]. rewrite <- Hsame. split; assumption. }
    destruct (ConnectionTimeoutManager.entries m !! a) as [[[fd'|] sp rt la]|] eqn:Ha;
      try (apply (Hrest m eq_refl Hin)).
    specialize (Hrest (ConnectionTimeoutManager.set_connections
                         (delete fd' (ConnectionTimeoutManager.connections_ m))
                         (size_t (ConnectionTimeoutManager.total_connections_ m - 1)) m)
                      eq_refl).
    destruct (ConnectionTimeoutManager.deliver expired _) as [m2 out]. simpl in *.
    destruct (ConnectionTimeoutManager.timeout_callback_ m); [|apply Hrest; exact Hin].
    apply elem_of_cons in Hin as [Heq | Hin]; [|apply Hrest; exact Hin].
    injection Heq as ->. exists a, (ConnectionTimeoutManager.mkEntry (Some fd') sp rt la).
    split; [left|]. split; [exact Ha|reflexivity].
Qed.

(** The scan changes no entry's connection. *)
Lemma scan_slot_conn now T es :
  forall h b,
    ConnectionTimeoutManager.conn <$> (ConnectionTimeoutManager.scan_slot now T es h).1.1 !! b
    = ConnectionTimeoutManager.conn <$> h !! b.
Proof.
  induction es as [|[a|] es IH]; intros h b.
  - reflexivity.
  - destruct (h !! a) as [en|] eqn:Ha.
    + rewrite (scan_slot_cons _ _ _ _ _ _ Ha). simpl.
      specialize (IH (if 0 <? ConnectionTimeoutManager.remaining_ticks en
                      then <[a := ConnectionTimeoutManager.decrement en]> h else h) b).
      destruct (ConnectionTimeoutManager.scan_slot _ _ _ _) as [[h' k] x]. simpl in *.
      rewrite IH. destruct (0 <? _); [|reflexivity].
      destruct (decide (a = b)) as [<- | Hne].
      * rewrite lookup_insert_eq, Ha. reflexivity.
      * rewrite lookup_insert_ne by exact Hne. reflexivity.
    + simpl. rewrite Ha. specialize (IH h b).
      destruct (ConnectionTimeoutManager.scan_slot _ _ _ _) as [[h' k] x]. exact IH.
  - simpl. apply IH.
Qed.

Lemma tick_out now m :
  let scanned :=
    ConnectionTimeoutManager.scan_slot now (ConnectionTimeoutManager.idle_timeout_ms_ m)
      (ConnectionTimeoutManager.slot_entries (ConnectionTimeoutManager.current_slot_ m) m)
      (ConnectionTimeoutManager.entries m) in
  forall fd,
    TimeoutCb fd ∈ (ConnectionTimeoutManager.tick now m).2 ->
    exists b enb, b ∈ scanned.2 /\
                  ConnectionTimeoutManager.entries m !! b = Some enb /\
                  ConnectionTimeoutManager.conn enb = Some fd.
Proof.
  intros scanned fd. unfold ConnectionTimeoutManager.tick,
                       ConnectionTimeoutManager.process_timeout_connections.
  fold scanned.
  pose proof (scan_slot_conn now (ConnectionTimeoutManager.idle_timeout_ms_ m)
                (ConnectionTimeoutManager.slot_entries
                   (ConnectionTimeoutManager.current_slot_ m) m)
                (ConnectionTimeoutManager.entries m)) as Hconn.
  fold scanned in Hconn.
  destruct scanned as [[h kept_entries] expired]. simpl in Hconn.
  pose proof (deliver_out expired
                (ConnectionTimeoutManager.set_entries h
                   (ConnectionTimeoutManager.set_slot
                      (ConnectionTimeoutManager.current_slot_ m) kept_entries m)) fd)
    as Hdel.
  destruct (ConnectionTimeoutManager.deliver expired _) as [m1 out]. simpl in *.
  intros Hin. destruct (Hdel Hin) as (b & enb & Hb & Hl & Hc).
  specialize (Hconn b). rewrite Hl in Hconn. simpl in Hconn.
  destruct (ConnectionTimeoutManager.entries m !! b) as [enb0|] eqn:Hb0; [|discriminate].
  exists b, enb0. split; [exact Hb|]. split; [exact Hb0|].
  simpl in Hconn. congruence.
Qed.

(** An entry that sits in slot [p] only, with [r] ticks left, is still
    there after [k] ticks if [k] is at most the distance of [p] from the
    current slot plus [r] turns of the wheel, whatever the instants; and
    no timeout callback has run for its connection. *)
Lemma entry_survives_ticks nows :
  forall m a en p fd,
    wheel_ok m ->
    0 <= p < ConnectionTimeoutManager.wheel_size_ m ->
    ConnectionTimeoutManager.entries m !! a = Some en ->
    ConnectionTimeoutManager.conn en = Some fd ->
    (forall b enb, ConnectionTimeoutManager.entries m !! b = Some enb ->
                   ConnectionTimeoutManager.conn enb = Some fd -> b = a) ->
    0 <= ConnectionTimeoutManager.remaining_ticks en < 2 ^ 31 ->
    Some a ∈ ConnectionTimeoutManager.slot_entries p m ->
    (forall q, 0 <= q -> q <> p -> Some a ∉ ConnectionTimeoutManager.slot_entries q m) ->
    Z.of_nat (length nows)
    <= (p - ConnectionTimeoutManager.current_slot_ m)
         mod ConnectionTimeoutManager.wheel_size_ m
       + ConnectionTimeoutManager.remaining_ticks en
         * ConnectionTimeoutManager.wheel_size_ m ->
    Some a ∈ ConnectionTimeoutManager.slot_entries p (run_ticks nows m).1 /\
    (TimeoutCb fd ∉ (run_ticks nows m).2) /\
    exists en',
      ConnectionTimeoutManager.entries (run_ticks nows m).1 !! a = Some en' /\
      ConnectionTimeoutManager.last_activity_time en'
      = ConnectionTimeoutManager.last_activity_time en /\
      0 <= ConnectionTimeoutManager.remaining_ticks en'
        <= ConnectionTimeoutManager.remaining_ticks en.
Proof.
  induction nows as [|now rest IH];
    intros m a en p fd Hok Hp Ha Hfd Huniq Hr Hin Honly Hk.
  - simpl. split; [exact Hin|]. split; [intros H; inversion H|]. exists en.
    split; [exact Ha|]. split; [reflexivity|lia].
  - rewrite run_ticks_cons, run_ticks_cons_out.
    pose proof Hok as (HW & Hcur & Hlen & Hnd).
    destruct (tick_effect now m Hok) as (Hsize & Hslot & _ & Hentries & Hkept & Hother).
    pose proof (tick_wheel_ok now m Hok) as Hok1.
    pose proof (tick_out now m fd) as Hout.
    pose proof (scan_slot_conn now (ConnectionTimeoutManager.idle_timeout_ms_ m)
                  (ConnectionTimeoutManager.slot_entries
                     (ConnectionTimeoutManager.current_slot_ m) m)
                  (ConnectionTimeoutManager.entries m)) as Hconn.
    rewrite <- Hentries in Hconn.
    destruct (slot_distance (ConnectionTimeoutManager.wheel_size_ m) p
                (ConnectionTimeoutManager.current_slot_ m)
                (proj1 HW) Hp Hcur) as [Hsame Hdiff].
    cbn [length] in Hk. rewrite Nat2Z.inj_succ in Hk.
    set (m1 := (ConnectionTimeoutManager.tick now m).1) in *.
    assert (Huniq1 : forall b enb,
              ConnectionTimeoutManager.entries m1 !! b = Some enb ->
              ConnectionTimeoutManager.conn enb = Some fd -> b = a).
    { intros b enb Hb Hc. specialize (Hconn b). rewrite Hb in Hconn. simpl in Hconn.
      destruct (ConnectionTimeoutManager.entries m !! b) as [enb0|] eqn:Hb0;
        [|discriminate].
      apply (Huniq b enb0 Hb0). simpl in Hconn. congruence. }
    assert (Hquiet : forall expired_has_not,
              (expired_has_not
               = (a ∉ (ConnectionTimeoutManager.scan_slot now
                         (ConnectionTimeoutManager.idle_timeout_ms_ m)
                         (ConnectionTimeoutManager.slot_entries
                            (ConnectionTimeoutManager.current_slot_ m) m)
                         (ConnectionTimeoutManager.entries m)).2)) ->
              expired_has_not ->
              TimeoutCb fd ∉ (ConnectionTimeoutManager.tick now m).2).
    { intros P -> Hnot Hcb. destruct (Hout Hcb) as (b & enb & Hb & Hl & Hc).
      rewrite (Huniq b enb Hl Hc) in Hb. contradiction. }
    destruct (decide (p = ConnectionTimeoutManager.current_slot_ m)) as [Heq | Hne].
    + destruct (Hsame Heq) as [Hd Hd']. rewrite Hd in Hk.
      assert (Hpos : 0 < ConnectionTimeoutManager.remaining_ticks en) by nia.
      rewrite <- Heq in Hkept, Hentries, Hquiet.
      destruct (scan_slot_outcome now (ConnectionTimeoutManager.idle_timeout_ms_ m)
                  (ConnectionTimeoutManager.slot_entries p m)
                  (ConnectionTimeoutManager.entries m) a en (Hnd p) Hin Ha)
        as (Htick & _ & _).
      destruct (Htick Hpos) as (Hstay & Hnotexp & Hdec).
      destruct (IH m1 a (ConnectionTimeoutManager.decrement en) p fd)
        as (H1 & Hcb & en' & H2 & H3 & H5).
      * exact Hok1.
      * rewrite Hsize. exact Hp.
      * rewrite Hentries. exact Hdec.
      * exact Hfd.
      * exact Huniq1.
      * simpl. rewrite int_small by lia. lia.
      * rewrite Hkept. exact Hstay.
      * intros q Hq Hqp. rewrite (Hother q Hq) by congruence. apply Honly; assumption.
      * rewrite Hsize, Hslot, Hd'. simpl. rewrite int_small by lia. nia.
      * split; [exact H1|]. split.
        { rewrite not_elem_of_app. split; [|exact Hcb].
          apply (Hquiet _ eq_refl). exact Hnotexp. }
        exists en'. split; [exact H2|]. split; [exact H3|].
        simpl in H5. rewrite int_small in H5 by lia. lia.
    + destruct (Hdiff Hne) as [Hd Hd'].
      assert (Hfree : Some a ∉ ConnectionTimeoutManager.slot_entries
                                  (ConnectionTimeoutManager.current_slot_ m) m)
        by (apply Honly; [lia|congruence]).
      destruct (IH m1 a en p fd) as (H1 & Hcb & en' & H2 & H3 & H5).
      * exact Hok1.
      * rewrite Hsize. exact Hp.
      * rewrite Hentries. rewrite scan_slot_frame by exact Hfree. exact Ha.
      * exact Hfd.
      * exact Huniq1.
      * exact Hr.
      * rewrite (Hother p) by lia. exact Hin.
      * intros q Hq Hqp.
        destruct (decide (q = ConnectionTimeoutManager.current_slot_ m)) as [-> | Hqc].
        -- rewrite Hkept. intros H. apply Hfree.
           apply (proj1 (scan_slot_within _ _ _ _ a) H).
        -- rewrite (Hother q Hq Hqc). apply Honly; assumption.
      * rewrite Hsize, Hslot, Hd'. lia.
      * split; [exact H1|]. split.
        { rewrite not_elem_of_app. split; [|exact Hcb].
          apply (Hquiet _ eq_refl). intros H. apply Hfree.
          apply (proj2 (scan_slot_within _ _ _ _ a) H). }
        exists en'. split; [exact H2|]. split; [exact H3|lia].
Qed.

Lemma quot_within (x d : Z) :
  0 < d -> - 2 ^ 31 < x < 2 ^ 31 ->
  - 2 ^ 31 < Z.quot x d < 2 ^ 31 /\ Z.quot x d <= Z.max 0 x.
Proof.
  intros Hd Hx. destruct (Z_lt_ge_dec x 0) as [Hneg | Hpos].
  - replace x with (- - x) by lia. rewrite Z.quot_opp_l by lia.
    rewrite Z.quot_div_nonneg by lia.
    pose proof (Z.div_pos (- x) d ltac:(lia) Hd).
    assert (- x / d <= - x) by (apply Z.div_le_upper_bound; nia). lia.
  - rewrite Z.quot_div_nonneg by lia.
    pose proof (Z.div_pos x d ltac:(lia) Hd).
    assert (x / d <= x) by (apply Z.div_le_upper_bound; nia). lia.
Qed.

Lemma calculate_slot_in_range now last m :
  wheel_ok m ->
  0 < ConnectionTimeoutManager.tick_interval_ms_ m ->
  0 < ConnectionTimeoutManager.idle_timeout_ms_ m ->
  ConnectionTimeoutManager.idle_timeout_ms_ m + ConnectionTimeoutManager.wheel_size_ m
  < 2 ^ 31 ->
  0 <= now - last <= 2 ^ 31 * 1000000 ->
  0 <= ConnectionTimeoutManager.calculate_slot now last m
    < ConnectionTimeoutManager.wheel_size_ m.
Proof.
  intros (HW & Hcur & _) HI HT Hsum Hel.
  unfold ConnectionTimeoutManager.calculate_slot, ConnectionTimeoutManager.milliseconds.
  assert (He : 0 <= Z.quot (now - last) 1000000 <= 2 ^ 31).
  { rewrite Z.quot_div_nonneg by lia. split; [apply Z.div_pos; lia|].
    apply Z.div_le_upper_bound; lia. }
  set (e := Z.quot (now - last) 1000000) in *.
  destruct (quot_within (ConnectionTimeoutManager.idle_timeout_ms_ m - e)
              (ConnectionTimeoutManager.tick_interval_ms_ m) HI ltac:(lia)) as [Hq Hle].
  rewrite (int_small (Z.quot _ _)) by lia.
  set (ticks := Z.max 0 (Z.quot _ _)).
  assert (Hticks : 0 <= ticks <= ConnectionTimeoutManager.idle_timeout_ms_ m)
    by (subst ticks; lia).
  rewrite int_small by lia. rewrite Z.rem_mod_nonneg by lia.
  apply Z.mod_pos_bound. lia.
Qed.

Lemma slot_entries_max q m :
  ConnectionTimeoutManager.slot_entries q m
  = ConnectionTimeoutManager.slot_entries (Z.max 0 q) m.
Proof. unfold ConnectionTimeoutManager.slot_entries. do 2 f_equal. lia. Qed.

Lemma add_connection_effect addr fd t_call now created m :
  wheel_ok m ->
  0 < ConnectionTimeoutManager.tick_interval_ms_ m ->
  0 < ConnectionTimeoutManager.idle_timeout_ms_ m ->
  ConnectionTimeoutManager.idle_timeout_ms_ m + ConnectionTimeoutManager.wheel_size_ m
  < 2 ^ 31 ->
  0 <= now - t_call <= 2 ^ 31 * 1000000 ->
  0 < fd -> ConnectionTimeoutManager.connections_ m !! fd = None ->
  (forall q, Some addr ∉ ConnectionTimeoutManager.slot_entries q m) ->
  let p := ConnectionTimeoutManager.calculate_slot now t_call m in
  let m1 := ConnectionTimeoutManager.add_connection addr fd t_call now created m in
  0 <= p < ConnectionTimeoutManager.wheel_size_ m /\
  ConnectionTimeoutManager.connections_ m1 !! fd = Some addr /\
  ConnectionTimeoutManager.entries m1
  = <[addr := ConnectionTimeoutManager.mkEntry (Some fd) p
                (Z.quot (ConnectionTimeoutManager.idle_timeout_ms_ m)
                        (ConnectionTimeoutManager.tick_interval_ms_ m)) created]>
      (ConnectionTimeoutManager.entries m) /\
  ConnectionTimeoutManager.slot_entries p m1
  = ConnectionTimeoutManager.slot_entries p m ++ [Some addr] /\
  (forall q, 0 <= q -> q <> p ->
             ConnectionTimeoutManager.slot_entries q m1
             = ConnectionTimeoutManager.slot_entries q m) /\
  ConnectionTimeoutManager.wheel_size_ m1 = ConnectionTimeoutManager.wheel_size_ m /\
  ConnectionTimeoutManager.current_slot_ m1 = ConnectionTimeoutManager.current_slot_ m /\
  wheel_ok m1.
Proof.
  intros Hok HI HT Hsum Hel Hfd Hnew Hfresh p m1.
  pose proof (calculate_slot_in_range now t_call m Hok HI HT Hsum Hel) as Hp. fold p in Hp.
  pose proof Hok as (HW & Hcur & Hlen & Hnd).
  assert (Hm1 : m1 = ConnectionTimeoutManager.set_slot p
                  (ConnectionTimeoutManager.slot_entries p m ++ [Some addr])
                  (ConnectionTimeoutManager.set_entries
                     (<[addr := ConnectionTimeoutManager.mkEntry (Some fd) p
                                  (Z.quot (ConnectionTimeoutManager.idle_timeout_ms_ m)
                                          (ConnectionTimeoutManager.tick_interval_ms_ m))
                                  created]>
                        (ConnectionTimeoutManager.entries m))
                     (ConnectionTimeoutManager.set_connections
                        (<[fd := addr]> (ConnectionTimeoutManager.connections_ m))
                        (size_t (ConnectionTimeoutManager.total_connections_ m + 1)) m))).
  { subst m1. unfold ConnectionTimeoutManager.add_connection.
    destruct (fd <=? 0) eqn:H0; [apply Z.leb_le in H0; lia|].
    rewrite Hnew. reflexivity. }
  assert (Hslot : ConnectionTimeoutManager.slot_entries p m1
                  = ConnectionTimeoutManager.slot_entries p m ++ [Some addr]).
  { rewrite Hm1. unfold ConnectionTimeoutManager.slot_entries at 1. simpl.
    rewrite list_lookup_insert_eq by lia. reflexivity. }
  assert (Hother : forall q, 0 <= q -> q <> p ->
            ConnectionTimeoutManager.slot_entries q m1
            = ConnectionTimeoutManager.slot_entries q m).
  { intros q Hq Hne. rewrite Hm1. unfold ConnectionTimeoutManager.slot_entries. simpl.
    rewrite list_lookup_insert_ne by lia. reflexivity. }
  split; [exact Hp|]. split; [rewrite Hm1; simpl; apply lookup_insert_eq|].
  split; [rewrite Hm1; reflexivity|]. split; [exact Hslot|]. split; [exact Hother|].
  split; [rewrite Hm1; reflexivity|]. split; [rewrite Hm1; reflexivity|].
  assert (Hsz : ConnectionTimeoutManager.wheel_size_ m1
                = ConnectionTimeoutManager.wheel_size_ m) by (rewrite Hm1; reflexivity).
  assert (Hcs : ConnectionTimeoutManager.current_slot_ m1
                = ConnectionTimeoutManager.current_slot_ m) by (rewrite Hm1; reflexivity).
  assert (Hl1 : length (ConnectionTimeoutManager.time_wheel_ m1)
                = length (ConnectionTimeoutManager.time_wheel_ m))
    by (rewrite Hm1; simpl; apply length_insert).
  unfold wheel_ok. rewrite Hsz, Hcs, Hl1.
  split; [exact HW|]. split; [exact Hcur|]. split; [exact Hlen|].
  intros q. rewrite slot_entries_max.
  destruct (decide (Z.max 0 q = p)) as [-> | Hne].
  - rewrite Hslot, omap_app. simpl. apply NoDup_app. split; [apply Hnd|].
    split; [|apply NoDup_singleton].
    intros x Hx Hx'. apply list_elem_of_singleton in Hx'. subst x.
    apply list_elem_of_omap in Hx as (y & Hy & Hid).
    destruct y as [y|]; [|discriminate]. simpl in Hid. injection Hid as ->.
    apply (Hfresh p). exact Hy.
  - rewrite (Hother (Z.max 0 q)) by lia. apply Hnd.
Qed.

(** ** Time wheel: construction, placement, expiry *)

(** X21. The wheel vector is sized by the constructor argument, before
    the members get their defaults: a negative argument throws
    [std::length_error]; for a positive one the wheel has that many empty
    slots and is well formed; for 0 the manager records 60 slots and has
    none, so every slot index is outside the vector. Timeout and tick
    interval are positive after the defaults. *)
Theorem ctor_sizes_wheel_by_argument :
  forall (idle_timeout_ms wheel_size tick_interval_ms : Z),
    (wheel_size < 0 ->
       ConnectionTimeoutManager.ctor idle_timeout_ms wheel_size tick_interval_ms
       = inl length_error) /\
    (0 <= wheel_size ->
       exists m,
         ConnectionTimeoutManager.ctor idle_timeout_ms wheel_size tick_interval_ms = inr m /\
         length (ConnectionTimeoutManager.time_wheel_ m) = Z.to_nat wheel_size /\
         (forall q, ConnectionTimeoutManager.slot_entries q m = []) /\
         0 < ConnectionTimeoutManager.idle_timeout_ms_ m /\
         0 < ConnectionTimeoutManager.tick_interval_ms_ m /\
         ConnectionTimeoutManager.current_slot_ m = 0 /\
         (0 < wheel_size < 2 ^ 31 ->
            ConnectionTimeoutManager.wheel_size_ m = wheel_size /\ wheel_ok m) /\
         (wheel_size = 0 ->
            ConnectionTimeoutManager.wheel_size_ m = 60 /\
            ConnectionTimeoutManager.time_wheel_ m = [])).
Proof.
  intros T W I. unfold ConnectionTimeoutManager.ctor. split.
  - intros Hneg. destruct (W <? 0) eqn:H0; [reflexivity|apply Z.ltb_ge in H0; lia].
  - intros Hpos. destruct (W <? 0) eqn:H0; [apply Z.ltb_lt in H0; lia|].
    eexists. split; [reflexivity|]. simpl.
    assert (Hempty : forall q,
              default [] (replicate (Z.to_nat W) ([] : list (option nat)) !! Z.to_nat q) = []).
    { intros q. destruct (replicate _ _ !! _) as [l|] eqn:Hl; [|reflexivity].
      apply lookup_replicate in Hl as [-> _]. reflexivity. }
    split; [apply length_replicate|]. split; [exact Hempty|].
    split; [destruct (Z.leb_spec T 0); lia|].
    split; [destruct (Z.leb_spec I 0); lia|].
    split; [reflexivity|]. split.
    + intros HW. destruct (Z.leb_spec W 0); [lia|]. split; [reflexivity|].
      unfold wheel_ok, ConnectionTimeoutManager.slot_entries. simpl.
      destruct (Z.leb_spec W 0); [lia|].
      split; [lia|]. split; [lia|]. split; [apply length_replicate|].
      intros q. rewrite Hempty. constructor.
    + intros ->. split; reflexivity.
Qed.

Lemma ctor_sizes_wheel_by_argument_witness :
  (exists m, ConnectionTimeoutManager.ctor 3000 0 1000 = inr m /\
             ConnectionTimeoutManager.wheel_size_ m = 60 /\
             ConnectionTimeoutManager.time_wheel_ m = []) /\
  ConnectionTimeoutManager.ctor 3000 (-1) 1000 = inl length_error.
Proof.
  destruct (ctor_sizes_wheel_by_argument 3000 0 1000) as [_ Hzero].
  destruct (ctor_sizes_wheel_by_argument 3000 (-1) 1000) as [Hneg _].
  split; [|apply Hneg; lia].
  destruct Hzero as (m & Hm & _ & _ & _ & _ & _ & _ & H0); [lia|].
  exists m. split; [exact Hm|]. apply H0. reflexivity.
Defined.

Lemma small_wheel_ok :
  wheel_ok small_wheel /\
  (forall q, ConnectionTimeoutManager.slot_entries q small_wheel = []) /\
  ConnectionTimeoutManager.entries small_wheel = ∅ /\
  ConnectionTimeoutManager.connections_ small_wheel = ∅.
Proof.
  assert (Hempty : forall q, ConnectionTimeoutManager.slot_entries q small_wheel = []).
  { intros q. unfold ConnectionTimeoutManager.slot_entries, small_wheel. simpl.
    destruct (Z.to_nat q) as [|[|[|[|n]]]]; reflexivity. }
  split; [|split; [exact Hempty|split; reflexivity]].
  unfold wheel_ok. split; [simpl; lia|]. split; [simpl; lia|]. split; [reflexivity|].
  intros q. rewrite Hempty. constructor.
Qed.

(** X22. [add_connection] of a new positive descriptor puts the entry at
    the end of one slot of the wheel, [(current + ticks) mod W], with
    [T / I] ticks to go; the other slots are as before and the wheel stays
    well formed. A descriptor that is 0 or negative, or already known, is
    ignored. *)
Theorem add_connection_places_entry :
  forall (addr : nat) (fd t_call now created : Z) (m : ConnectionTimeoutManager.t),
    wheel_ok m ->
    0 < ConnectionTimeoutManager.tick_interval_ms_ m ->
    0 < ConnectionTimeoutManager.idle_timeout_ms_ m ->
    ConnectionTimeoutManager.idle_timeout_ms_ m + ConnectionTimeoutManager.wheel_size_ m
    < 2 ^ 31 ->
    0 <= now - t_call <= 2 ^ 31 * 1000000 ->
    (forall q, Some addr ∉ ConnectionTimeoutManager.slot_entries q m) ->
    let p := ConnectionTimeoutManager.calculate_slot now t_call m in
    let m1 := ConnectionTimeoutManager.add_connection addr fd t_call now created m in
    (0 < fd -> ConnectionTimeoutManager.connections_ m !! fd = None ->
       0 <= p < ConnectionTimeoutManager.wheel_size_ m /\
       ConnectionTimeoutManager.connections_ m1 !! fd = Some addr /\
       ConnectionTimeoutManager.entries m1 !! addr
       = Some (ConnectionTimeoutManager.mkEntry (Some fd) p
                 (Z.quot (ConnectionTimeoutManager.idle_timeout_ms_ m)
                         (ConnectionTimeoutManager.tick_interval_ms_ m)) created) /\
       ConnectionTimeoutManager.slot_entries p m1
       = ConnectionTimeoutManager.slot_entries p m ++ [Some addr] /\
       (forall q, 0 <= q -> q <> p ->
                  ConnectionTimeoutManager.slot_entries q m1
                  = ConnectionTimeoutManager.slot_entries q m) /\
       wheel_ok m1) /\
    (fd <= 0 \/ is_Some (ConnectionTimeoutManager.connections_ m !! fd) -> m1 = m).
Proof.
  intros addr fd t_call now created m Hok HI HT Hsum Hel Hfresh p m1. split.
  - intros Hfd Hnew.
    destruct (add_connection_effect addr fd t_call now created m
                Hok HI HT Hsum Hel Hfd Hnew Hfresh)
      as (H1 & H2 & H3 & H4 & H5 & _ & _ & H6).
    split; [exact H1|]. split; [exact H2|]. split; [|split; [exact H4|split; [exact H5|exact H6]]].
    fold m1 in H3. rewrite H3. apply lookup_insert_eq.
  - subst m1. unfold ConnectionTimeoutManager.add_connection.
    intros [Hle | [x Hx]].
    + destruct (fd <=? 0) eqn:H0; [reflexivity|apply Z.leb_gt in H0; lia].
    + destruct (fd <=? 0); [reflexivity|]. rewrite Hx. reflexivity.
Qed.

Lemma add_connection_places_entry_witness :
  ConnectionTimeoutManager.slot_entries 3
    (ConnectionTimeoutManager.add_connection 0 7 0 0 0 small_wheel)
  = ConnectionTimeoutManager.slot_entries 3 small_wheel ++ [Some 0%nat].
Proof.
  destruct small_wheel_ok as (Hok & Hempty & _ & _).
  destruct (add_connection_places_entry 0 7 0 0 0 small_wheel Hok) as [H _].
  - simpl. lia.
  - simpl. lia.
  - simpl. lia.
  - lia.
  - intros q. rewrite Hempty. apply not_elem_of_nil.
  - destruct H as (_ & _ & _ & H & _); [lia|reflexivity|exact H].
Defined.

(** X23. A connection added to the wheel is not timed out before the
    wheel has turned [T / I] times: for [n = T / I] ticks to go and a wheel
    of [W] slots, during the first [n * W] ticks after [add_connection],
    at whatever instants they happen, the timeout callback does not run
    for the connection and its entry stays in its slot. (An entry loses
    one tick each time its own slot is visited, which is once per turn of
    the wheel.) *)
Theorem idle_timeout_takes_wheel_turns :
  forall (addr : nat) (fd t_call now created : Z) (m : ConnectionTimeoutManager.t)
         (nows : list Z),
    wheel_ok m ->
    0 < ConnectionTimeoutManager.tick_interval_ms_ m ->
    0 < ConnectionTimeoutManager.idle_timeout_ms_ m ->
    ConnectionTimeoutManager.idle_timeout_ms_ m + ConnectionTimeoutManager.wheel_size_ m
    < 2 ^ 31 ->
    0 <= now - t_call <= 2 ^ 31 * 1000000 ->
    0 < fd -> ConnectionTimeoutManager.connections_ m !! fd = None ->
    (forall q, Some addr ∉ ConnectionTimeoutManager.slot_entries q m) ->
    (forall b enb, ConnectionTimeoutManager.entries m !! b = Some enb ->
                   ConnectionTimeoutManager.conn enb <> Some fd) ->
    Z.of_nat (length nows)
    <= Z.quot (ConnectionTimeoutManager.idle_timeout_ms_ m)
              (ConnectionTimeoutManager.tick_interval_ms_ m)
       * ConnectionTimeoutManager.wheel_size_ m ->
    let p := ConnectionTimeoutManager.calculate_slot now t_call m in
    let m1 := ConnectionTimeoutManager.add_connection addr fd t_call now created m in
    (TimeoutCb fd ∉ (run_ticks nows m1).2) /\
    Some addr ∈ ConnectionTimeoutManager.slot_entries p (run_ticks nows m1).1.
Proof.
  intros addr fd t_call now created m nows Hok HI HT Hsum Hel Hfd Hnew Hfresh Hstale
         Hk p m1.
  destruct (add_connection_effect addr fd t_call now created m
              Hok HI HT Hsum Hel Hfd Hnew Hfresh)
    as (Hp & _ & Hentries & Hslot & Hother & Hsize & Hcur & Hok1).
  fold p in Hp, Hentries, Hslot, Hother. fold m1 in Hentries, Hslot, Hother, Hsize, Hcur, Hok1.
  pose proof Hok as (HW & _).
  destruct (quot_within (ConnectionTimeoutManager.idle_timeout_ms_ m)
              (ConnectionTimeoutManager.tick_interval_ms_ m) HI ltac:(lia)) as [Hq Hle].
  assert (Hq0 : 0 <= Z.quot (ConnectionTimeoutManager.idle_timeout_ms_ m)
                            (ConnectionTimeoutManager.tick_interval_ms_ m))
    by (apply Z.quot_pos; lia).
  set (en := ConnectionTimeoutManager.mkEntry (Some fd) p
               (Z.quot (ConnectionTimeoutManager.idle_timeout_ms_ m)
                       (ConnectionTimeoutManager.tick_interval_ms_ m)) created) in *.
  destruct (entry_survives_ticks nows m1 addr en p fd) as (Hin & Hcb & _).
  - exact Hok1.
  - rewrite Hsize. exact Hp.
  - rewrite Hentries. apply lookup_insert_eq.
  - reflexivity.
  - intros b enb Hb Hc. rewrite Hentries in Hb.
    destruct (decide (addr = b)) as [<- | Hne]; [reflexivity|].
    rewrite lookup_insert_ne in Hb by exact Hne.
    exfalso. apply (Hstale b enb Hb Hc).
  - simpl. lia.
  - rewrite Hslot. apply elem_of_app. right. left.
  - intros q Hq' Hne. rewrite (Hother q Hq' Hne). apply Hfresh.
  - rewrite Hsize, Hcur. simpl.
    pose proof (Z.mod_pos_bound (p - ConnectionTimeoutManager.current_slot_ m)
                  (ConnectionTimeoutManager.wheel_size_ m) ltac:(lia)).
    lia.
  - split; [exact Hcb|exact Hin].
Qed.

Lemma idle_timeout_takes_wheel_turns_witness :
  TimeoutCb 7
  ∉ (run_ticks eleven_ticks
       (ConnectionTimeoutManager.add_connection 0 7 0 0 0 small_wheel)).2.
Proof.
  destruct small_wheel_ok as (Hok & Hempty & Hentries & Hconns).
  destruct (idle_timeout_takes_wheel_turns 0 7 0 0 0 small_wheel eleven_ticks Hok)
    as [H _].
  - simpl. lia.
  - simpl. lia.
  - simpl. lia.
  - lia.
  - lia.
  - rewrite Hconns. apply lookup_empty.
  - intros q. rewrite Hempty. apply not_elem_of_nil.
  - intros b enb Hb. rewrite Hentries, lookup_empty in Hb. discriminate.
  - vm_compute. discriminate.
  - exact H.
Defined.

(** ** Memory pool: the statistics *)

Lemma charge_stats_ok free cs p : stats_ok p -> stats_ok (MemoryPool.charge free cs p).
Proof.
  intros (Hr & Hs & Hp). unfold stats_ok, MemoryPool.charge. simpl.
  pose proof (size_t_range (MemoryPool.current_usage_bytes_ p + cs)) as Hu.
  split; [exact Hu|]. split; [reflexivity|].
  destruct (Z.ltb_spec (MemoryPool.peak_usage_bytes (MemoryPool.stats_ p))
              (size_t (MemoryPool.current_usage_bytes_ p + cs))); lia.
Qed.

Lemma alloc_chunk_stats_ok oom n p :
  stats_ok p -> stats_ok (snd (MemoryPool.alloc_chunk oom n p)).
Proof.
  intros Hok. unfold MemoryPool.alloc_chunk.
  assert (Hfail : stats_ok (MemoryPool.fail p)) by exact Hok.
  destruct (n =? 0); [exact Hok|].
  destruct (_ =? 0); [exact Hfail|].
  destruct (MemoryPool.pool_ p !! _) as [[|c next]|];
    try (apply charge_stats_ok; exact Hok);
    (destruct (MemoryPool.over_capacity _ p); [exact Hfail|];
     destruct oom; [exact Hfail|apply charge_stats_ok; exact Hok]).
Qed.

Lemma retrieve_stats_ok c p : stats_ok p -> stats_ok (MemoryPool.retrieve c p).
Proof.
  intros Hok. pose proof Hok as (Hr & Hs & Hp). unfold MemoryPool.retrieve.
  destruct c as [c|]; [|exact Hok].
  destruct (Chunk.capacity c =? 0); [exact Hok|].
  destruct (MemoryPool.is_supported_size (Chunk.capacity c)) eqn:Hsup; [|exact Hok].
  apply supported_size_range in Hsup. simpl.
  unfold stats_ok. simpl.
  destruct (Z.leb_spec (Chunk.capacity c) (MemoryPool.current_usage_bytes_ p)).
  - rewrite size_t_small by lia. repeat split; lia.
  - repeat split; lia.
Qed.

(** X24. The statistics follow the accounting: after any sequence of
    allocations (successful or not), returns, writes into held chunks and
    changes of the cap on the freshly built pool, the usage the
    statistics report is the usage counter of the pool, and the reported
    peak is at least the current usage. *)
Theorem stats_report_usage_and_peak :
  forall (ops : list PoolClient.Op),
    stats_ok (PoolClient.pool (PoolClient.run ops PoolClient.start)).
Proof.
  assert (Hstep : forall op c, stats_ok (PoolClient.pool c) ->
                               stats_ok (PoolClient.pool (PoolClient.step op c))).
  { intros op c Hok. destruct op as [n oom | i | i len hd d | mx]; simpl.
    - pose proof (alloc_chunk_stats_ok oom n (PoolClient.pool c) Hok) as H.
      destruct (MemoryPool.alloc_chunk oom n (PoolClient.pool c)) as [[ch| |e] p'];
        exact H.
    - destruct (PoolClient.held c !! i) as [ch|]; [|exact Hok].
      exact (retrieve_stats_ok (Some ch) (PoolClient.pool c) Hok).
    - destruct (PoolClient.held c !! i); exact Hok.
    - exact Hok. }
  assert (Hrun : forall ops c, stats_ok (PoolClient.pool c) ->
                               stats_ok (PoolClient.pool (PoolClient.run ops c))).
  { induction ops as [|op ops IH]; intros c Hok; [exact Hok|].
    simpl. apply IH. apply Hstep. exact Hok. }
  intros ops. apply Hrun. unfold PoolClient.start. simpl.
  unfold stats_ok.
  replace (MemoryPool.current_usage_bytes_ MemoryPool.get_instance) with 0
    by (vm_compute; reflexivity).
  replace (MemoryPool.stats_ MemoryPool.get_instance) with (MemoryPool.mkStats 0 0 0 0 0)
    by (vm_compute; reflexivity).
  simpl. lia.
Qed.

(** ** Time wheel: activity *)

Lemma omap_filter_NoDup (P : option nat -> Prop) `{!forall x, Decision (P x)}
    (l : list (option nat)) :
  NoDup (omap id l) -> NoDup (omap id (filter P l)).
Proof.
  induction l as [|x l IH]; intros Hnd; [constructor|].
  rewrite filter_cons. destruct x as [x|]; simpl in Hnd.
  - apply NoDup_cons in Hnd as [Hx Hnd].
    destruct (decide (P (Some x))); [|apply IH; exact Hnd].
    simpl. apply NoDup_cons. split; [|apply IH; exact Hnd].
    intros Hmem. apply Hx. apply list_elem_of_omap in Hmem as (y & Hy & Hid).
    apply list_elem_of_omap. exists y. split; [|exact Hid].
    apply list_elem_of_filter in Hy as [_ Hy]. exact Hy.
  - destruct (decide (P None)); simpl; apply IH; exact Hnd.
Qed.

Lemma update_activity_effect fd t_act now a en m :
  wheel_ok m ->
  0 < ConnectionTimeoutManager.tick_interval_ms_ m ->
  0 < ConnectionTimeoutManager.idle_timeout_ms_ m ->
  ConnectionTimeoutManager.idle_timeout_ms_ m + ConnectionTimeoutManager.wheel_size_ m
  < 2 ^ 31 ->
  0 <= now - t_act <= 2 ^ 31 * 1000000 ->
  ConnectionTimeoutManager.connections_ m !! fd = Some a ->
  placed a en m ->
  let m1 := ConnectionTimeoutManager.update_activity fd t_act now m in
  let en1 := ConnectionTimeoutManager.mkEntry (ConnectionTimeoutManager.conn en)
               (ConnectionTimeoutManager.calculate_slot now t_act m)
               (Z.quot (ConnectionTimeoutManager.idle_timeout_ms_ m)
                       (ConnectionTimeoutManager.tick_interval_ms_ m)) t_act in
  wheel_ok m1 /\
  ConnectionTimeoutManager.wheel_size_ m1 = ConnectionTimeoutManager.wheel_size_ m /\
  ConnectionTimeoutManager.current_slot_ m1 = ConnectionTimeoutManager.current_slot_ m /\
  placed a en1 m1 /\
  ConnectionTimeoutManager.entries m1 = <[a := en1]> (ConnectionTimeoutManager.entries m).
Proof.
  intros Hok HI HT Hsum Hel Hconn (Ha & Hsp & Hin & Honly) m1 en1.
  pose proof (calculate_slot_in_range now t_act m Hok HI HT Hsum Hel) as Hp.
  pose proof Hok as (HW & Hcur & Hlen & Hnd).
  set (p := ConnectionTimeoutManager.calculate_slot now t_act m) in *.
  set (sp := ConnectionTimeoutManager.slot_position en) in *.
  set (n := Z.quot (ConnectionTimeoutManager.idle_timeout_ms_ m)
                   (ConnectionTimeoutManager.tick_interval_ms_ m)) in *.
  destruct (decide (p = sp)) as [Hsame | Hdiff].
  - assert (Hm1 : m1 = ConnectionTimeoutManager.set_entries
                         (<[a := en1]> (ConnectionTimeoutManager.entries m)) m).
    { subst m1. unfold ConnectionTimeoutManager.update_activity. rewrite Hconn, Ha.
      unfold ConnectionTimeoutManager.move_to_new_slot. cbn.
      rewrite lookup_insert_eq. cbn.
      change (ConnectionTimeoutManager.calculate_slot now t_act
                (ConnectionTimeoutManager.set_entries _ m)) with p.
      fold sp.
      destruct (Z.eqb_spec p sp) as [_ | Hne]; [|contradiction].
      rewrite insert_insert_eq. subst en1. fold p. rewrite Hsame. reflexivity. }
    rewrite Hm1. split; [exact Hok|]. split; [reflexivity|]. split; [reflexivity|].
    split; [|reflexivity].
    unfold placed. simpl. rewrite lookup_insert_eq. split; [reflexivity|].
    fold p. rewrite Hsame. split; [exact Hsp|]. split; [exact Hin|exact Honly].
  - set (old := filter (fun e => e <> Some a)
                       (ConnectionTimeoutManager.slot_entries sp m)).
    assert (Hm1 : m1 = ConnectionTimeoutManager.set_slot p
                         (ConnectionTimeoutManager.slot_entries p m ++ [Some a])
                         (ConnectionTimeoutManager.set_entries
                            (<[a := en1]> (ConnectionTimeoutManager.entries m))
                            (ConnectionTimeoutManager.set_slot sp old m))).
    { subst m1. unfold ConnectionTimeoutManager.update_activity. rewrite Hconn, Ha.
      unfold ConnectionTimeoutManager.move_to_new_slot. cbn.
      rewrite lookup_insert_eq. cbn.
      change (ConnectionTimeoutManager.calculate_slot now t_act
                (ConnectionTimeoutManager.set_entries _ m)) with p.
      fold sp.
      destruct (Z.eqb_spec p sp) as [Heq | _]; [contradiction|].
      rewrite insert_insert_eq. fold old. subst en1. fold p.
      unfold ConnectionTimeoutManager.set_slot at 1. cbn.
      unfold ConnectionTimeoutManager.slot_entries at 1. cbn.
      rewrite list_lookup_insert_ne by lia. reflexivity. }
    assert (Hslot_p : ConnectionTimeoutManager.slot_entries p m1
                      = ConnectionTimeoutManager.slot_entries p m ++ [Some a]).
    { rewrite Hm1. unfold ConnectionTimeoutManager.slot_entries at 1. cbn.
      rewrite list_lookup_insert_eq by (rewrite length_insert; lia). reflexivity. }
    assert (Hslot_sp : ConnectionTimeoutManager.slot_entries sp m1 = old).
    { rewrite Hm1. unfold ConnectionTimeoutManager.slot_entries at 1. cbn.
      rewrite list_lookup_insert_ne by lia.
      rewrite list_lookup_insert_eq by lia. reflexivity. }
    assert (Hslot_q : forall q, 0 <= q -> q <> p -> q <> sp ->
              ConnectionTimeoutManager.slot_entries q m1
              = ConnectionTimeoutManager.slot_entries q m).
    { intros q Hq H1 H2. rewrite Hm1. unfold ConnectionTimeoutManager.slot_entries. cbn.
      rewrite !list_lookup_insert_ne by lia. reflexivity. }
    assert (Hold : Some a ∉ old).
    { subst old. intros H. apply list_elem_of_filter in H as [H _]. apply H. reflexivity. }
    assert (Hsz : ConnectionTimeoutManager.wheel_size_ m1
                  = ConnectionTimeoutManager.wheel_size_ m) by (rewrite Hm1; reflexivity).
    assert (Hcs : ConnectionTimeoutManager.current_slot_ m1
                  = ConnectionTimeoutManager.current_slot_ m) by (rewrite Hm1; reflexivity).
    assert (Hl1 : length (ConnectionTimeoutManager.time_wheel_ m1)
                  = length (ConnectionTimeoutManager.time_wheel_ m))
      by (rewrite Hm1; cbn; rewrite !length_insert; reflexivity).
    assert (Hen : ConnectionTimeoutManager.entries m1
                  = <[a := en1]> (ConnectionTimeoutManager.entries m))
      by (rewrite Hm1; reflexivity).
    split; [|split; [exact Hsz|split; [exact Hcs|split; [|exact Hen]]]].
    + unfold wheel_ok. rewrite Hsz, Hcs, Hl1.
      split; [exact HW|]. split; [exact Hcur|]. split; [exact Hlen|].
      intros q. rewrite slot_entries_max.
      destruct (decide (Z.max 0 q = p)) as [-> | Hqp].
      * rewrite Hslot_p, omap_app. simpl. apply NoDup_app. split; [apply Hnd|].
        split; [|apply NoDup_singleton].
        intros x Hx Hx'. apply list_elem_of_singleton in Hx'. subst x.
        apply list_elem_of_omap in Hx as (y & Hy & Hid).
        destruct y as [y|]; [|discriminate]. simpl in Hid. injection Hid as ->.
        apply (Honly p); [lia|exact Hdiff|exact Hy].
      * destruct (decide (Z.max 0 q = sp)) as [-> | Hqs].
        -- rewrite Hslot_sp. apply omap_filter_NoDup. apply Hnd.
        -- rewrite (Hslot_q (Z.max 0 q)) by lia. apply Hnd.
    + unfold placed. rewrite Hen, lookup_insert_eq, Hsz. simpl. fold p.
      split; [reflexivity|]. split; [exact Hp|].
      split; [rewrite Hslot_p; apply elem_of_app; right; left|].
      intros q Hq Hqp. destruct (decide (q = sp)) as [-> | Hqs].
      * rewrite Hslot_sp. exact Hold.
      * rewrite (Hslot_q q Hq Hqp Hqs). apply Honly; assumption.
Qed.

(** X25. Activity postpones the timeout by whole turns of the wheel:
    [update_activity] of a known connection leaves its entry in exactly
    one slot, with [T / I] ticks to go and the new activity instant; so
    during the next [(T / I) * W] ticks, at whatever instants, the timeout
    callback does not run for the connection. *)
Theorem update_activity_postpones_timeout :
  forall (fd t_act now : Z) (a : nat) (en : ConnectionTimeoutManager.ConnectionEntry)
         (m : ConnectionTimeoutManager.t) (nows : list Z),
    wheel_ok m ->
    0 < ConnectionTimeoutManager.tick_interval_ms_ m ->
    0 < ConnectionTimeoutManager.idle_timeout_ms_ m ->
    ConnectionTimeoutManager.idle_timeout_ms_ m + ConnectionTimeoutManager.wheel_size_ m
    < 2 ^ 31 ->
    0 <= now - t_act <= 2 ^ 31 * 1000000 ->
    ConnectionTimeoutManager.connections_ m !! fd = Some a ->
    placed a en m ->
    ConnectionTimeoutManager.conn en = Some fd ->
    (forall b enb, ConnectionTimeoutManager.entries m !! b = Some enb ->
                   ConnectionTimeoutManager.conn enb = Some fd -> b = a) ->
    Z.of_nat (length nows)
    <= Z.quot (ConnectionTimeoutManager.idle_timeout_ms_ m)
              (ConnectionTimeoutManager.tick_interval_ms_ m)
       * ConnectionTimeoutManager.wheel_size_ m ->
    let m1 := ConnectionTimeoutManager.update_activity fd t_act now m in
    placed a (ConnectionTimeoutManager.mkEntry (Some fd)
                (ConnectionTimeoutManager.calculate_slot now t_act m)
                (Z.quot (ConnectionTimeoutManager.idle_timeout_ms_ m)
                        (ConnectionTimeoutManager.tick_interval_ms_ m)) t_act) m1 /\
    wheel_ok m1 /\
    (TimeoutCb fd ∉ (run_ticks nows m1).2).
Proof.
  intros fd t_act now a en m nows Hok HI HT Hsum Hel Hconn Hplaced Hfd Huniq Hk m1.
  destruct (update_activity_effect fd t_act now a en m Hok HI HT Hsum Hel Hconn Hplaced)
    as (Hok1 & Hsize & Hcur & Hplaced1 & Hentries).
  fold m1 in Hok1, Hsize, Hcur, Hplaced1, Hentries. rewrite Hfd in Hplaced1, Hentries.
  split; [exact Hplaced1|]. split; [exact Hok1|].
  pose proof Hok as (HW & _).
  destruct (quot_within (ConnectionTimeoutManager.idle_timeout_ms_ m)
              (ConnectionTimeoutManager.tick_interval_ms_ m) HI ltac:(lia)) as [Hq Hle].
  assert (Hq0 : 0 <= Z.quot (ConnectionTimeoutManager.idle_timeout_ms_ m)
                            (ConnectionTimeoutManager.tick_interval_ms_ m))
    by (apply Z.quot_pos; lia).
  destruct Hplaced1 as (Ha1 & Hp1 & Hin1 & Honly1). simpl in Hp1, Hin1, Honly1.
  set (p := ConnectionTimeoutManager.calculate_slot now t_act m) in *.
  set (en1 := ConnectionTimeoutManager.mkEntry (Some fd) p _ t_act) in *.
  destruct (entry_survives_ticks nows m1 a en1 p fd) as (_ & Hcb & _).
  - exact Hok1.
  - exact Hp1.
  - exact Ha1.
  - reflexivity.
  - intros b enb Hb Hc. rewrite Hentries in Hb.
    destruct (decide (a = b)) as [<- | Hne]; [reflexivity|].
    rewrite lookup_insert_ne in Hb by exact Hne. apply (Huniq b enb Hb Hc).
  - simpl. lia.
  - exact Hin1.
  - exact Honly1.
  - rewrite Hsize, Hcur. simpl.
    pose proof (Z.mod_pos_bound (p - ConnectionTimeoutManager.current_slot_ m)
                  (ConnectionTimeoutManager.wheel_size_ m) ltac:(lia)).
    lia.
  - exact Hcb.
Qed.

Lemma watched_placed :
  wheel_ok watched /\
  placed 0 (ConnectionTimeoutManager.mkEntry (Some 7) 3 3 0) watched /\
  ConnectionTimeoutManager.connections_ watched !! 7 = Some 0%nat /\
  ConnectionTimeoutManager.entries watched
  = <[0%nat := ConnectionTimeoutManager.mkEntry (Some 7) 3 3 0]> ∅.
Proof.
  destruct small_wheel_ok as (Hok & Hempty & Hentries & Hconns).
  destruct (add_connection_effect 0 7 0 0 0 small_wheel Hok)
    as (Hp & Hc & He & Hslot & Hother & _ & _ & Hok1).
  - simpl. lia.
  - simpl. lia.
  - simpl. lia.
  - lia.
  - lia.
  - rewrite Hconns. apply lookup_empty.
  - intros q. rewrite Hempty. apply not_elem_of_nil.
  - fold watched in Hc, He, Hslot, Hother, Hok1.
    change (ConnectionTimeoutManager.calculate_slot 0 0 small_wheel) with 3
      in Hp, He, Hslot, Hother.
    change (Z.quot (ConnectionTimeoutManager.idle_timeout_ms_ small_wheel)
                   (ConnectionTimeoutManager.tick_interval_ms_ small_wheel)) with 3 in He.
    rewrite Hentries in He.
    split; [exact Hok1|]. split; [|split; [exact Hc|exact He]].
    unfold placed. rewrite He, lookup_insert_eq. simpl.
    split; [reflexivity|]. split; [vm_compute; split; [discriminate|reflexivity]|].
    split; [rewrite Hslot; apply elem_of_app; right; left|].
    intros q Hq Hne. rewrite (Hother q Hq Hne), Hempty. apply not_elem_of_nil.
Qed.

Lemma update_activity_postpones_timeout_witness :
  TimeoutCb 7 ∉ (run_ticks eleven_ticks active_again).2.
Proof.
  destruct watched_placed as (Hok & Hplaced & Hconn & Hentries).
  destruct (update_activity_postpones_timeout 7 500000000 500000000 0
              (ConnectionTimeoutManager.mkEntry (Some 7) 3 3 0) watched eleven_ticks Hok)
    as (_ & _ & H).
  - vm_compute. reflexivity.
  - vm_compute. reflexivity.
  - vm_compute. reflexivity.
  - lia.
  - exact Hconn.
  - exact Hplaced.
  - reflexivity.
  - intros b enb Hb Hc. rewrite Hentries in Hb.
    destruct (decide (0%nat = b)) as [<- | Hne]; [reflexivity|].
    rewrite lookup_insert_ne, lookup_empty in Hb by exact Hne. discriminate.
  - vm_compute. discriminate.
  - exact H.
Defined.

(** ** Time wheel: removal *)

Lemma deliver_in expired :
  forall m a en fd,
    a ∈ expired ->
    ConnectionTimeoutManager.entries m !! a = Some en ->
    ConnectionTimeoutManager.conn en = Some fd ->
    ConnectionTimeoutManager.timeout_callback_ m = true ->
    TimeoutCb fd ∈ (ConnectionTimeoutManager.deliver expired m).2.
Proof.
  induction expired as [|b expired IH]; intros m a en fd Hin Ha Hfd Hcb.
  - inversion Hin.
  - simpl. apply elem_of_cons in Hin as [<- | Hin].
    + rewrite Ha. destruct en as [c sp rt la]. simpl in Hfd. subst c.
      destruct (ConnectionTimeoutManager.deliver expired _) as [m2 out]. simpl.
      rewrite Hcb. left.
    + destruct (ConnectionTimeoutManager.entries m !! b) as [[[fd'|] sp rt la]|] eqn:Hb;
        try (apply (IH m a en fd Hin Ha Hfd Hcb)).
      specialize (IH (ConnectionTimeoutManager.set_connections
                        (delete fd' (ConnectionTimeoutManager.connections_ m))
                        (size_t (ConnectionTimeoutManager.total_connections_ m - 1)) m)
                     a en fd Hin Ha Hfd Hcb).
      destruct (ConnectionTimeoutManager.deliver expired _) as [m2 out]. simpl in *.
      rewrite Hcb. right. exact IH.
Qed.

(** X26. [remove_connection] forgets the descriptor and nothing else:
    the wheel and the entries are as before. So the entry of a removed
    connection is still scanned, and when it expires the timeout callback
    runs for the connection that was removed. *)
Theorem removed_connection_still_times_out :
  forall (fd now : Z) (a : nat) (en : ConnectionTimeoutManager.ConnectionEntry)
         (m : ConnectionTimeoutManager.t),
    wheel_ok m ->
    ConnectionTimeoutManager.timeout_callback_ m = true ->
    ConnectionTimeoutManager.entries m !! a = Some en ->
    ConnectionTimeoutManager.conn en = Some fd ->
    Some a ∈ ConnectionTimeoutManager.slot_entries
               (ConnectionTimeoutManager.current_slot_ m) m ->
    ConnectionTimeoutManager.remaining_ticks en <= 0 ->
    ConnectionTimeoutManager.idle_timeout_ms_ m
    <= ConnectionTimeoutManager.milliseconds
         (now - ConnectionTimeoutManager.last_activity_time en) ->
    let m1 := ConnectionTimeoutManager.remove_connection fd m in
    ConnectionTimeoutManager.time_wheel_ m1 = ConnectionTimeoutManager.time_wheel_ m /\
    ConnectionTimeoutManager.entries m1 = ConnectionTimeoutManager.entries m /\
    ConnectionTimeoutManager.connections_ m1 !! fd = None /\
    TimeoutCb fd ∈ (ConnectionTimeoutManager.tick now m1).2.
Proof.
  intros fd now a en m (HW & Hcur & Hlen & Hnd) Hcb Ha Hfd Hin Hticks Hidle m1.
  assert (Hm1 : ConnectionTimeoutManager.time_wheel_ m1
                = ConnectionTimeoutManager.time_wheel_ m /\
                ConnectionTimeoutManager.entries m1 = ConnectionTimeoutManager.entries m /\
                ConnectionTimeoutManager.current_slot_ m1
                = ConnectionTimeoutManager.current_slot_ m /\
                ConnectionTimeoutManager.idle_timeout_ms_ m1
                = ConnectionTimeoutManager.idle_timeout_ms_ m /\
                ConnectionTimeoutManager.timeout_callback_ m1 = true /\
                ConnectionTimeoutManager.connections_ m1 !! fd = None).
  { subst m1. unfold ConnectionTimeoutManager.remove_connection.
    destruct (ConnectionTimeoutManager.connections_ m !! fd) eqn:Hc; simpl.
    - repeat split; try assumption. apply lookup_delete_eq.
    - repeat split; assumption. }
  destruct Hm1 as (Hwheel & Hentries & Hslot & HT & Hcb1 & Hgone).
  split; [exact Hwheel|]. split; [exact Hentries|]. split; [exact Hgone|].
  unfold ConnectionTimeoutManager.tick, ConnectionTimeoutManager.process_timeout_connections.
  unfold ConnectionTimeoutManager.slot_entries in *. rewrite Hwheel, Hentries, Hslot, HT.
  destruct (scan_slot_outcome now (ConnectionTimeoutManager.idle_timeout_ms_ m)
              (default [] (ConnectionTimeoutManager.time_wheel_ m
                           !! Z.to_nat (ConnectionTimeoutManager.current_slot_ m)))
              (ConnectionTimeoutManager.entries m) a en
              (Hnd (ConnectionTimeoutManager.current_slot_ m)) Hin Ha)
    as (_ & Hexp & _).
  destruct (Hexp Hticks Hidle) as (Hin_exp & _ & Hstore).
  destruct (ConnectionTimeoutManager.scan_slot _ _ _ _) as [[h kept_entries] expired].
  simpl in Hin_exp, Hstore.
  pose proof (deliver_in expired
                (ConnectionTimeoutManager.set_entries h
                   (ConnectionTimeoutManager.set_slot
                      (ConnectionTimeoutManager.current_slot_ m) kept_entries m1))
                a en fd Hin_exp Hstore Hfd Hcb1) as Hout.
  destruct (ConnectionTimeoutManager.deliver expired _) as [m2 out]. exact Hout.
Qed.

Lemma removed_connection_still_times_out_witness :
  TimeoutCb 7
  ∈ (ConnectionTimeoutManager.tick 16000000000
       (ConnectionTimeoutManager.remove_connection 7 worn_out)).2.
Proof.
  destruct watched_placed as (Hok & _).
  assert (Hok' : wheel_ok worn_out).
  { apply (run_ticks_wheel_ok _ (ConnectionTimeoutManager.set_timeout_callback watched)).
    exact Hok. }
  destruct (removed_connection_still_times_out 7 16000000000 0
              (ConnectionTimeoutManager.mkEntry (Some 7) 3 0 0) worn_out Hok')
    as (_ & _ & _ & H).
  - vm_compute. reflexivity.
  - vm_compute. reflexivity.
  - reflexivity.
  - replace (ConnectionTimeoutManager.slot_entries
               (ConnectionTimeoutManager.current_slot_ worn_out) worn_out)
      with [Some 0%nat] by (vm_compute; reflexivity).
    left.
  - simpl. lia.
  - vm_compute. discriminate.
  - exact H.
Defined.

(** ** Input buffer: what a read stores *)

(** What a successful [ensure_space_available] leaves: a chunk rewound to
    head 0 that stores the same bytes. *)
Lemma ensure_space_available_keeps_bytes oom b p b1 p1 :
  pristine p -> buffer_in_bounds b -> pool_sized b ->
  InputBuffer.ensure_space_available oom BufferBase.DEFAULT_BUFFER_SIZE b p
  = (true, b1, p1) ->
  pristine p1 /\
  exists c1,
    BufferBase.data_buf b1 = Some c1 /\
    Chunk.head c1 = 0 /\ Chunk.length c1 = stored_length b /\
    0 <= Chunk.length c1 <= Chunk.capacity c1 /\
    Chunk.capacity c1 <= 4096 * 1024 /\
    (forall i, 0 <= i < stored_length b -> Chunk.data c1 i = stored b i).
Proof.
  intros Hpr Hb Hsz. unfold InputBuffer.ensure_space_available.
  unfold BufferBase.DEFAULT_BUFFER_SIZE, InputBuffer.MAX_ALLOWED_SIZE, safe_int_to_size.
  change (4096 <=? 0) with false. change (1024 * 1024 <? 4096) with false.
  change (4096 <? 0) with false. cbn iota.
  rewrite (size_t_small 4096) by lia.
  unfold buffer_in_bounds, pool_sized, stored_length, stored in *.
  destruct (BufferBase.data_buf b) as [c|] eqn:Hdb.
  - destruct Hb as (Hh & Hl & Hfit & Hcap).
    pose proof (rewound_chunk c Hl) as Hc1.
    set (c1 := if negb (Chunk.head c =? 0) then Chunk.adjust c else c) in *.
    assert (Hb1 : BufferBase.data_buf
                    (if negb (Chunk.head c =? 0) then InputBuffer.adjust b else b)
                  = Some c1).
    { subst c1. unfold InputBuffer.adjust. rewrite Hdb.
      destruct (Chunk.head c =? 0) eqn:H0; simpl; [exact Hdb|].
      apply Z.eqb_neq in H0.
      destruct (0 <? Chunk.head c) eqn:H1; [reflexivity|apply Z.ltb_ge in H1; lia]. }
    set (b0 := if negb (Chunk.head c =? 0) then InputBuffer.adjust b else b) in *.
    rewrite Hb1.
    destruct Hc1 as (C1h & C1l & C1c & C1d).
    rewrite (size_t_small (Chunk.capacity c1 - Chunk.length c1)) by lia.
    destruct (4096 <=? Chunk.capacity c1 - Chunk.length c1) eqn:Hroom.
    + intros [= <- <-]. split; [exact Hpr|]. exists c1.
      split; [exact Hb1|]. repeat split; try assumption; lia.
    + apply Z.leb_gt in Hroom.
      rewrite (size_t_small (4096 - (Chunk.capacity c1 - Chunk.length c1))) by lia.
      unfold INT_MAX.
      destruct (2 ^ 31 - 1 <? 4096 - (Chunk.capacity c1 - Chunk.length c1)) eqn:Hbig;
        [apply Z.ltb_lt in Hbig; lia|].
      rewrite int_small by lia.
      unfold InputBuffer.expand_buffer. rewrite Hb1.
      rewrite (size_t_small (4096 - (Chunk.capacity c1 - Chunk.length c1))) by lia.
      rewrite (size_t_small (Chunk.length c1 + _)) by lia.
      destruct (MemoryPool.alloc_chunk oom _ p) as [[new_buf| |ex] p'] eqn:Halloc;
        try discriminate.
      destruct (alloc_chunk_pristine _ _ _ _ _ Hpr Halloc) as [Hpr' Hnew].
      destruct (Hnew new_buf eq_refl) as (_ & Ncap & Nlen & Nhd).
      intros [= <- <-].
      split; [exact (retrieve_pristine (Some c1) p' Hpr')|].
      unfold Chunk.copy.
      destruct (Chunk.length c1 =? 0) eqn:Hz.
      * apply Z.eqb_eq in Hz. eexists. simpl. split; [reflexivity|]. simpl.
        repeat split; lia.
      * destruct (Chunk.capacity new_buf <? Chunk.length c1) eqn:Hsmall;
          [apply Z.ltb_lt in Hsmall; lia|].
        eexists. simpl. split; [reflexivity|]. simpl.
        repeat split; try lia.
        intros i Hi. unfold memcpy.
        destruct (0 <=? i) eqn:Hi1; [|apply Z.leb_gt in Hi1; lia].
        destruct (i <? 0 + Chunk.length c1) eqn:Hi2; [|apply Z.ltb_ge in Hi2; lia].
        simpl. rewrite C1h. replace (0 + (i - 0)) with i by lia. apply C1d. exact Hi.
  - change (Z.max 4096 4096 <? 0) with false. cbn iota.
    rewrite (size_t_small (Z.max 4096 4096)) by lia.
    destruct (MemoryPool.alloc_chunk oom _ p) as [[c| |ex] p'] eqn:Halloc;
      try discriminate.
    destruct (alloc_chunk_pristine _ _ _ _ _ Hpr Halloc) as [Hpr' Hnew].
    destruct (Hnew c eq_refl) as (_ & Ncap & Nlen & Nhd).
    intros [= <- <-]. split; [exact Hpr'|]. exists c. simpl.
    repeat split; lia.
Qed.

(** X27. A read that returns [n > 0] has appended the [n] bytes the
    kernel delivered: the input buffer stores [n] more bytes, those stored
    before are unchanged and in place, and the bytes received follow them
    in order. Buffer and free lists stay well formed, so the same holds
    for the next read. (The kernel delivers no more than was asked for.) *)
Theorem read_from_fd_appends :
  forall (oom : bool) (r : sysret) (rest : list sysret) (fd n : Z)
         (b b' : BufferBase.t) (p p' : MemoryPool.t) (out : list Event)
         (env' : list sysret),
    pristine p -> buffer_in_bounds b -> pool_sized b ->
    (ret r = -1 -> errno r <> EINTR) ->
    InputBuffer.read_from_fd oom (r :: rest) fd b p = Some (n, b', p', out, env') ->
    0 < n ->
    (forall count, out = [SysRead fd count] -> ret r <= count) ->
    ret r < 2 ^ 31 ->
    n = ret r /\ env' = rest /\
    stored_length b' = stored_length b + n /\
    (forall i, 0 <= i < stored_length b -> stored b' i = stored b i) /\
    (forall i, 0 <= i < n -> stored b' (stored_length b + i) = payload r i) /\
    buffer_in_bounds b' /\ pool_sized b' /\ pristine p'.
Proof.
  intros oom r rest fd n b b' p p' out env' Hpr Hb Hsz Hnot Hread Hn Hkernel Hint.
  unfold InputBuffer.read_from_fd in Hread.
  destruct (fd <? 0); [injection Hread as <- _ _ _ _; lia|].
  destruct (InputBuffer.ensure_space_available oom _ b p) as [[ok b1] p1] eqn:Hens.
  destruct ok; simpl in Hread; [|injection Hread as <- _ _ _ _; lia].
  destruct (ensure_space_available_keeps_bytes _ _ _ _ _ Hpr Hb Hsz Hens)
    as (Hpr1 & c1 & Hc1 & Hh & Hl & Hl0 & Hcap & Hdata).
  rewrite Hc1 in Hread.
  rewrite (size_t_small (Chunk.capacity c1 - Chunk.length c1)) in Hread by lia.
  destruct (Chunk.capacity c1 - Chunk.length c1 =? 0);
    [injection Hread as <- _ _ _ _; lia|].
  assert (Hgo : (ret r =? -1) && (errno r =? EINTR) = false).
  { destruct (Z.eqb_spec (ret r) (-1)) as [H1 | H1]; [|reflexivity].
    apply Hnot in H1. apply Z.eqb_neq in H1. rewrite H1. reflexivity. }
  simpl in Hread. rewrite Hgo in Hread.
  destruct (0 <? ret r) eqn:Hpos.
  - apply Z.ltb_lt in Hpos. injection Hread as <- <- <- <- <-.
    rewrite int_small by lia.
    specialize (Hkernel _ eq_refl).
    rewrite (size_t_small (ret r)) by lia.
    rewrite (size_t_small (Chunk.length c1 + ret r)) by lia.
    unfold stored_length at 1, stored, buffer_in_bounds, pool_sized, chunk_in_bounds,
      stored_byte. simpl.
    rewrite Hh, <- Hl.
    split; [reflexivity|]. split; [reflexivity|]. split; [reflexivity|].
    split; [|split; [|split; [|split]]].
    + intros i Hi. unfold memcpy.
      destruct (Chunk.length c1 <=? 0 + i) eqn:Hi1; [apply Z.leb_le in Hi1; lia|].
      simpl. rewrite Hdata by lia. unfold stored. reflexivity.
    + intros i Hi. unfold memcpy.
      destruct (Chunk.length c1 <=? 0 + (Chunk.length c1 + i)) eqn:Hi1;
        [|apply Z.leb_gt in Hi1; lia].
      destruct (0 + (Chunk.length c1 + i) <? Chunk.length c1 + ret r) eqn:Hi2;
        [|apply Z.ltb_ge in Hi2; lia].
      simpl. f_equal. lia.
    + lia.
    + exact Hcap.
    + exact Hpr1.
  - destruct (ret r =? 0); [injection Hread as <- _ _ _ _; lia|].
    destruct (_ || _); injection Hread as <- _ _ _ _; lia.
Qed.

Lemma read_from_fd_appends_witness :
  exists b' p',
    InputBuffer.read_from_fd false [ten_letters] 7 BufferBase.empty MemoryPool.get_instance
    = Some (10, b', p', [SysRead 7 4096], []) /\
    stored_length b' = stored_length BufferBase.empty + 10 /\
    stored b' (stored_length BufferBase.empty + 9) = payload ten_letters 9.
Proof.
  evar (b' : BufferBase.t). evar (p' : MemoryPool.t).
  assert (Hread : InputBuffer.read_from_fd false [ten_letters] 7 BufferBase.empty
                    MemoryPool.get_instance
                  = Some (10, b', p', [SysRead 7 4096], []))
    by (unfold b', p'; vm_compute; reflexivity).
  exists b', p'. split; [exact Hread|].
  destruct (read_from_fd_appends false ten_letters [] 7 10 BufferBase.empty b'
              MemoryPool.get_instance p' [SysRead 7 4096] [])
    as (_ & _ & Hlen & _ & Hnew & _).
  - exact get_instance_pristine.
  - exact I.
  - exact I.
  - simpl. discriminate.
  - exact Hread.
  - lia.
  - intros count [= <-]. simpl. lia.
  - simpl. lia.
  - split; [exact Hlen|apply Hnew; lia].
Defined.
